(** * librelay-node: the framed transport and the message receiver

    A shallow embedding of [src/websocket-resources.js] (the [Request]
    classes, [KeepAlive] and [WebSocketResource]) and of the message
    receiver that follows it in the same source file ([MessageReceiver]:
    [connect], [onclose], [handleRequest], the envelope queue, [unpad],
    [decrypt], [tryMessageAgain], [processDecrypted]).

    Bytes are [Byte.byte], 32 and 64 bit integers are [Z] with their
    wrap-around written out, the table of outgoing requests is a [gmap]
    keyed by the number the source uses as key, timers live on a virtual
    clock in milliseconds, and asynchronous code is a tree of effects and
    suspension points that a scheduler runs. *)

From Stdlib Require Import ZArith Lia Bool List String Strings.Byte.
From stdpp Require Import base option list gmap strings.

Local Open Scope Z_scope.

(* ===================================================================== *)
(** ** Padding of decrypted plaintext: [MessageReceiver.unpad] *)
(* ===================================================================== *)

(** What a JavaScript call does: it returns a value or throws. *)
Inductive completion (A : Type) : Type :=
| Returned (a : A)
| Thrown (message : string).
Arguments Returned {A} a.
Arguments Thrown {A} message.

Module Padding.

(** The [for (var i = length - 1; i >= 0; i--)] loop of [unpad]. The
    argument [n] is [i + 1]: the loop is over when it reaches [0], and
    then [plaintext] is still [undefined] ([None]). *)
Fixpoint unpad_from (paddedPlaintext : list byte) (n : nat)
  : completion (option (list byte)) :=
  match n with
  | O => Returned None
  | S i =>
      match paddedPlaintext !! i with
      | Some b =>
          if Byte.eqb b x80 then Returned (Some (take i paddedPlaintext))
          else if negb (Byte.eqb b x00) then Thrown "Invalid padding"
          else unpad_from paddedPlaintext i
      | None => Thrown "Invalid padding"
      end
  end.

Definition unpad (paddedPlaintext : list byte)
  : completion (option (list byte)) :=
  unpad_from paddedPlaintext (length paddedPlaintext).

(** Padding as the sender applies it: [plaintext ‖ 0x80 ‖ 0x00^k]. *)
Definition pad (plaintext : list byte) (k : nat) : list byte :=
  plaintext ++ x80 :: replicate k x00.

End Padding.

(* ===================================================================== *)
(** ** Request ids: [Long], [Uint32Array] and [Request]'s constructor *)
(* ===================================================================== *)

Module Ids.

Definition byte_to_Z (b : byte) : Z := Z.of_N (Byte.to_N b).

(** [TypedArray.prototype.set(source)] on a [Uint32Array]: the elements
    of the source are copied one to one from index 0, each converted to
    an unsigned 32-bit integer; the elements of the target past the
    source keep their value. *)
Definition Uint32Array_set (target : list Z) (source : list byte) : list Z :=
  map (fun b => byte_to_Z b mod 2^32) source ++ drop (length source) target.

(** [new Long(low, high, true)] as the unsigned 64-bit integer it
    denotes. *)
Definition Long (low high : Z) : Z := (high mod 2^32) * 2^32 + low mod 2^32.

(** The id [Request]'s constructor makes when the caller gave none, from
    the buffer [crypto.randomBytes(ints.length)] returned:
    [ints = new Uint32Array(2); ints.set(random); new Long(ints[0], ints[1], true)]. *)
Definition generated_id (random : list byte) : Z :=
  let ints := Uint32Array_set [0; 0] random in
  Long (nth 0 ints 0) (nth 1 ints 0).

(** [Long.prototype.toNumber]: the nearest double (53 bits of
    significand, ties to even) of an unsigned 64-bit integer. *)
Definition toNumber (v : Z) : Z :=
  if v <? 2^53 then v
  else
    let e := Z.log2 v - 52 in
    let q := Z.shiftr v e in
    let r := Z.land v (Z.ones e) in
    let half := Z.shiftl 1 (e - 1) in
    let q' := if (half <? r) || ((r =? half) && Z.odd q) then q + 1 else q in
    Z.shiftl q' e.

End Ids.

(* ===================================================================== *)
(** ** The framed transport: [Request], [KeepAlive], [WebSocketResource] *)
(* ===================================================================== *)

Module Transport.

(** A function stored in a request as [success] or [error]: the bound
    [reset] of the keep-alive, or a function of the caller, whose calls
    are recorded. *)
Inductive callback :=
| KeepAliveReset
| Consumer (tag : nat).

(** The [options] object given to [Request]'s constructor, with the
    aliases the constructor accepts. [None] is [undefined]. *)
Record options := mkOptions {
  opt_verb : option string;  opt_type : option string;
  opt_path : option string;  opt_url : option string;
  opt_body : option (list byte);  opt_data : option (list byte);
  opt_success : option callback;  opt_error : option callback;
  opt_id : option Z
}.

Record Request := mkRequest {
  verb : option string;
  path : option string;
  body : option (list byte);     (* [None] is [null] *)
  success : option callback;
  error : option callback;
  id : Z
}.

(** [a || b] on strings that may be [undefined]: the empty string is
    falsy. *)
Definition or_string (a b : option string) : option string :=
  match a with
  | Some x => if String.eqb x "" then b else a
  | None => b
  end.

(** [a || b] on buffers that may be [undefined]: every object is
    truthy. *)
Definition or_object {A : Type} (a b : option A) : option A :=
  match a with
  | Some _ => a
  | None => b
  end.

(** A decoded [WebSocketMessage]. *)
Inductive frame :=
| REQUEST (verb path : option string) (body : option (list byte)) (id : Z)
| RESPONSE (id : Z) (status : Z) (message : option string)
| OtherType (type : Z).

Inductive readyState := CONNECTING | OPEN | CLOSING | CLOSED.

Inductive event_name := EvOpen | EvMessage | EvClose.

Inductive listener :=
| OnMessage            (* [this.onMessage.bind(this)] *)
| ResetKeepAlive       (* [keepalive.reset.bind(keepalive)] *)
| StopKeepAlive        (* [keepalive.stop.bind(keepalive)] *)
| External (tag : nat).

(** What the resource does that can be seen from outside. *)
Inductive output :=
| Sent (f : frame)                                   (* [socket.send] *)
| SocketClose (code : Z) (reason : option string)    (* [socket.close] *)
| Invoked (tag : nat) (message : option string) (status : Z) (request_id : Z)
| Heard (tag : nat) (ev : event_name)
| Rejected (error : string)       (* the promise of [onMessage] rejects *)
| Uncaught (error : string).      (* an exception leaves a callback *)

Record KeepAlive := mkKeepAlive {
  ka_path : string;
  ka_disconnect : bool
}.

(** A [WebSocketResource] with its [KeepAlive], the armed timers (each
    the time in milliseconds at which it fires), the clock, and the
    system's source of random bytes. *)
Record wsr := mkWsr {
  socket : option readyState;           (* [None] is [null] *)
  outgoingRequests : gmap Z Request;    (* [_outgoingRequests] *)
  listeners : list (event_name * listener);
  keepalive : option KeepAlive;
  keepAliveTimer : option Z;
  disconnectTimer : option Z;
  now : Z;
  entropy : nat -> byte;
  cursor : nat;
  out : list output
}.

Definition set_socket (v : option readyState) (s : wsr) : wsr :=
  mkWsr v (outgoingRequests s) (listeners s) (keepalive s) (keepAliveTimer s)
        (disconnectTimer s) (now s) (entropy s) (cursor s) (out s).
Definition set_outgoingRequests (v : gmap Z Request) (s : wsr) : wsr :=
  mkWsr (socket s) v (listeners s) (keepalive s) (keepAliveTimer s)
        (disconnectTimer s) (now s) (entropy s) (cursor s) (out s).
Definition set_listeners (v : list (event_name * listener)) (s : wsr) : wsr :=
  mkWsr (socket s) (outgoingRequests s) v (keepalive s) (keepAliveTimer s)
        (disconnectTimer s) (now s) (entropy s) (cursor s) (out s).
Definition set_keepAliveTimer (v : option Z) (s : wsr) : wsr :=
  mkWsr (socket s) (outgoingRequests s) (listeners s) (keepalive s) v
        (disconnectTimer s) (now s) (entropy s) (cursor s) (out s).
Definition set_disconnectTimer (v : option Z) (s : wsr) : wsr :=
  mkWsr (socket s) (outgoingRequests s) (listeners s) (keepalive s)
        (keepAliveTimer s) v (now s) (entropy s) (cursor s) (out s).
Definition set_now (v : Z) (s : wsr) : wsr :=
  mkWsr (socket s) (outgoingRequests s) (listeners s) (keepalive s)
        (keepAliveTimer s) (disconnectTimer s) v (entropy s) (cursor s) (out s).
Definition set_cursor (v : nat) (s : wsr) : wsr :=
  mkWsr (socket s) (outgoingRequests s) (listeners s) (keepalive s)
        (keepAliveTimer s) (disconnectTimer s) (now s) (entropy s) v (out s).
Definition set_out (v : list output) (s : wsr) : wsr :=
  mkWsr (socket s) (outgoingRequests s) (listeners s) (keepalive s)
        (keepAliveTimer s) (disconnectTimer s) (now s) (entropy s) (cursor s) v.

(** *** Code that changes the resource and may throw *)

Definition M (A : Type) : Type := wsr -> completion A * wsr.

Definition ret {A : Type} (a : A) : M A := fun s => (Returned a, s).
Definition throw {A : Type} (e : string) : M A := fun s => (Thrown e, s).
Definition bind {A B : Type} (m : M A) (f : A -> M B) : M B :=
  fun s => match m s with
           | (Returned a, s') => f a s'
           | (Thrown e, s') => (Thrown e, s')
           end.
Definition gets {A : Type} (f : wsr -> A) : M A := fun s => (Returned (f s), s).
Definition modify (f : wsr -> wsr) : M unit := fun s => (Returned tt, f s).

Declare Scope wsr_scope.
Delimit Scope wsr_scope with wsr.
Notation "x <- c1 ;; c2" := (bind c1 (fun x => c2))
  (at level 100, c1 at next level, right associativity) : wsr_scope.
Notation "c1 ;; c2" := (bind c1 (fun _ => c2))
  (at level 100, right associativity) : wsr_scope.
Local Open Scope wsr_scope.

Definition emit (o : output) : M unit :=
  modify (fun s => set_out (out s ++ [o]) s).

(** The body of an [async] function: what it throws rejects the promise
    it returns, and the caller goes on. *)
Definition async (m : M unit) : M unit :=
  fun s => match m s with
           | (Returned _, s') => (Returned tt, s')
           | (Thrown e, s') => (Returned tt, set_out (out s' ++ [Rejected e]) s')
           end.

(** A callback the event loop calls: nothing catches what it throws. *)
Definition toplevel (m : M unit) (s : wsr) : wsr :=
  match m s with
  | (Returned _, s') => s'
  | (Thrown e, s') => set_out (out s' ++ [Uncaught e]) s'
  end.

(** [crypto.randomBytes(n)] *)
Definition randomBytes (n : nat) : M (list byte) :=
  fun s => (Returned (map (entropy s) (seq (cursor s) n)),
            set_cursor (cursor s + n)%nat s).

(** [this.wsr.socket.send(...)]: [socket] may be [null], and a socket
    that is not open refuses to send. *)
Definition socket_send (f : frame) : M unit :=
  sock <- gets socket ;;
  match sock with
  | None => throw "TypeError: Cannot read property 'send' of null"
  | Some OPEN => emit (Sent f)
  | Some _ => throw "Error: not opened"
  end.

(** [Request]'s constructor. *)
Definition new_Request (o : options) : M Request :=
  id <- match opt_id o with
        | Some i => ret i
        | None => random <- randomBytes 2 ;; ret (Ids.generated_id random)
        end ;;
  ret {| verb := or_string (opt_verb o) (opt_type o);
         path := or_string (opt_path o) (opt_url o);
         body := or_object (opt_body o) (opt_data o);
         success := opt_success o;
         error := opt_error o;
         id := id |}.

(** [IncomingWebSocketRequest.respond] *)
Definition respond (r : Request) (status : Z) (message : string) : M unit :=
  socket_send (RESPONSE (id r) status (Some message)).

(** [OutgoingWebSocketRequest.send] *)
Definition send (r : Request) : M unit :=
  socket_send (REQUEST (verb r) (path r) (body r) (id r)).

(** [new KeepAlive(wsr, opts)] *)
Definition new_KeepAlive (path : option string) (disconnect : option bool)
  : KeepAlive :=
  {| ka_path := default "/" path;
     ka_disconnect := default true disconnect |}.

(** [KeepAlive.stop] *)
Definition stop : M unit :=
  modify (set_keepAliveTimer None) ;;
  modify (set_disconnectTimer None).

(** [KeepAlive.reset] *)
Definition reset : M unit :=
  modify (set_keepAliveTimer None) ;;
  modify (set_disconnectTimer None) ;;
  modify (fun s => set_keepAliveTimer (Some (now s + 50000)) s).

(** [WebSocketResource.close] *)
Definition close (code : option Z) (reason : option string) : M unit :=
  sock <- gets socket ;;
  match sock with
  | Some CLOSED | None => ret tt
  | Some _ =>
      let code := match code with
                  | Some c => if c =? 0 then 3000 else c
                  | None => 3000
                  end in
      emit (SocketClose code reason)
  end ;;
  modify (set_socket None).

(** [WebSocketResource.sendRequest] *)
Definition sendRequest (o : options) : M Request :=
  request <- new_Request o ;;
  modify (fun s => set_outgoingRequests
                     (<[Ids.toNumber (id request) := request]> (outgoingRequests s)) s) ;;
  send request ;;
  ret request.

(** Calling the function stored in a request. *)
Definition call (cb : callback) (message : option string) (status : Z)
    (r : Request) : M unit :=
  match cb with
  | KeepAliveReset => reset
  | Consumer tag => emit (Invoked tag message status (id r))
  end.

Section WithHandler.

(** [opts.handleRequest]: for each request, the answers ([status],
    [message]) the consumer's handler gives through [respond]; [None]
    when the consumer gave no function. *)
Variable handleRequest : option (Request -> list (Z * string)).

Definition handle (r : Request) : M unit :=
  match handleRequest with
  | Some h =>
      fold_right (fun a k => respond r a.1 a.2 ;; k) (ret tt) (h r)
  | None => respond r 404 "Not found"
  end.

(** [WebSocketResource.onMessage] *)
Definition onMessage (message : frame) : M unit :=
  async
    match message with
    | REQUEST v p b i =>
        request <- new_Request (mkOptions v None p None b None None None (Some i)) ;;
        handle request
    | RESPONSE i status msg =>
        let key := Ids.toNumber i in
        table <- gets outgoingRequests ;;
        match table !! key with
        | Some request =>
            modify (fun s => set_outgoingRequests (delete key (outgoingRequests s)) s) ;;
            let callback :=
              if (200 <=? status) && (status <? 300)
              then success request else error request in
            match callback with
            | Some cb => call cb msg status request
            | None => ret tt
            end
        | None => throw "ReferenceError: Unmatched WebSocket Response"
        end
    | OtherType t => throw "TypeError: Unhandled message type"
    end.

Definition run_listener (l : listener) (ev : event_name)
    (message : option frame) : M unit :=
  match l with
  | OnMessage =>
      match message with
      | Some f => onMessage f
      | None => ret tt
      end
  | ResetKeepAlive => reset
  | StopKeepAlive => stop
  | External tag => emit (Heard tag ev)
  end.

Definition event_name_eqb (a b : event_name) : bool :=
  match a, b with
  | EvOpen, EvOpen | EvMessage, EvMessage | EvClose, EvClose => true
  | _, _ => false
  end.

(** The socket emits an event: the listeners registered for it run in
    the order of their registration. *)
Definition dispatch (ev : event_name) (message : option frame) : M unit :=
  ls <- gets listeners ;;
  fold_right
    (fun (x : event_name * listener) k =>
       (if event_name_eqb x.1 ev then run_listener x.2 ev message else ret tt) ;; k)
    (ret tt) ls.

(** The function given to [setTimeout] for [keepAliveTimer]. *)
Definition keepAliveTimer_fires (ka : KeepAlive) : M unit :=
  sendRequest (mkOptions (Some "GET") None (Some (ka_path ka)) None None None
                         (Some KeepAliveReset) None None) ;;
  if ka_disconnect ka
  then modify (fun s => set_disconnectTimer (Some (now s + 1000)) s)
  else reset.

(** The function given to [setTimeout] for [disconnectTimer]. *)
Definition disconnectTimer_fires : M unit :=
  modify (set_keepAliveTimer None) ;;
  close (Some 3001) (Some "No response to keepalive request").

(** [new WebSocketResource(url, opts)] with [opts.keepalive] as
    [Some (path, disconnect)] when it is given. *)
Definition new_WebSocketResource
    (opts_keepalive : option (option string * option bool))
    (clock : Z) (random : nat -> byte) : wsr :=
  {| socket := None;
     outgoingRequests := ∅;
     listeners :=
       (EvMessage, OnMessage)
       :: match opts_keepalive with
          | Some _ => [(EvOpen, ResetKeepAlive); (EvMessage, ResetKeepAlive);
                       (EvClose, StopKeepAlive)]
          | None => []
          end;
     keepalive := (fun o => new_KeepAlive o.1 o.2) <$> opts_keepalive;
     keepAliveTimer := None;
     disconnectTimer := None;
     now := clock;
     entropy := random;
     cursor := 0;
     out := [] |}.

(** [WebSocketResource.connect]: the new socket gets every registered
    listener. *)
Definition connect : M unit :=
  close None None ;;
  modify (set_socket (Some CONNECTING)).

(** *** The event loop

    What happens to a resource, one thing at a time: time passes with
    no timer due, the timer that is due first fires, the socket emits
    an event, or the consumer calls a method. *)
Inductive input :=
| Wait (dt : Z)
| TimerFires
| SocketOpens
| SocketMessage (f : frame)
| SocketCloses
| CallConnect
| CallSendRequest (o : options)
| CallClose (code : option Z) (reason : option string).

Definition not_before (t : Z) (timer : option Z) : bool :=
  match timer with
  | Some d => t <=? d
  | None => true
  end.

(** [None] when the input cannot happen in the state: time cannot
    pass beyond an armed timer, and no timer fires when none is
    armed. *)
Definition step (i : input) (s : wsr) : option wsr :=
  match i with
  | Wait dt =>
      if (0 <=? dt) && not_before (now s + dt) (keepAliveTimer s)
         && not_before (now s + dt) (disconnectTimer s)
      then Some (set_now (now s + dt) s) else None
  | TimerFires =>
      match keepAliveTimer s, disconnectTimer s, keepalive s with
      | Some k, d, Some ka =>
          if not_before k d
          then Some (toplevel (keepAliveTimer_fires ka)
                       (set_keepAliveTimer None (set_now (Z.max (now s) k) s)))
          else match d with
               | Some d' => Some (toplevel disconnectTimer_fires
                               (set_disconnectTimer None (set_now (Z.max (now s) d') s)))
               | None => None
               end
      | None, Some d', Some _ =>
          Some (toplevel disconnectTimer_fires
                  (set_disconnectTimer None (set_now (Z.max (now s) d') s)))
      | _, _, _ => None
      end
  | SocketOpens =>
      Some (toplevel (dispatch EvOpen None)
              (set_socket (match socket s with
                           | Some _ => Some OPEN
                           | None => None
                           end) s))
  | SocketMessage f => Some (toplevel (dispatch EvMessage (Some f)) s)
  | SocketCloses =>
      Some (toplevel (dispatch EvClose None)
              (set_socket (match socket s with
                           | Some _ => Some CLOSED
                           | None => None
                           end) s))
  | CallConnect => Some (toplevel connect s)
  | CallSendRequest o => Some (toplevel (sendRequest o ;; ret tt) s)
  | CallClose code reason => Some (toplevel (close code reason) s)
  end.

Fixpoint run (inputs : list input) (s : wsr) : option wsr :=
  match inputs with
  | [] => Some s
  | i :: rest =>
      match step i s with
      | Some s' => run rest s'
      | None => None
      end
  end.

End WithHandler.

(** *** The keep-alive cycle, for the statements below *)

(** The listeners a resource with [opts.keepalive] registers in its
    constructor. *)
Definition standard_listeners : list (event_name * listener) :=
  [(EvMessage, OnMessage); (EvOpen, ResetKeepAlive);
   (EvMessage, ResetKeepAlive); (EvClose, StopKeepAlive)].

(** The id of the next request made without one. *)
Definition ping_id (s : wsr) : Z :=
  Ids.generated_id [entropy s (cursor s); entropy s (S (cursor s))].

Definition ping_request (ka : KeepAlive) (i : Z) : Request :=
  mkRequest (Some "GET") (or_string (Some (ka_path ka)) None) None
            (Some KeepAliveReset) None i.

Definition ping_frame (ka : KeepAlive) (i : Z) : frame :=
  REQUEST (Some "GET") (or_string (Some (ka_path ka)) None) None i.

(** The resource 50 s after a reset in [s], when the ping has gone. *)
Definition after_ping (s : wsr) (ka : KeepAlive) : wsr :=
  mkWsr (Some OPEN)
        (<[ping_id s := ping_request ka (ping_id s)]> (outgoingRequests s))
        (listeners s) (Some ka) None (Some (now s + 50000 + 1000))
        (now s + 50000) (entropy s) (cursor s + 2)
        (out s ++ [Sent (ping_frame ka (ping_id s))]).

(** The resource when the answer to that ping has come [dt] later. *)
Definition after_response (s : wsr) (ka : KeepAlive) (dt : Z) : wsr :=
  mkWsr (Some OPEN)
        (delete (ping_id s)
           (<[ping_id s := ping_request ka (ping_id s)]> (outgoingRequests s)))
        (listeners s) (Some ka) (Some (now s + 50000 + dt + 50000)) None
        (now s + 50000 + dt) (entropy s) (cursor s + 2)
        (out s ++ [Sent (ping_frame ka (ping_id s))]).

Definition is_Invoked (o : output) : bool :=
  match o with
  | Invoked _ _ _ _ => true
  | _ => false
  end.

Definition is_SocketClose (o : output) : bool :=
  match o with
  | SocketClose _ _ => true
  | _ => false
  end.

(** A resource made with the receiver's keep-alive options, connected
    and open at time 0, whose random source gives the byte 7. *)
Definition example_resource : wsr :=
  mkWsr (Some OPEN) ∅ standard_listeners
        (Some (mkKeepAlive "/v1/keepalive" true)) (Some 50000) None 0
        (fun _ => x07) 0 [].

(** A change of the resource that neither touches the table of
    outgoing requests nor calls a function stored in a request. *)
Definition keeps_pending (s s' : wsr) : Prop :=
  outgoingRequests s' = outgoingRequests s
  /\ List.filter is_Invoked (out s') = List.filter is_Invoked (out s).

(** A request of the consumer with both callbacks and its own id. *)
Definition example_options : options :=
  mkOptions (Some "PUT") None (Some "/v1/messages") None None None
            (Some (Consumer 0)) (Some (Consumer 1)) (Some 42).

End Transport.

(* ===================================================================== *)
(** ** Asynchronous code as trees of effects and suspension points *)
(* ===================================================================== *)

Module Async.

Section Proc.

(** [call X]: the operations of the collaborators that return a
    promise of an [X]; [effect]: what the code does at once;
    [error]: what a promise rejects with. *)
Context {call : Type -> Type} {effect error : Type}.

(** A promise-returning computation. [Ret] fulfils and [Throw]
    rejects the promise; [Do] performs an effect and goes on; [Try]
    calls something that may throw: the effect is performed and the
    call returns, or the call throws and nothing is performed; [Call]
    waits for a collaborator, which answers with a value or an error;
    [Fork] starts a computation whose promise nobody awaits. *)
Inductive proc (A : Type) : Type :=
| Ret (a : A)
| Throw (e : error)
| Do (eff : effect) (k : proc A)
| Try (eff : effect) (k : error + unit -> proc A)
| Call {X : Type} (c : call X) (k : error + X -> proc A)
| Fork (child : proc unit) (k : proc A).

Arguments Ret {A} a.
Arguments Throw {A} e.
Arguments Do {A} eff k.
Arguments Try {A} eff k.
Arguments Call {A X} c k.
Arguments Fork {A} child k.

(** [p.then(f, g)] with both continuations in one function. *)
Fixpoint attempt {A B : Type} (p : proc A) (f : error + A -> proc B) : proc B :=
  match p with
  | Ret a => f (inr a)
  | Throw e => f (inl e)
  | Do eff k => Do eff (attempt k f)
  | Try eff k => Try eff (fun r => attempt (k r) f)
  | Call c k => Call c (fun r => attempt (k r) f)
  | Fork child k => Fork child (attempt k f)
  end.

(** [p.then(f)] *)
Definition bind {A B : Type} (p : proc A) (f : A -> proc B) : proc B :=
  attempt p (fun r => match r with
                      | inl e => Throw e
                      | inr a => f a
                      end).

(** [p.catch(h)] *)
Definition catch {A : Type} (p : proc A) (h : error -> proc A) : proc A :=
  attempt p (fun r => match r with
                      | inl e => h e
                      | inr a => Ret a
                      end).

(** The promise a collaborator returns. *)
Definition await {X : Type} (c : call X) : proc X :=
  Call c (fun r => match r with
                   | inl e => Throw e
                   | inr x => Ret x
                   end).

Definition perform (eff : effect) : proc unit := Do eff (Ret tt).

(** A synchronous function that returns or throws, used as a
    continuation. *)
Definition lift {A : Type} (r : error + A) : proc A :=
  match r with
  | inl e => Throw e
  | inr a => Ret a
  end.

(** A call that may throw, as a statement: the exception is passed
    on. *)
Definition invoke (eff : effect) : proc unit := Try eff lift.

(** A computation run alone from start to end against collaborators
    that answer at once: the outcome of its promise, the effects in
    order, those of forked work included, and the collaborators'
    final state. [throws] says what a call that may throw throws in a
    state of the world, if anything. *)
Section Alone.
Context {W : Type} (answer : forall X : Type, call X -> W -> (error + X) * W).
Context (throws : effect -> W -> option error).

Fixpoint alone {A : Type} (p : proc A) (w : W) : (error + A) * list effect * W :=
  match p with
  | Ret a => (inr a, [], w)
  | Throw e => (inl e, [], w)
  | Do eff k =>
      let '(r, effs, w') := alone k w in (r, eff :: effs, w')
  | Try eff k =>
      match throws eff w with
      | Some e => alone (k (inl e)) w
      | None =>
          let '(r, effs, w') := alone (k (inr tt)) w in (r, eff :: effs, w')
      end
  | Call c k =>
      let '(x, w1) := answer _ c w in alone (k x) w1
  | Fork child k =>
      let '(_, effs1, w1) := alone child w in
      let '(r, effs2, w2) := alone k w1 in
      (r, effs1 ++ effs2, w2)
  end.
End Alone.

End Proc.

Arguments proc : clear implicits.
Arguments Ret {call effect error A} a.
Arguments Throw {call effect error A} e.
Arguments Do {call effect error A} eff k.
Arguments Try {call effect error A} eff k.
Arguments Call {call effect error A X} c k.
Arguments Fork {call effect error A} child k.

Declare Scope proc_scope.
Delimit Scope proc_scope with proc.
Notation "x <- c1 ;; c2" := (bind c1 (fun x => c2))
  (at level 100, c1 at next level, right associativity) : proc_scope.
Notation "c1 ;; c2" := (bind c1 (fun _ => c2))
  (at level 100, right associativity) : proc_scope.

End Async.

(* ===================================================================== *)
(** ** The message receiver *)
(* ===================================================================== *)

Module Receiver.
Import Async.
Local Open Scope proc_scope.

(** *** Data *)

Inductive error :=
| Error (message : string) (identityKey : option (list byte))
| IncomingIdentityKeyError (address : string) (ciphertext : list byte)
                           (identityKey : option (list byte)).

Inductive EnvelopeType :=
| CIPHERTEXT | PREKEY_BUNDLE | RECEIPT | OtherEnvelopeType (n : Z).

Record Envelope := mkEnvelope {
  env_type : EnvelopeType;
  source : string;
  sourceDevice : Z;
  env_timestamp : Z;                       (* a [Long] *)
  legacyMessage : option (list byte);
  content : option (list byte)
}.

Record Address := mkAddress {
  addr_name : string;
  addr_deviceId : Z
}.

Record AttachmentPointer := mkAttachment {
  att_id : Z;
  att_key : list byte;
  att_data : option (list byte)
}.

Inductive GroupType := UPDATE | DELIVER | QUIT | OtherGroupType (n : Z).

(** A member of a group as the code writes it: [None] is [undefined],
    which [processDecrypted] stores when it is called without a
    source. *)
Record GroupContext := mkGroup {
  group_id : list byte;
  group_type : GroupType;
  group_name : option string;
  group_avatar : option AttachmentPointer;
  group_members : list (option string);
  group_added : list (option string)
}.

Record DataMessage := mkDataMessage {
  body : option string;
  attachments : list AttachmentPointer;
  group : option GroupContext;
  flags : option Z;
  expireTimer : option Z
}.

Record SentMessage := mkSent {
  sent_destination : string;
  sent_timestamp : Z;
  sent_message : DataMessage;
  sent_expirationStartTimestamp : option Z
}.

Record ReadEntry := mkRead {
  read_timestamp : Z;
  read_sender : string
}.

Record SyncMessage := mkSync {
  sync_sent : option SentMessage;
  sync_contacts : option AttachmentPointer;    (* [contacts.blob] *)
  sync_groups : option AttachmentPointer;      (* [groups.blob] *)
  sync_blocked : option (list string);         (* [blocked.numbers] *)
  sync_request : bool;
  sync_read : option (list ReadEntry)
}.

Record Content := mkContent {
  dataMessage : option DataMessage;
  syncMessage : option SyncMessage
}.

(** The events given to [dispatchEvent]. *)
Inductive Event :=
| EvError (e : error) (proto : option Envelope)
| EvReceipt (proto : Envelope)
| EvMessage (source : string) (timestamp : Z) (message : DataMessage)
| EvSent (destination : string) (timestamp : Z) (message : DataMessage)
         (expirationStartTimestamp : option Z)
| EvRead (timestamp : Z) (read_timestamp : Z) (sender : string)
| EvContact (details : list byte)
| EvContactSync
| EvGroup (details : list byte)
| EvGroupSync.

(** What the receiver does at once. [Respond] is [request.respond],
    the [send] of the socket of the resource that got the request;
    [Connect] is what [connect] does to the receiver: it opens a socket
    and a resource for it and sets [this.pending = Promise.resolve()]. *)
Inductive effect :=
| Respond (request_id : Z) (status : Z) (message : string)
| DispatchEvent (ev : Event)
| QueueEnvelope (e : Envelope)
| StoragePut (key : string) (value : list string)
| Connect.

(** The collaborators' operations that return promises: the signaling
    key decryption, the session cipher, the protocol store, the relay
    server, the attachment decryption and the group store. *)
Inductive call : Type -> Type :=
| DecryptWebsocketMessage (body : option (list byte)) (signalingKey : list byte)
    : call (list byte)
| DecryptWhisperMessage (a : Address) (ciphertext : list byte)
    : call (list byte)
| DecryptPreKeyWhisperMessage (a : Address) (ciphertext : list byte)
    : call (list byte)
| GetDeviceIds (number : string) : call (list Z)
| CloseOpenSessionForDevice (a : Address) : call unit
| GetAttachment (id : Z) : call (list byte)
| DecryptAttachment (encrypted : list byte) (key : list byte)
    : call (list byte)
| GroupsGetNumbers (id : list byte) : call (option (list (option string)))
| GroupsCreateNewGroup (members : list (option string)) (id : list byte)
    : call unit
| GroupsUpdateNumbers (id : list byte) (members : list (option string))
    : call (list (option string))
| GroupsDeleteGroup (id : list byte) : call unit
| GroupsRemoveNumber (id : list byte) (number : option string) : call unit
| GetDevices (number : string) : call unit.

Definition proc : Type -> Type := Async.proc call effect error.

(** The request given to [handleRequest]. *)
Record Request := mkRequest {
  request_id : Z;
  request_body : option (list byte)
}.

(** [x | 0]: the signed 32-bit integer the bit operators produce. *)
Definition to_int32 (z : Z) : Z := (z + 2^31) mod 2^32 - 2^31.

(** [a & b] with [null] read as 0. *)
Definition js_and (a : option Z) (b : Z) : Z :=
  to_int32 (Z.land (to_int32 (default 0 a)) (to_int32 b)).

(** [this.unpad] as a continuation. *)
Definition unpad (paddedPlaintext : list byte) : proc (option (list byte)) :=
  match Padding.unpad paddedPlaintext with
  | Returned plaintext => Ret plaintext
  | Thrown message => Throw (Error message None)
  end.

Definition set_body_attachments (b : option string)
    (a : list AttachmentPointer) (d : DataMessage) : DataMessage :=
  mkDataMessage b a (group d) (flags d) (expireTimer d).

Definition set_group (g : option GroupContext) (d : DataMessage) : DataMessage :=
  mkDataMessage (body d) (attachments d) g (flags d) (expireTimer d).

(** [Promise.all(promises)] over promises that change one shared
    object (for [processDecrypted], the [decrypted] message): they are
    driven in the order in which they were pushed, a promise that
    rejects does not stop the others, and the first rejection is the
    outcome. *)
Fixpoint Promise_all {S : Type} (promises : list (S -> proc S))
    (shared : S) (rejected : option error) : proc S :=
  match promises with
  | [] =>
      match rejected with
      | Some e => Throw e
      | None => Ret shared
      end
  | p :: rest =>
      attempt (p shared)
        (fun r => match r with
                  | inr shared' => Promise_all rest shared' rejected
                  | inl e =>
                      Promise_all rest shared
                        (match rejected with
                         | Some _ => rejected
                         | None => Some e
                         end)
                  end)
  end.

(** *** Promises and the event loop: the state *)

(** A reaction registered by [then(onFulfilled, onRejected)]; the
    handlers of this receiver are [handleEnvelope] bound to an
    envelope. [derived] is the promise [then] returned. *)
Record reaction := mkReaction {
  onFulfilled : option Envelope;
  onRejected : option Envelope;
  derived : nat
}.

Inductive pstate :=
| Pending (reactions : list reaction)
| Fulfilled
| Rejected.

(** A microtask: the reaction of a settled promise. Without handler
    the outcome passes on to the derived promise. *)
Record job := mkJob {
  job_handler : option Envelope;
  job_outcome : bool;
  job_derived : nat
}.

(** For whom work is done: an inbound request, the envelope whose
    handler settles promise [d], or the connection (a call of
    [connect], the close event of the socket). *)
Inductive origin :=
| FromRequest (id : Z)
| FromEnvelope (d : nat)
| FromConnection.

(** Work that waits for a collaborator. [task_settles] is the promise
    the end of the work settles; forked work settles none. *)
Record task := mkTask {
  task_origin : origin;
  task_settles : option nat;
  task_body : proc unit
}.

Inductive obs :=
| Started (d : nat) (e : Envelope)     (* [handleEnvelope] is called *)
| Settled (d : nat) (ok : bool)        (* the promise it returned settles *)
| Performed (o : origin) (eff : effect).

Record receiver (W : Type) := mkReceiver {
  world : W;
  storage : gmap string (list string);
  promises : list pstate;       (* every promise of the queue, by number *)
  pending : nat;                (* [this.pending] *)
  jobs : list job;              (* the microtask queue *)
  tasks : list task;
  trace : list obs
}.

Arguments mkReceiver {W} _ _ _ _ _ _ _.
Arguments world {W} _.
Arguments storage {W} _.
Arguments promises {W} _.
Arguments pending {W} _.
Arguments jobs {W} _.
Arguments tasks {W} _.
Arguments trace {W} _.

Definition set_world {W} (v : W) (s : receiver W) : receiver W :=
  mkReceiver v (storage s) (promises s) (pending s) (jobs s) (tasks s) (trace s).
Definition set_storage {W} (v : gmap string (list string)) (s : receiver W) : receiver W :=
  mkReceiver (world s) v (promises s) (pending s) (jobs s) (tasks s) (trace s).
Definition set_promises {W} (v : list pstate) (s : receiver W) : receiver W :=
  mkReceiver (world s) (storage s) v (pending s) (jobs s) (tasks s) (trace s).
Definition set_pending {W} (v : nat) (s : receiver W) : receiver W :=
  mkReceiver (world s) (storage s) (promises s) v (jobs s) (tasks s) (trace s).
Definition set_jobs {W} (v : list job) (s : receiver W) : receiver W :=
  mkReceiver (world s) (storage s) (promises s) (pending s) v (tasks s) (trace s).
Definition set_tasks {W} (v : list task) (s : receiver W) : receiver W :=
  mkReceiver (world s) (storage s) (promises s) (pending s) (jobs s) v (trace s).
Definition log {W} (o : obs) (s : receiver W) : receiver W :=
  mkReceiver (world s) (storage s) (promises s) (pending s) (jobs s) (tasks s)
             (trace s ++ [o]).

(** The receiver after its first [connect]: promise 0 is
    [this.pending = Promise.resolve()]. *)
Definition connected {W} (w : W) : receiver W :=
  mkReceiver w ∅ [Fulfilled] 0 [] [] [].

Section WithCollaborators.

(** The receiver's own fields, set by its constructor. *)
Variable signalingKey : list byte.
Variable number : string.
Variable deviceId : Z.

(** [protobufs.DataMessage.Flags] *)
Variable END_SESSION : Z.
Variable EXPIRATION_TIMER_UPDATE : Z.

(** The decoders of the protocol buffers: each returns the message or
    throws. The plaintext [unpad] hands over may be [undefined]. *)
Variable Envelope_decode : list byte -> error + Envelope.
Variable Content_decode : option (list byte) -> error + Content.
Variable DataMessage_decode : option (list byte) -> error + DataMessage.

(** [libsignal.SignalProtocolAddress.fromString] and [toString] *)
Variable Address_fromString : string -> error + Address.
Variable Address_toString : Address -> string.

(** [finalMessage.sync !== null] in [tryMessageAgain]: the data
    message has no such field in this source, what the decoder leaves
    there is not known. *)
Variable sync_not_null : DataMessage -> bool.

(** [handleContacts] and [handleGroups] read the blobs through
    [ContactBuffer] and [GroupBuffer], which the source does not
    define. *)
Variable handleContacts : AttachmentPointer -> proc unit.
Variable handleGroups : AttachmentPointer -> proc unit.

(** [isBlocked]: [return false; // XXX], the lookup in the stored
    list is commented out. *)
Definition isBlocked (number : string) : bool := false.

(** [handleBlocked] *)
Definition handleBlocked (blocked_numbers : list string) : proc unit :=
  perform (StoragePut "blocked" blocked_numbers).

(** [connect]: closing the old socket, opening the new one or making
    its resource may throw; [this.pending = Promise.resolve()] is the
    last statement. *)
Definition connect : proc unit := invoke Connect.

(** [onclose]: after a close with another code than 3000 and a
    successful [getDevices] the receiver connects again (what
    [getDevices] resolves with is not used); a failure of [getDevices]
    or of [connect] is dispatched as an [error] event. *)
Definition onclose (code : Z) : proc unit :=
  if code =? 3000 then Ret tt
  else
    catch
      (await (GetDevices number) ;;
       connect)
      (fun e => perform (DispatchEvent (EvError e None))).

(** [handleRequest]: [request.respond] throws when the socket of the
    request's resource is [null] or not open. *)
Definition handleRequest (request : Request) : proc unit :=
  catch
    (plaintext <- await (DecryptWebsocketMessage (request_body request) signalingKey) ;;
     envelope <- lift (Envelope_decode plaintext) ;;
     invoke (Respond (request_id request) 200 "OK") ;;
     if negb (isBlocked (source envelope))
     then perform (QueueEnvelope envelope)
     else Ret tt)
    (fun e =>
       invoke (Respond (request_id request) 500 "Bad encrypted websocket message") ;;
       perform (DispatchEvent (EvError e None))).

(** [onDeliveryReceipt] *)
Definition onDeliveryReceipt (envelope : Envelope) : proc unit :=
  perform (DispatchEvent (EvReceipt envelope)).

(** [decryptPreKeyWhisperMessage] *)
Definition decryptPreKeyWhisperMessage (ciphertext : list byte)
    (address : Address) : proc (option (list byte)) :=
  catch
    (padded <- await (DecryptPreKeyWhisperMessage address ciphertext) ;;
     unpad padded)
    (fun e =>
       match e with
       | Error message identityKey =>
           if String.eqb message "Unknown identity key"
           then Throw (IncomingIdentityKeyError (Address_toString address)
                         ciphertext identityKey)
           else Throw e
       | _ => Throw e
       end).

(** [decrypt] *)
Definition decrypt (envelope : Envelope) (ciphertext : list byte)
  : proc (option (list byte)) :=
  let address := mkAddress (source envelope) (sourceDevice envelope) in
  let promise :=
    match env_type envelope with
    | CIPHERTEXT =>
        padded <- await (DecryptWhisperMessage address ciphertext) ;;
        unpad padded
    | PREKEY_BUNDLE => decryptPreKeyWhisperMessage ciphertext address
    | _ => Throw (Error "Unknown message type" None)
    end in
  catch promise
    (fun error =>
       perform (DispatchEvent (EvError error (Some envelope))) ;;
       Throw error).

(** [handleEndSession] *)
Definition handleEndSession (number : string) : proc unit :=
  deviceIds <- await (GetDeviceIds number) ;;
  Promise_all
    (map (fun deviceId (_ : unit) =>
            await (CloseOpenSessionForDevice (mkAddress number deviceId)))
         deviceIds)
    tt None.

(** [handleAttachment]: the pointer with its [data] filled in. *)
Definition handleAttachment (attachment : AttachmentPointer)
  : proc AttachmentPointer :=
  encrypted <- await (GetAttachment (att_id attachment)) ;;
  data <- await (DecryptAttachment encrypted (att_key attachment)) ;;
  Ret (mkAttachment (att_id attachment) (att_key attachment) (Some data)).

Definition is_UPDATE (t : GroupType) : bool :=
  match t with
  | UPDATE => true
  | _ => false
  end.

(** The promise pushed for [decrypted.group.avatar]. *)
Definition avatar_promise (avatar : AttachmentPointer)
    (decrypted : DataMessage) : proc DataMessage :=
  avatar' <- handleAttachment avatar ;;
  Ret (match group decrypted with
       | Some g =>
           match group_avatar g with
           | Some _ =>
               set_group (Some (mkGroup (group_id g) (group_type g) (group_name g)
                                  (Some avatar') (group_members g) (group_added g)))
                         decrypted
           | None => decrypted
           end
       | None => decrypted
       end).

(** The promise pushed for [decrypted.attachments[i]]: the pointer
    changes where it is; the list may meanwhile have been replaced by
    the empty one. *)
Definition attachment_promise (i : nat) (attachment : AttachmentPointer)
    (decrypted : DataMessage) : proc DataMessage :=
  attachment' <- handleAttachment attachment ;;
  Ret (set_body_attachments (body decrypted)
         (<[i := attachment']> (attachments decrypted)) decrypted).

(** The promise [storage.groups.getNumbers(...).then(...)] of
    [processDecrypted]. *)
Definition group_promise (from : option string) (decrypted : DataMessage)
  : proc DataMessage :=
  match group decrypted with
  | None => Throw (Error "TypeError: Cannot read property 'id' of null" None)
  | Some g =>
      existingGroup <- await (GroupsGetNumbers (group_id g)) ;;
      match existingGroup with
      | None =>
          let g' := if negb (is_UPDATE (group_type g))
                    then mkGroup (group_id g) (group_type g) (group_name g)
                           (group_avatar g) [from] (group_added g)
                    else g in
          await (GroupsCreateNewGroup (group_members g') (group_id g')) ;;
          Ret (set_group (Some g') decrypted)
      | Some existing =>
          match group_type g with
          | UPDATE =>
              added <- await (GroupsUpdateNumbers (group_id g) (group_members g)) ;;
              let g' := mkGroup (group_id g) (group_type g) (group_name g)
                          (group_avatar g) (group_members g) added in
              let decrypted' := set_group (Some g') decrypted in
              match group_avatar g', added, group_name g' with
              | None, [], None => Ret decrypted'
              | _, _, _ => Ret (set_body_attachments None [] decrypted')
              end
          | QUIT =>
              let decrypted' := set_body_attachments None [] decrypted in
              (if decide (from = Some number)
               then await (GroupsDeleteGroup (group_id g))
               else await (GroupsRemoveNumber (group_id g) from)) ;;
              Ret decrypted'
          | DELIVER =>
              Ret (set_group (Some (mkGroup (group_id g) (group_type g) None None
                                      [] (group_added g)))
                             decrypted)
          | OtherGroupType _ => Throw (Error "Unknown group message type" None)
          end
      end
  end.

(** [processDecrypted] *)
Definition processDecrypted (decrypted : DataMessage) (from : option string)
  : proc DataMessage :=
  let decrypted :=
    mkDataMessage (body decrypted) (attachments decrypted) (group decrypted)
      (Some (default 0 (flags decrypted)))
      (Some (default 0 (expireTimer decrypted))) in
  if negb (js_and (flags decrypted) END_SESSION =? 0)
  then Ret (set_group None (set_body_attachments None [] decrypted))
  else
    decrypted <-
      (if negb (js_and (flags decrypted) EXPIRATION_TIMER_UPDATE =? 0)
       then Ret (set_body_attachments None [] decrypted)
       else if negb (default 0 (flags decrypted) =? 0)
            then Throw (Error "Unknown flags in message" None)
            else Ret decrypted) ;;
    let for_group :=
      match group decrypted with
      | Some g =>
          (if is_UPDATE (group_type g)
           then match group_avatar g with
                | Some avatar => [avatar_promise avatar]
                | None => []
                end
           else [])
          ++ [group_promise from]
      | None => []
      end in
    Promise_all (for_group ++ imap attachment_promise (attachments decrypted))
                decrypted None.

(** [handleDataMessage] *)
Definition handleDataMessage (envelope : Envelope) (message : DataMessage)
  : proc unit :=
  (if js_and (flags message) END_SESSION =? END_SESSION
   then handleEndSession (source envelope)
   else Ret tt) ;;
  message <- processDecrypted message (Some (source envelope)) ;;
  perform (DispatchEvent
             (EvMessage (source envelope) (Ids.toNumber (env_timestamp envelope))
                        message)).

(** [handleSentMessage] *)
Definition handleSentMessage (destination : string) (timestamp : Z)
    (message : DataMessage) (expirationStartTimestamp : option Z) : proc unit :=
  (if js_and (flags message) END_SESSION =? END_SESSION
   then handleEndSession destination
   else Ret tt) ;;
  message <- processDecrypted message (Some number) ;;
  perform (DispatchEvent
             (EvSent destination (Ids.toNumber timestamp) message
                     (Ids.toNumber <$> expirationStartTimestamp))).

(** [handleRead] *)
Definition handleRead (read : list ReadEntry) (timestamp : Z) : proc unit :=
  fold_right
    (fun r k =>
       perform (DispatchEvent
                  (EvRead (Ids.toNumber timestamp)
                          (Ids.toNumber (read_timestamp r)) (read_sender r))) ;;
       k)
    (Ret tt) read.

(** [handleSyncMessage] *)
Definition handleSyncMessage (envelope : Envelope) (syncMessage : SyncMessage)
  : proc unit :=
  if negb (String.eqb (source envelope) number)
  then Throw (Error "Received sync message from another number" None)
  else if sourceDevice envelope =? deviceId
  then Throw (Error "Received sync message from our own device" None)
  else
    match sync_sent syncMessage with
    | Some sentMessage =>
        handleSentMessage (sent_destination sentMessage)
          (sent_timestamp sentMessage) (sent_message sentMessage)
          (sent_expirationStartTimestamp sentMessage)
    | None =>
    match sync_contacts syncMessage with
    | Some blob => Fork (handleContacts blob) (Ret tt)
    | None =>
    match sync_groups syncMessage with
    | Some blob => Fork (handleGroups blob) (Ret tt)
    | None =>
    match sync_blocked syncMessage with
    | Some numbers => handleBlocked numbers
    | None =>
    if sync_request syncMessage then Ret tt
    else
    match sync_read syncMessage with
    | Some read => handleRead read (env_timestamp envelope)
    | None => Throw (Error "Got empty SyncMessage" None)
    end end end end end.

(** [handleLegacyMessage] *)
Definition handleLegacyMessage (envelope : Envelope) (ciphertext : list byte)
  : proc unit :=
  plaintext <- decrypt envelope ciphertext ;;
  message <- lift (DataMessage_decode plaintext) ;;
  handleDataMessage envelope message.

(** [handleContentMessage] *)
Definition handleContentMessage (envelope : Envelope) (ciphertext : list byte)
  : proc unit :=
  plaintext <- decrypt envelope ciphertext ;;
  content <- lift (Content_decode plaintext) ;;
  match syncMessage content with
  | Some sync => handleSyncMessage envelope sync
  | None =>
      match dataMessage content with
      | Some data => handleDataMessage envelope data
      | None =>
          Throw (Error "Got Content message with no dataMessage and no syncMessage" None)
      end
  end.

(** [handleEnvelope] *)
Definition handleEnvelope (envelope : Envelope) : proc unit :=
  match env_type envelope with
  | RECEIPT => onDeliveryReceipt envelope
  | _ =>
      match content envelope with
      | Some ciphertext => handleContentMessage envelope ciphertext
      | None =>
          match legacyMessage envelope with
          | Some ciphertext => handleLegacyMessage envelope ciphertext
          | None =>
              Throw (Error "Received message with no content and no legacyMessage" None)
          end
      end
  end.

(** [tryMessageAgain] *)
Definition tryMessageAgain (from : string) (ciphertext : list byte)
  : proc DataMessage :=
  address <- lift (Address_fromString from) ;;
  plaintext <- decryptPreKeyWhisperMessage ciphertext address ;;
  finalMessage <- lift (DataMessage_decode plaintext) ;;
  (if (js_and (flags finalMessage) END_SESSION =? END_SESSION)
      && sync_not_null finalMessage
   then handleEndSession (addr_name address)
   else Ret tt) ;;
  processDecrypted finalMessage None.

(** *** Promises and the event loop *)

(** The collaborators: their state, and how each operation is
    answered when its promise settles. The sockets are part of that
    state: [throws] says what a call that may throw throws in a state,
    if anything: [request.respond] on a socket that is [null] or not
    open, [connect] when the socket cannot be made. *)
Context {W : Type}.
Variable answer : forall X, call X -> W -> (error + X) * W.
Variable throws : effect -> W -> option error.

(** Promise [d] settles: its reactions become microtasks. *)
Definition settle (d : nat) (ok : bool) (s : receiver W) : receiver W :=
  match promises s !! d with
  | Some (Pending reactions) =>
      log (Settled d ok)
        (set_jobs
           (jobs s ++ map (fun r => mkJob (if ok then onFulfilled r else onRejected r)
                                          ok (derived r)) reactions)
           (set_promises (<[d := if ok then Fulfilled else Rejected]> (promises s)) s))
  | _ => s
  end.

(** [p.then(onFulfilled, onRejected)]: the new promise is the next
    number. *)
Definition then_ (p : nat) (onFul onRej : option Envelope) (s : receiver W)
  : receiver W * nat :=
  let d := length (promises s) in
  let s' := set_promises (promises s ++ [Pending []]) s in
  (match promises s !! p with
   | Some (Pending reactions) =>
       set_promises (<[p := Pending (reactions ++ [mkReaction onFul onRej d])]>
                       (promises s')) s'
   | Some Fulfilled => set_jobs (jobs s' ++ [mkJob onFul true d]) s'
   | Some Rejected => set_jobs (jobs s' ++ [mkJob onRej false d]) s'
   | None => s'
   end, d).

(** [queueEnvelope]:
    [this.pending = this.pending.then(handleEnvelope, handleEnvelope)]
    with [handleEnvelope] bound to the envelope. *)
Definition queueEnvelope (envelope : Envelope) (s : receiver W) : receiver W :=
  let (s', d) := then_ (pending s) (Some envelope) (Some envelope) s in
  set_pending d s'.

Definition do_effect (o : origin) (eff : effect) (s : receiver W) : receiver W :=
  let s := log (Performed o eff) s in
  match eff with
  | QueueEnvelope envelope => queueEnvelope envelope s
  | StoragePut key value => set_storage (<[key := value]> (storage s)) s
  | Connect =>
      set_pending (length (promises s)) (set_promises (promises s ++ [Fulfilled]) s)
  | Respond _ _ _ | DispatchEvent _ => s
  end.

Definition finish (settles : option nat) (ok : bool) (s : receiver W) : receiver W :=
  match settles with
  | Some d => settle d ok s
  | None => s
  end.

(** Work runs until it ends or has to wait for a collaborator. *)
Fixpoint run_proc (o : origin) (settles : option nat)
    (p : Async.proc call effect error unit) (s : receiver W) : receiver W :=
  match p with
  | Ret _ => finish settles true s
  | Throw _ => finish settles false s
  | Do eff k => run_proc o settles k (do_effect o eff s)
  | Try eff k =>
      match throws eff (world s) with
      | Some e => run_proc o settles (k (inl e)) s
      | None => run_proc o settles (k (inr tt)) (do_effect o eff s)
      end
  | Call c k => set_tasks (tasks s ++ [mkTask o settles (Call c k)]) s
  | Fork child k => run_proc o settles k (run_proc o None child s)
  end.

(** The next microtask runs. *)
Definition run_job (s : receiver W) : receiver W :=
  match jobs s with
  | [] => s
  | j :: rest =>
      let s := set_jobs rest s in
      match job_handler j with
      | Some envelope =>
          run_proc (FromEnvelope (job_derived j)) (Some (job_derived j))
                   (handleEnvelope envelope)
                   (log (Started (job_derived j) envelope) s)
      | None => settle (job_derived j) (job_outcome j) s
      end
  end.

(** The collaborator that task [i] waits for answers. *)
Definition resume (i : nat) (s : receiver W) : receiver W :=
  match tasks s !! i with
  | Some t =>
      match task_body t with
      | Call c k =>
          let (r, w) := answer _ c (world s) in
          run_proc (task_origin t) (task_settles t) (k r)
                   (set_world w (set_tasks (delete i (tasks s)) s))
      | _ => s
      end
  | None => s
  end.

(** What the event loop does next. *)
Inductive action :=
| Inbound (request : Request)   (* the transport calls [handleRequest] *)
| RunJob
| Resume (i : nat)
| CallConnect                   (* the consumer calls [connect] *)
| SocketCloses (code : Z).      (* the socket's close event: [onclose] *)

Definition exec (s : receiver W) (a : action) : receiver W :=
  match a with
  | Inbound request =>
      run_proc (FromRequest (request_id request)) None (handleRequest request) s
  | RunJob => run_job s
  | Resume i => resume i s
  | CallConnect => run_proc FromConnection None connect s
  | SocketCloses code => run_proc FromConnection None (onclose code) s
  end.

Definition run (actions : list action) (s : receiver W) : receiver W :=
  fold_left exec actions s.

End WithCollaborators.

(** *** What is said about traces *)

Section Traces.
Local Open Scope nat_scope.
Context {W : Type}.

Definition started (d : nat) (tr : list obs) : Prop :=
  exists e, In (Started d e) tr.

Definition settled (d : nat) (tr : list obs) : Prop :=
  exists ok, In (Settled d ok) tr.

(** The promises of the queue in the order in which they were made,
    promise 0 apart: one by every [queueEnvelope], for the handler of
    its envelope, and one by every [connect], the [Promise.resolve()]
    it sets. Promise [d] is entry [d - 1]. *)
Definition created (tr : list obs) : list (option Envelope) :=
  omap (fun o => match o with
                 | Performed _ (QueueEnvelope e) => Some (Some e)
                 | Performed _ Connect => Some None
                 | _ => None
                 end) tr.

(** Promise [d] is the [Promise.resolve()] of a [connect]. *)
Definition root (d : nat) (tr : list obs) : Prop :=
  d = 0 \/ created tr !! (d - 1) = Some None.

(** An observation is in order after what was seen before it: the
    handler of promise [d] starts when the promise before it has
    settled, or when that promise is the [Promise.resolve()] of a
    [connect] (the envelope is the first one queued on its
    connection); and what is done for an envelope is done after its
    handler started. *)
Definition in_order (seen : list obs) (o : obs) : Prop :=
  match o with
  | Started d _ => root (d - 1) seen \/ settled (d - 1) seen
  | Performed (FromEnvelope d) _ => started d seen
  | _ => True
  end.

Definition serial (tr : list obs) : Prop :=
  forall seen o rest, tr = seen ++ o :: rest -> in_order seen o.


(** How often the handler of promise [d] was started. *)
Definition starts (d : nat) (tr : list obs) : nat :=
  length (List.filter (fun o => match o with
                                | Started d' _ => Nat.eqb d' d
                                | _ => false
                                end) tr).

Definition is_settled (p : option pstate) : Prop :=
  p = Some Fulfilled \/ p = Some Rejected.

(** The shape of the queue. [this.pending] is the promise made last.
    A pending promise carries the reaction that [queueEnvelope]
    registered for the next promise, if the next is a handler's, and
    that handler is not under way. A settled promise is a
    [Promise.resolve()] or was settled by its handler. A microtask is
    the start of a handler that has not started and whose predecessor
    is settled. A handler whose envelope was queued waits for its
    predecessor, is a microtask, or has started, and none has started
    twice. *)
Record Inv (s : receiver W) : Prop := mkInv {
  inv_pending :
    1 <= length (promises s) /\ pending s = length (promises s) - 1;
  inv_created : length (created (trace s)) = length (promises s) - 1;
  inv_chain : forall d rs, promises s !! d = Some (Pending rs) ->
    rs = match created (trace s) !! d with
         | Some (Some e) => [mkReaction (Some e) (Some e) (S d)]
         | _ => []
         end
    /\ ~ started (S d) (trace s)
    /\ ~ In (S d) (map job_derived (jobs s));
  inv_resolved : forall d, is_settled (promises s !! d) ->
    root d (trace s) \/ settled d (trace s);
  inv_jobs : forall j, In j (jobs s) ->
    exists e,
      job_handler j = Some e
      /\ 1 <= job_derived j
      /\ created (trace s) !! (job_derived j - 1) = Some (Some e)
      /\ ~ started (job_derived j) (trace s)
      /\ (root (job_derived j - 1) (trace s)
          \/ settled (job_derived j - 1) (trace s));
  inv_jobs_NoDup : NoDup (map job_derived (jobs s));
  inv_started : forall d e, In (Started d e) (trace s) ->
    1 <= d /\ created (trace s) !! (d - 1) = Some (Some e);
  inv_settled : forall d ok, In (Settled d ok) (trace s) ->
    is_settled (promises s !! d);
  inv_once : forall d, starts d (trace s) <= 1;
  inv_progress : forall d e, created (trace s) !! d = Some (Some e) ->
    (exists rs, promises s !! d = Some (Pending rs))
    \/ (exists ok, In (mkJob (Some e) ok (S d)) (jobs s))
    \/ In (Started (S d) e) (trace s);
  inv_tasks : forall t d, In t (tasks s) ->
    task_origin t = FromEnvelope d -> started d (trace s);
  inv_serial : serial (trace s)
}.

Definition extends (s s' : receiver W) : Prop :=
  exists more, trace s' = trace s ++ more.

End Traces.



End Receiver.

(* ===================================================================== *)
(** ** A small world to run the receiver in *)
(* ===================================================================== *)

Module Scenario.
Import Receiver.

Definition alice : string := "+15551234567".

(** The first byte of the plaintext chooses the envelope, the rest is
    its ciphertext. *)
Definition Envelope_decode (plaintext : list byte) : error + Envelope :=
  match plaintext with
  | x01 :: ciphertext =>
      inr (mkEnvelope CIPHERTEXT alice 1 1000 None (Some ciphertext))
  | x03 :: ciphertext =>
      inr (mkEnvelope PREKEY_BUNDLE alice 1 1000 None (Some ciphertext))
  | x05 :: _ => inr (mkEnvelope RECEIPT alice 1 1000 None None)
  | x07 :: _ => inr (mkEnvelope CIPHERTEXT alice 1 1000 None None)
  | _ => inl (Error "illegal buffer" None)
  end.

(** A data message is its body as text, with nothing else set. *)
Definition DataMessage_decode (plaintext : option (list byte))
  : error + DataMessage :=
  match plaintext with
  | Some bytes =>
      inr (mkDataMessage (Some (string_of_list_byte bytes)) [] None None None)
  | None => inl (Error "illegal buffer" None)
  end.

Definition Content_decode (plaintext : option (list byte)) : error + Content :=
  match DataMessage_decode plaintext with
  | inr message => inr (mkContent (Some message) None)
  | inl e => inl e
  end.

Definition Address_fromString (s : string) : error + Address :=
  inr (mkAddress s 1).

Definition Address_toString (a : Address) : string :=
  (addr_name a ++ ".1")%string.

(** Collaborators without state: the signaling key decryption fails on
    a missing body and is the identity otherwise, the session cipher is
    the identity, no group is known. *)
Definition answer (X : Type) (c : call X) (w : unit) : (error + X) * unit :=
  match c in call X return (error + X) * unit with
  | DecryptWebsocketMessage (Some body) _ => (inr body, tt)
  | DecryptWebsocketMessage None _ => (inl (Error "Bad MAC" None), tt)
  | DecryptWhisperMessage _ ciphertext => (inr ciphertext, tt)
  | DecryptPreKeyWhisperMessage _ ciphertext => (inr ciphertext, tt)
  | GetDeviceIds _ => (inr [1], tt)
  | CloseOpenSessionForDevice _ => (inr tt, tt)
  | GetAttachment _ => (inr [], tt)
  | DecryptAttachment encrypted _ => (inr encrypted, tt)
  | GroupsGetNumbers _ => (inr None, tt)
  | GroupsCreateNewGroup _ _ => (inr tt, tt)
  | GroupsUpdateNumbers _ _ => (inr [], tt)
  | GroupsDeleteGroup _ => (inr tt, tt)
  | GroupsRemoveNumber _ _ => (inr tt, tt)
  | GetDevices _ => (inr tt, tt)
  end.

(** Every socket is open and [connect] succeeds: no call throws. *)
Definition open_socket (eff : effect) (w : unit) : option error := None.

(** The sockets are closed: [request.respond] throws. *)
Definition closed_socket (eff : effect) (w : unit) : option error :=
  match eff with
  | Respond _ _ _ => Some (Error "not opened" None)
  | _ => None
  end.

Definition no_blob (_ : AttachmentPointer) : proc unit := Async.Ret tt.

Definition handleRequest : Request -> proc unit :=
  Receiver.handleRequest [] Envelope_decode.

Definition handleEnvelope : Envelope -> proc unit :=
  Receiver.handleEnvelope alice 2 1 2 Content_decode DataMessage_decode
                          Address_toString no_blob no_blob.

Definition tryMessageAgain : string -> list byte -> proc DataMessage :=
  Receiver.tryMessageAgain alice 1 2 DataMessage_decode Address_fromString
                           Address_toString (fun _ => true).

Definition exec : receiver unit -> action -> receiver unit :=
  Receiver.exec [] alice 2 1 2 Envelope_decode Content_decode DataMessage_decode
                Address_toString no_blob no_blob answer open_socket.

Definition run (actions : list action) (s : receiver unit) : receiver unit :=
  fold_left exec actions s.


(** A receiver whose stored list of blocked numbers holds [alice]. *)
Definition blocked_receiver : receiver unit :=
  set_storage {[ "blocked"%string := [alice] ]} (connected tt).

(** "hello" with its padding. *)
Definition hello_padded : list byte :=
  list_byte_of_string "hello" ++ [x80; x00; x00].

(** A request whose body decrypts to an envelope of [alice] with the
    padded "hello" as content. *)
Definition hello_request : Request :=
  mkRequest 11 (Some (x01 :: hello_padded)).

Definition hello_envelope : Envelope :=
  mkEnvelope CIPHERTEXT alice 1 1000 None (Some hello_padded).

Definition receipt_envelope : Envelope :=
  mkEnvelope RECEIPT alice 1 1000 None None.

(** The handler of a first envelope waits for the session cipher when
    the socket closes and the receiver connects again; then a receipt
    arrives on the new connection and its handler runs; the first
    handler goes on after that. *)
Definition reconnect_in_between : list action :=
  [Inbound hello_request; Resume 0; RunJob;
   SocketCloses 1006; Resume 1;
   Inbound (mkRequest 12 (Some [x05])); Resume 1; RunJob;
   Resume 0].

End Scenario.

(* ===================================================================== *)
(** ** Correlation of responses, for the statements below *)
(* ===================================================================== *)

Module Correlation.
Import Transport.

(** [response.status >= 200 && response.status < 300] *)
Definition is_2xx (status : Z) : bool := (200 <=? status) && (status <? 300).

(** The function [onMessage] picks from a request for a status. *)
Definition chosen (r : Request) (status : Z) : option callback :=
  if is_2xx status then success r else error r.

(** What calling the picked function shows outside: a function of the
    consumer is recorded, the keep-alive's reset and a missing function
    leave no record. *)
Definition invocation (cb : option callback) (message : option string)
    (status id : Z) : list output :=
  match cb with
  | Some (Consumer tag) => [Invoked tag message status id]
  | _ => []
  end.

(** The ping timer and the disconnect timer are not armed together. *)
Definition timers_ok (s : wsr) : Prop :=
  keepAliveTimer s = None \/ disconnectTimer s = None.

(** A change of the resource that leaves both timers as they are. *)
Definition same_timers (s s' : wsr) : Prop :=
  keepAliveTimer s' = keepAliveTimer s /\ disconnectTimer s' = disconnectTimer s.

(** What the listeners may do to the timers: nothing, or leave the
    resource without disconnect timer. *)
Definition undisturbed (s s' : wsr) : Prop :=
  same_timers s s' \/ disconnectTimer s' = None.

Definition untouched {A : Type} (m : M A) : Prop :=
  forall s, same_timers s (m s).2.

Definition calm {A : Type} (m : M A) : Prop :=
  forall s, undisturbed s (m s).2.

(** The keep-alive of an open resource just after a reset. *)
Definition just_reset (ka : KeepAlive) (s : wsr) : Prop :=
  keepalive s = Some ka /\ socket s = Some OPEN
  /\ keepAliveTimer s = Some (now s + 50000) /\ disconnectTimer s = None.

(** The answers a handler gives to a request, as frames. *)
Definition responses (handleRequest : option (Request -> list (Z * string)))
    (r : Request) : list output :=
  match handleRequest with
  | Some h => map (fun a : Z * string => Sent (RESPONSE (id r) a.1 (Some a.2))) (h r)
  | None => [Sent (RESPONSE (id r) 404 (Some "Not found"))]
  end.

Definition is_Sent_request (o : output) : bool :=
  match o with
  | Sent (REQUEST _ _ _ _) => true
  | _ => false
  end.

(** [n] periods of fifty seconds of silence, each ended by the ping
    timer. *)
Definition silence (n : nat) : list input :=
  concat (replicate n [Wait 50000; TimerFires]).

(** A request whose id is the first integer that a double cannot tell
    from its successor. *)
Definition large_id_options : options :=
  mkOptions (Some "PUT") None (Some "/v1/messages") None None None
            (Some (Consumer 0)) (Some (Consumer 1)) (Some (2^53)).

(** A second request with the id 42 of the example request. *)
Definition second_options : options :=
  mkOptions (Some "GET") None (Some "/v1/devices") None None None
            (Some (Consumer 2)) (Some (Consumer 3)) (Some 42).

(** An open resource like the example whose keep-alive does not
    disconnect. *)
Definition patient_resource : wsr :=
  mkWsr (Some OPEN) ∅ standard_listeners
        (Some (mkKeepAlive "/v1/keepalive" false)) (Some 50000) None 0
        (fun _ => x07) 0 [].

End Correlation.

(* ===================================================================== *)
(** ** Outcomes of the receiver's computations, for the statements below *)
(* ===================================================================== *)

Module Outcomes.
Import Receiver.

(** The computation does nothing at once: it only waits for
    collaborators and then fulfils or rejects. *)
Fixpoint effect_free {A : Type} (p : proc A) : Prop :=
  match p with
  | Async.Ret _ | Async.Throw _ => True
  | Async.Do _ _ => False
  | Async.Try _ _ => False
  | Async.Call c k => forall r, effect_free (k r)
  | Async.Fork _ _ => False
  end.

(** Every value the promise can be fulfilled with has the property. *)
Fixpoint fulfils {A : Type} (P : A -> Prop) (p : proc A) : Prop :=
  match p with
  | Async.Ret a => P a
  | Async.Throw _ => True
  | Async.Do _ k => fulfils P k
  | Async.Try _ k => forall r, fulfils P (k r)
  | Async.Call c k => forall r, fulfils P (k r)
  | Async.Fork _ k => fulfils P k
  end.

(** No effect of a kind is performed, by the computation or by what it
    forks. *)
Fixpoint never {A : Type} (bad : effect -> Prop) (p : proc A) : Prop :=
  match p with
  | Async.Ret _ | Async.Throw _ => True
  | Async.Do eff k => ~ bad eff /\ never bad k
  | Async.Try eff k => ~ bad eff /\ forall r, never bad (k r)
  | Async.Call c k => forall r, never bad (k r)
  | Async.Fork child k => never bad child /\ never bad k
  end.

Definition is_StoragePut (eff : effect) : Prop :=
  match eff with
  | StoragePut _ _ => True
  | _ => False
  end.

(** The event [handleRead] dispatches for an entry. *)
Definition read_event (timestamp : Z) (r : ReadEntry) : effect :=
  DispatchEvent (EvRead (Ids.toNumber timestamp)
                        (Ids.toNumber (read_timestamp r)) (read_sender r)).

End Outcomes.

(* ===================================================================== *)
(** ** More of the small world: a sender whose identity key changed,
    messages with attachments and flags *)
(* ===================================================================== *)

Module Examples.
Import Receiver.

(** A session cipher that does not know the sender's identity key. *)
Definition untrusting (X : Type) (c : call X) (w : unit) : (error + X) * unit :=
  match c in call X return (error + X) * unit with
  | DecryptPreKeyWhisperMessage _ _ =>
      (inl (Error "Unknown identity key" (Some [x05; x2a])), tt)
  | c => Scenario.answer _ c w
  end.

Definition prekey_envelope : Envelope :=
  mkEnvelope PREKEY_BUNDLE Scenario.alice 1 1000 None (Some Scenario.hello_padded).

Definition hello : DataMessage :=
  mkDataMessage (Some "hello"%string) [] None None None.

Definition two_attachments : DataMessage :=
  mkDataMessage (Some "see"%string)
    [mkAttachment 7 [x01] None; mkAttachment 8 [x02] None] None None None.

(** A message whose flags are neither of the two the code knows (1
    and 2 in this world). *)
Definition strange_flags : DataMessage :=
  mkDataMessage (Some "hello"%string) [] None (Some 4) None.

Definition timer_update : DataMessage :=
  mkDataMessage (Some "hello"%string) [mkAttachment 7 [x01] None] None
                (Some 2) (Some 60).

Definition two_reads : list ReadEntry :=
  [mkRead 1000 Scenario.alice; mkRead 2000 "+15557654321"].

(** A sync message that carries a list of blocked numbers, in an
    envelope from another number. *)
Definition Content_decode_blocked (_ : option (list byte)) : error + Content :=
  inr (mkContent None
         (Some (mkSync None None None (Some [Scenario.alice]) false None))).

(** What the user's other device reports to have sent. *)
Definition sent_to_bob : SentMessage :=
  mkSent "+15557654321" 3000 hello (Some 4000).

Definition sent_hello : SyncMessage :=
  mkSync (Some sent_to_bob) None None None false None.

End Examples.

(* ===================================================================== *)
(** * Properties *)
(* ===================================================================== *)

Section PaddingFacts.
Import Padding.

(** Trailing zero bytes are skipped by the loop. *)
Lemma unpad_from_skip_zeros (p : list byte) (b : byte) (k j : nat) :
  (j <= k)%nat ->
  unpad_from (p ++ b :: replicate k x00) (length p + 1 + j)
  = unpad_from (p ++ b :: replicate k x00) (length p + 1).
Proof.
  induction j as [|j IH]; intros Hj.
  - by rewrite Nat.add_0_r.
  - replace (length p + 1 + S j)%nat with (S (length p + 1 + j)) by lia.
    cbn [unpad_from].
    rewrite lookup_app_r by lia.
    replace (length p + 1 + j - length p)%nat with (S j) by lia.
    rewrite lookup_cons_ne_0 by lia. cbn [Init.Nat.pred].
    rewrite lookup_replicate_2 by lia.
    cbn. apply IH. lia.
Qed.

(** The byte in front of the trailing zeros decides. *)
Lemma unpad_from_sentinel (p : list byte) (b : byte) (zs : list byte) :
  unpad_from (p ++ b :: zs) (length p + 1)
  = if Byte.eqb b x80 then Returned (Some p)
    else if negb (Byte.eqb b x00) then Thrown "Invalid padding"
    else unpad_from (p ++ b :: zs) (length p).
Proof.
  replace (length p + 1)%nat with (S (length p)) by lia.
  cbn [unpad_from].
  rewrite lookup_app_r by lia.
  rewrite Nat.sub_diag. cbn [lookup list_lookup].
  by rewrite take_app_length.
Qed.

(** The part of the scan that does reject: a first non-zero byte from
    the tail other than 0x80 throws. *)
Lemma unpad_bad_sentinel (p : list byte) (b : byte) (k : nat) :
  b <> x80 -> b <> x00 ->
  unpad (p ++ b :: replicate k x00) = Thrown "Invalid padding".
Proof.
  intros H80 H00. unfold unpad.
  rewrite length_app. cbn [length]. rewrite length_replicate.
  replace (length p + S k)%nat with (length p + 1 + k)%nat by lia.
  rewrite unpad_from_skip_zeros by lia.
  rewrite unpad_from_sentinel.
  destruct (Byte.eqb b x80) eqn:E1.
  - apply Byte.byte_dec_bl in E1. congruence.
  - destruct (Byte.eqb b x00) eqn:E2; [|done].
    apply Byte.byte_dec_bl in E2. congruence.
Qed.

(** C3: on an input without any 0x80 sentinel that consists of zero
    bytes only (the empty input included), the scan runs off the front
    of the buffer and [unpad] returns [undefined]; it does not fail
    with the invalid padding error. *)
Theorem unpad_all_zero_returns_undefined (k : nat) :
  unpad (replicate k x00) = Returned None.
Proof.
  unfold unpad. rewrite length_replicate.
  assert (H : forall j, (j <= k)%nat ->
              unpad_from (replicate k x00) j = Returned None).
  { induction j as [|j IH]; intros Hj; [done|].
    cbn [unpad_from]. rewrite lookup_replicate_2 by lia.
    cbn. apply IH. lia. }
  by apply H.
Qed.

(** C4: unpadding is a right inverse of padding. *)
Theorem unpad_pad (plaintext : list byte) (k : nat) :
  unpad (pad plaintext k) = Returned (Some plaintext).
Proof.
  unfold unpad, pad.
  rewrite length_app. cbn [length]. rewrite length_replicate.
  replace (length plaintext + S k)%nat
    with (length plaintext + 1 + k)%nat by lia.
  rewrite unpad_from_skip_zeros by lia.
  by rewrite unpad_from_sentinel.
Qed.

End PaddingFacts.

Section IdFacts.
Import Ids.

Example toNumber_small : toNumber 42 = 42.
Proof. reflexivity. Qed.
Example toNumber_tie_even : toNumber (2^53 + 1) = 2^53.
Proof. reflexivity. Qed.
Example toNumber_tie_up : toNumber (2^53 + 3) = 2^53 + 4.
Proof. reflexivity. Qed.
Example toNumber_max : toNumber (2^64 - 1) = 2^64.
Proof. reflexivity. Qed.

Lemma byte_to_Z_range (b : byte) : 0 <= byte_to_Z b < 256.
Proof.
  unfold byte_to_Z. pose proof (Byte.to_N_bounded b). lia.
Qed.

(** The id generated from the two random bytes the constructor asks for:
    one byte in each 32-bit half. *)
Lemma generated_id_two_bytes (b0 b1 : byte) :
  generated_id [b0; b1] = byte_to_Z b1 * 2^32 + byte_to_Z b0.
Proof.
  unfold generated_id, Uint32Array_set, Long. cbn [map length drop app nth].
  pose proof (byte_to_Z_range b0). pose proof (byte_to_Z_range b1).
  rewrite !Z.mod_mod by lia.
  rewrite !Z.mod_small by lia. reflexivity.
Qed.

End IdFacts.

Section TransportFacts.
Import Transport.
Local Open Scope wsr_scope.

Variable handleRequest : option (Request -> list (Z * string)).

Lemma run_app (l1 l2 : list input) (s : wsr) :
  run handleRequest (l1 ++ l2) s
  = match run handleRequest l1 s with
    | Some s' => run handleRequest l2 s'
    | None => None
    end.
Proof.
  revert s. induction l1 as [|i l1 IH]; intros s; cbn; [done|].
  destruct (step handleRequest i s); [apply IH|done].
Qed.

(** An id made from two random bytes survives the conversion to the
    number used as key of the table. *)
Lemma ping_id_exact (s : wsr) : Ids.toNumber (ping_id s) = ping_id s.
Proof.
  unfold ping_id. rewrite generated_id_two_bytes.
  pose proof (byte_to_Z_range (entropy s (cursor s))).
  pose proof (byte_to_Z_range (entropy s (S (cursor s)))).
  unfold Ids.toNumber.
  destruct (Z.ltb_spec (Ids.byte_to_Z (entropy s (S (cursor s))) * 2 ^ 32
                        + Ids.byte_to_Z (entropy s (cursor s))) (2^53));
    [done|lia].
Qed.

(** The example resource is the one the constructor, [connect] and the
    socket's open event produce. *)
Example example_resource_reached :
  run handleRequest [CallConnect; SocketOpens]
      (new_WebSocketResource (Some (Some "/v1/keepalive"%string, Some true)) 0
                             (fun _ => x07))
  = Some example_resource.
Proof. reflexivity. Qed.

(** Fifty seconds of silence after a reset: the ping timer fires, one
    request goes out and the disconnect timer is armed. *)
Lemma ping_sent (s : wsr) (ka : KeepAlive) :
  keepalive s = Some ka -> ka_disconnect ka = true ->
  socket s = Some OPEN ->
  keepAliveTimer s = Some (now s + 50000) -> disconnectTimer s = None ->
  run handleRequest [Wait 50000; TimerFires] s = Some (after_ping s ka).
Proof.
  intros Hk Hd Hs Ht Hdt.
  pose proof (ping_id_exact s) as Hid. revert Hid.
  unfold after_ping, ping_id.
  destruct s as [so og ls k kt dt n en cu ou]. cbn in *. subst.
  intros Hid.
  unfold not_before. rewrite Z.leb_refl. cbn.
  rewrite Z.max_id.
  unfold toplevel, keepAliveTimer_fires, sendRequest, bind, new_Request,
    randomBytes, modify, send, socket_send, gets, ret, emit. cbn.
  rewrite Hd. cbn. rewrite Hid. reflexivity.
Qed.

(** One more second of silence: the disconnect timer fires. *)
Lemma ack_timeout (s : wsr) (ka : KeepAlive) :
  run handleRequest [Wait 1000; TimerFires] (after_ping s ka)
  = Some (set_out (out s ++ [Sent (ping_frame ka (ping_id s));
                             SocketClose 3001 (Some "No response to keepalive request"%string)])
            (set_socket None (set_disconnectTimer None
               (set_now (now s + 50000 + 1000) (after_ping s ka))))).
Proof.
  unfold after_ping. cbn.
  unfold not_before. rewrite Z.leb_refl. cbn. rewrite Z.max_id.
  unfold toplevel, disconnectTimer_fires, close, bind, modify, gets, ret, emit.
  cbn. rewrite <- app_assoc. reflexivity.
Qed.

(** The answer to the ping arrives within the second, with any status:
    the message event resets the keep-alive. *)
Lemma ping_answered (s : wsr) (ka : KeepAlive) (dt status : Z)
    (msg : option string) :
  listeners s = standard_listeners ->
  0 <= dt <= 1000 ->
  run handleRequest [Wait dt; SocketMessage (RESPONSE (ping_id s) status msg)]
      (after_ping s ka)
  = Some (after_response s ka dt).
Proof.
  intros Hl Hdt.
  pose proof (ping_id_exact s) as Hid.
  unfold after_ping, after_response. cbn -[Ids.toNumber ping_id].
  unfold not_before.
  destruct (Z.leb_spec 0 dt); [|lia].
  destruct (Z.leb_spec (now s + 50000 + dt) (now s + 50000 + 1000)); [|lia].
  cbn -[Ids.toNumber ping_id]. rewrite Hl.
  unfold toplevel, dispatch, bind, gets. cbn -[Ids.toNumber ping_id].
  unfold onMessage, async, bind, gets. cbn -[Ids.toNumber ping_id].
  rewrite Hid, lookup_insert_eq. cbn -[Ids.toNumber ping_id].
  destruct ((200 <=? status) && (status <? 300));
    cbn -[Ids.toNumber ping_id]; reflexivity.
Qed.

(** [onMessage] by itself, on an answer to the ping whose status is not
    2xx: the request leaves the table, nothing is called, and the
    timers are as they were. *)
Lemma onMessage_non_2xx (s : wsr) (ka : KeepAlive) (status : Z)
    (msg : option string) :
  (200 <=? status) && (status <? 300) = false ->
  onMessage handleRequest (RESPONSE (ping_id s) status msg) (after_ping s ka)
  = (Returned tt,
     set_outgoingRequests
       (delete (ping_id s) (outgoingRequests (after_ping s ka)))
       (after_ping s ka)).
Proof.
  intros Hst. pose proof (ping_id_exact s) as Hid.
  unfold onMessage, async, bind, gets, after_ping.
  cbn -[Ids.toNumber ping_id].
  rewrite Hid, lookup_insert_eq. cbn -[Ids.toNumber ping_id].
  rewrite Hst. reflexivity.
Qed.

End TransportFacts.

Section CloseFacts.
Import Transport.
Local Open Scope wsr_scope.
Variable handleRequest : option (Request -> list (Z * string)).

Lemma keeps_pending_refl (s : wsr) : keeps_pending s s.
Proof. by split. Qed.

Lemma keeps_pending_trans (s1 s2 s3 : wsr) :
  keeps_pending s1 s2 -> keeps_pending s2 s3 -> keeps_pending s1 s3.
Proof. intros [? ?] [? ?]. split; congruence. Qed.

Lemma close_listener_keeps_pending (l : listener) (s : wsr) :
  exists s', run_listener handleRequest l EvClose None s = (Returned tt, s')
             /\ keeps_pending s s'.
Proof.
  destruct l; cbn; eexists; (split; [reflexivity|]); split; cbn; try done.
  rewrite List.filter_app. cbn. by rewrite app_nil_r.
Qed.

Lemma close_event_keeps_pending (ls : list (event_name * listener)) (s : wsr) :
  exists s',
    fold_right
      (fun (x : event_name * listener) k =>
         (if event_name_eqb x.1 EvClose
          then run_listener handleRequest x.2 EvClose None else ret tt) ;; k)
      (ret tt) ls s = (Returned tt, s')
    /\ keeps_pending s s'.
Proof.
  revert s. induction ls as [|[ev l] ls IH]; intros s; cbn.
  - eexists. split; [reflexivity|apply keeps_pending_refl].
  - unfold bind at 1.
    destruct (event_name_eqb ev EvClose).
    + destruct (close_listener_keeps_pending l s) as (s1 & -> & H1).
      destruct (IH s1) as (s2 & -> & H2).
      eexists. split; [reflexivity|]. eapply keeps_pending_trans; eauto.
    + cbn. destruct (IH s) as (s2 & -> & H2). eauto.
Qed.

(** C6 (as amended): closing the connection, by [close] or by the
    socket's close event, leaves the table of outgoing requests as it
    is and calls no function of any request: pending requests are not
    failed and stay in the table. *)
Theorem close_keeps_pending_requests (s : wsr) (code : option Z)
    (reason : option string) :
  (exists s1, step handleRequest (CallClose code reason) s = Some s1
              /\ outgoingRequests s1 = outgoingRequests s
              /\ List.filter is_Invoked (out s1) = List.filter is_Invoked (out s))
  /\ (exists s2, step handleRequest SocketCloses s = Some s2
              /\ outgoingRequests s2 = outgoingRequests s
              /\ List.filter is_Invoked (out s2) = List.filter is_Invoked (out s)).
Proof.
  split.
  - eexists. split; [reflexivity|].
    unfold toplevel, close, bind, gets, modify, emit, ret.
    destruct s as [so og ls k kt dt n en cu ou]; cbn.
    destruct so as [[]|]; cbn; split; try done;
      rewrite List.filter_app; cbn; by rewrite app_nil_r.
  - cbn. unfold toplevel, dispatch, bind at 1, gets.
    set (s0 := set_socket _ s).
    destruct (close_event_keeps_pending (listeners s0) s0) as (s' & -> & H1 & H2).
    eexists. split; [reflexivity|]. split; [rewrite H1|rewrite H2]; done.
Qed.
End CloseFacts.

(** C6 (counterexample): a request with an error callback is pending, the
    consumer closes the resource and the socket reports the close; the
    request is still in the table and neither of its callbacks ran. *)
Lemma close_does_not_fail_pending :
  exists s,
    Transport.run None
      [Transport.CallSendRequest Transport.example_options;
       Transport.CallClose (Some 3001) (Some "No response to keepalive request"%string);
       Transport.SocketCloses] Transport.example_resource = Some s
    /\ Transport.socket s = None
    /\ (exists r, Transport.outgoingRequests s !! 42 = Some r
                  /\ Transport.error r = Some (Transport.Consumer 1))
    /\ List.filter Transport.is_Invoked (Transport.out s) = [].
Proof.
  eexists. split; [vm_compute; reflexivity|].
  split; [reflexivity|]. split; [|reflexivity].
  eexists. split; [vm_compute; reflexivity|reflexivity].
Qed.

(** C5: a request created without an id gets the id built from two
    random bytes, one in the low and one in the high 32-bit half: of the
    64 bits only 16 come from the random source, and the halves stay
    below 256. *)
Theorem generated_request_id_has_two_random_bytes
    (o : Transport.options) (s : Transport.wsr) :
  Transport.opt_id o = None ->
  exists r s',
    Transport.new_Request o s = (Returned r, s')
    /\ Transport.id r
       = Ids.byte_to_Z (Transport.entropy s (S (Transport.cursor s))) * 2^32
         + Ids.byte_to_Z (Transport.entropy s (Transport.cursor s))
    /\ Transport.id r mod 2^32 < 256
    /\ Transport.id r / 2^32 < 256.
Proof.
  intros Ho. unfold Transport.new_Request, Transport.bind, Transport.randomBytes,
    Transport.ret. rewrite Ho. cbn [seq map].
  do 2 eexists. split; [reflexivity|]. cbn [Transport.id].
  rewrite generated_id_two_bytes.
  pose proof (byte_to_Z_range (Transport.entropy s (Transport.cursor s))).
  pose proof (byte_to_Z_range (Transport.entropy s (S (Transport.cursor s)))).
  split; [reflexivity|]. split.
  - rewrite Z.add_comm, Z.mod_add by lia. rewrite Z.mod_small by lia. lia.
  - rewrite Z.add_comm, Z.div_add by lia. rewrite Z.div_small by lia. lia.
Qed.

Lemma generated_request_id_witness :
  exists r s',
    Transport.new_Request
      (Transport.mkOptions (Some "GET"%string) None (Some "/v1/keepalive"%string)
                           None None None None None None)
      Transport.example_resource = (Returned r, s')
    /\ Transport.id r = 7 * 2^32 + 7
    /\ Transport.id r mod 2^32 < 256
    /\ Transport.id r / 2^32 < 256.
Proof.
  apply (generated_request_id_has_two_random_bytes
           (Transport.mkOptions (Some "GET"%string) None
              (Some "/v1/keepalive"%string) None None None None None None)
           Transport.example_resource).
  reflexivity.
Defined.

(** C7 (as amended): with keep-alive enabled and [disconnect] true, 50 s
    after a reset with no inbound frame exactly one GET request to the
    configured path goes out (with no path when the configured path is
    the empty string); when no inbound frame of any kind arrives within
    1 s of that ping, the socket is closed with code 3001 and the reason
    "No response to keepalive request"; a 2xx response within 1 s cancels
    the disconnect timer and arms the ping timer for 50 s later. *)
Theorem keepalive_cycle
    (h : option (Transport.Request -> list (Z * string)))
    (s : Transport.wsr) (ka : Transport.KeepAlive) :
  Transport.keepalive s = Some ka ->
  Transport.ka_disconnect ka = true ->
  Transport.socket s = Some Transport.OPEN ->
  Transport.listeners s = Transport.standard_listeners ->
  Transport.keepAliveTimer s = Some (Transport.now s + 50000) ->
  Transport.disconnectTimer s = None ->
  (forall dt, 0 <= dt <= 50000 ->
     exists s0, Transport.run h [Transport.Wait dt] s = Some s0
                /\ Transport.out s0 = Transport.out s)
  /\ (exists s1,
        Transport.run h [Transport.Wait 50000; Transport.TimerFires] s = Some s1
        /\ Transport.out s1 = Transport.out s ++ [Transport.Sent (Transport.ping_frame ka (Transport.ping_id s))]
        /\ Transport.keepAliveTimer s1 = None
        /\ Transport.disconnectTimer s1 = Some (Transport.now s1 + 1000))
  /\ (exists s2,
        Transport.run h [Transport.Wait 50000; Transport.TimerFires;
                         Transport.Wait 1000; Transport.TimerFires] s = Some s2
        /\ Transport.out s2
           = Transport.out s
             ++ [Transport.Sent (Transport.ping_frame ka (Transport.ping_id s));
                 Transport.SocketClose 3001
                         (Some "No response to keepalive request"%string)]
        /\ Transport.socket s2 = None)
  /\ (forall dt status msg,
        0 <= dt <= 1000 -> 200 <= status < 300 ->
        exists s3,
          Transport.run h [Transport.Wait 50000; Transport.TimerFires;
                           Transport.Wait dt;
                           Transport.SocketMessage
                             (Transport.RESPONSE (Transport.ping_id s) status msg)] s
          = Some s3
          /\ Transport.disconnectTimer s3 = None
          /\ Transport.keepAliveTimer s3 = Some (Transport.now s3 + 50000)
          /\ Transport.now s3 = Transport.now s + 50000 + dt
          /\ Transport.out s3 = Transport.out s ++ [Transport.Sent (Transport.ping_frame ka (Transport.ping_id s))]).
Proof.
  intros Hk Hd Hs Hl Ht Hdt.
  pose proof (ping_sent h s ka Hk Hd Hs Ht Hdt) as Hping.
  repeat split.
  - intros dt Hrange. cbn. rewrite Ht, Hdt. unfold Transport.not_before.
    destruct (Z.leb_spec 0 dt); [|lia].
    destruct (Z.leb_spec (Transport.now s + dt) (Transport.now s + 50000)); [|lia].
    cbn. eexists. split; [reflexivity|]. by destruct s.
  - exists (Transport.after_ping s ka). split; [exact Hping|]. by cbn.
  - change [Transport.Wait 50000; Transport.TimerFires;
            Transport.Wait 1000; Transport.TimerFires]
      with ([Transport.Wait 50000; Transport.TimerFires]
            ++ [Transport.Wait 1000; Transport.TimerFires]).
    rewrite run_app, Hping, ack_timeout.
    eexists. split; [reflexivity|]. by cbn.
  - intros dt status msg Hrange Hstatus.
    change [Transport.Wait 50000; Transport.TimerFires; Transport.Wait dt;
            Transport.SocketMessage
              (Transport.RESPONSE (Transport.ping_id s) status msg)]
      with ([Transport.Wait 50000; Transport.TimerFires]
            ++ [Transport.Wait dt;
                Transport.SocketMessage
                  (Transport.RESPONSE (Transport.ping_id s) status msg)]).
    rewrite run_app, Hping, ping_answered by done.
    exists (Transport.after_response s ka dt). by cbn.
Qed.

Lemma keepalive_cycle_witness :
  exists s2,
    Transport.run None [Transport.Wait 50000; Transport.TimerFires;
                        Transport.Wait 1000; Transport.TimerFires]
                  Transport.example_resource = Some s2
    /\ Transport.out s2
       = [Transport.Sent
            (Transport.REQUEST (Some "GET"%string) (Some "/v1/keepalive"%string)
                               None (7 * 2^32 + 7));
          Transport.SocketClose 3001
            (Some "No response to keepalive request"%string)]
    /\ Transport.socket s2 = None.
Proof.
  destruct (keepalive_cycle None Transport.example_resource
              (Transport.mkKeepAlive "/v1/keepalive" true)
              eq_refl eq_refl eq_refl eq_refl eq_refl eq_refl)
    as (_ & _ & H & _).
  exact H.
Defined.

(** C7 (counterexample): half a second after the ping the server pushes
    a request, and no response of any status arrives; one second after
    the ping the socket is open, nothing was closed, and no disconnect
    timer is armed. *)
Lemma keepalive_inbound_request_prevents_close :
  exists s,
    Transport.run None
      [Transport.Wait 50000; Transport.TimerFires; Transport.Wait 500;
       Transport.SocketMessage
         (Transport.REQUEST (Some "PUT"%string) (Some "/api/v1/message"%string) None 5);
       Transport.Wait 500] Transport.example_resource = Some s
    /\ Transport.now s = 51000
    /\ Transport.socket s = Some Transport.OPEN
    /\ Transport.disconnectTimer s = None
    /\ List.filter Transport.is_SocketClose (Transport.out s) = [].
Proof.
  eexists. split; [vm_compute; reflexivity|]. by cbn.
Qed.

(** C10 (as amended): the ping is stored with a success callback and no
    error callback, so [onMessage] calls nothing on an answer whose
    status is outside [200,300) and by itself leaves the disconnect timer
    armed; but the answer is an inbound frame, and the keep-alive's own
    message listener resets the keep-alive on every inbound frame: the
    disconnect timer is cancelled, the ping timer is armed for 50 s
    later, and one second after the ping the connection is open. *)
Theorem keepalive_reset_by_any_response
    (h : option (Transport.Request -> list (Z * string)))
    (s : Transport.wsr) (ka : Transport.KeepAlive)
    (dt status : Z) (msg : option string) :
  Transport.keepalive s = Some ka ->
  Transport.ka_disconnect ka = true ->
  Transport.socket s = Some Transport.OPEN ->
  Transport.listeners s = Transport.standard_listeners ->
  Transport.keepAliveTimer s = Some (Transport.now s + 50000) ->
  Transport.disconnectTimer s = None ->
  0 <= dt <= 1000 ->
  ~ (200 <= status < 300) ->
  (exists r,
     Transport.outgoingRequests (Transport.after_ping s ka)
       !! Ids.toNumber (Transport.ping_id s) = Some r
     /\ Transport.success r = Some Transport.KeepAliveReset
     /\ Transport.error r = None)
  /\ Transport.disconnectTimer
       (Transport.onMessage h
          (Transport.RESPONSE (Transport.ping_id s) status msg)
          (Transport.after_ping s ka)).2
     = Some (Transport.now s + 50000 + 1000)
  /\ (exists s3,
        Transport.run h [Transport.Wait 50000; Transport.TimerFires;
                         Transport.Wait dt;
                         Transport.SocketMessage
                           (Transport.RESPONSE (Transport.ping_id s) status msg);
                         Transport.Wait (1000 - dt)] s
        = Some s3
        /\ Transport.now s3 = Transport.now s + 50000 + 1000
        /\ Transport.socket s3 = Some Transport.OPEN
        /\ Transport.disconnectTimer s3 = None
        /\ Transport.keepAliveTimer s3 = Some (Transport.now s + 50000 + dt + 50000)
        /\ Transport.out s3
           = Transport.out s
             ++ [Transport.Sent (Transport.ping_frame ka (Transport.ping_id s))]).
Proof.
  intros Hk Hd Hs Hl Ht Hdt Hrange Hstatus.
  assert (Hst : (200 <=? status) && (status <? 300) = false).
  { destruct (Z.leb_spec 200 status), (Z.ltb_spec status 300); cbn; try done. lia. }
  split; [|split].
  - eexists. split.
    + rewrite ping_id_exact. cbn. apply lookup_insert_eq.
    + by cbn.
  - by rewrite onMessage_non_2xx.
  - change [Transport.Wait 50000; Transport.TimerFires; Transport.Wait dt;
            Transport.SocketMessage
              (Transport.RESPONSE (Transport.ping_id s) status msg);
            Transport.Wait (1000 - dt)]
      with ([Transport.Wait 50000; Transport.TimerFires]
            ++ [Transport.Wait dt;
                Transport.SocketMessage
                  (Transport.RESPONSE (Transport.ping_id s) status msg)]
            ++ [Transport.Wait (1000 - dt)]).
    rewrite run_app, (ping_sent h s ka Hk Hd Hs Ht Hdt).
    rewrite run_app, ping_answered by done.
    cbn. unfold Transport.not_before.
    destruct (Z.leb_spec 0 (1000 - dt)); [|lia].
    destruct (Z.leb_spec (Transport.now s + 50000 + dt + (1000 - dt))
                (Transport.now s + 50000 + dt + 50000)); [|lia].
    cbn. eexists. split; [reflexivity|]. cbn.
    repeat split. lia.
Qed.

Lemma keepalive_reset_by_any_response_witness :
  exists s3,
    Transport.run None [Transport.Wait 50000; Transport.TimerFires;
                        Transport.Wait 250;
                        Transport.SocketMessage
                          (Transport.RESPONSE
                             (Transport.ping_id Transport.example_resource) 500 None);
                        Transport.Wait (1000 - 250)] Transport.example_resource
    = Some s3
    /\ Transport.now s3 = Transport.now Transport.example_resource + 50000 + 1000
    /\ Transport.socket s3 = Some Transport.OPEN
    /\ Transport.disconnectTimer s3 = None
    /\ Transport.keepAliveTimer s3
       = Some (Transport.now Transport.example_resource + 50000 + 250 + 50000)
    /\ Transport.out s3
       = Transport.out Transport.example_resource
         ++ [Transport.Sent
               (Transport.ping_frame (Transport.mkKeepAlive "/v1/keepalive" true)
                  (Transport.ping_id Transport.example_resource))].
Proof.
  destruct (keepalive_reset_by_any_response None Transport.example_resource
              (Transport.mkKeepAlive "/v1/keepalive" true) 250 500 None
              eq_refl eq_refl eq_refl eq_refl eq_refl eq_refl
              ltac:(lia) ltac:(lia))
    as (_ & _ & H).
  exact H.
Defined.

(** C10 (counterexample): the server answers the ping with status 404
    half a second after it; one second after the ping the socket is open,
    nothing was closed, the disconnect timer is gone and the next ping is
    due 50 s after the answer. *)
Lemma keepalive_not_closed_after_404 :
  exists s,
    Transport.run None
      [Transport.Wait 50000; Transport.TimerFires; Transport.Wait 500;
       Transport.SocketMessage (Transport.RESPONSE (7 * 2^32 + 7) 404 None);
       Transport.Wait 500] Transport.example_resource = Some s
    /\ Transport.now s = 51000
    /\ Transport.socket s = Some Transport.OPEN
    /\ Transport.disconnectTimer s = None
    /\ Transport.keepAliveTimer s = Some 100500
    /\ List.filter Transport.is_SocketClose (Transport.out s) = [].
Proof.
  eexists. split; [vm_compute; reflexivity|]. by cbn.
Qed.

Section QueueFacts.
Import Receiver.
Local Open Scope nat_scope.
Context {W : Type}.

Lemma proc_unit_ind (P : proc unit -> Prop) :
  (forall a, P (Async.Ret a)) ->
  (forall e, P (Async.Throw e)) ->
  (forall eff k, P k -> P (Async.Do eff k)) ->
  (forall eff k, (forall r, P (k r)) -> P (Async.Try eff k)) ->
  (forall X (c : call X) k, (forall r, P (k r)) -> P (Async.Call c k)) ->
  (forall child k, P child -> P k -> P (Async.Fork child k)) ->
  forall p, P p.
Proof.
  intros HRet HThrow HDo HTry HCall HFork.
  fix IH 1. intros [a|e|eff k|eff k|X c k|child k].
  - apply HRet.
  - apply HThrow.
  - apply HDo, IH.
  - apply HTry. intros r. apply IH.
  - apply HCall. intros r. apply IH.
  - apply HFork; apply IH.
Qed.

Lemma In_snoc_inv {A : Type} (x y : A) (l : list A) :
  In x (l ++ [y]) -> In x l \/ x = y.
Proof.
  intros H. apply in_app_or in H as [H|[H|[]]]; [by left|by right].
Qed.

Lemma started_app (d : nat) (tr more : list obs) :
  started d tr -> started d (tr ++ more).
Proof. intros [e He]. exists e. apply in_or_app. by left. Qed.

Lemma settled_app (d : nat) (tr more : list obs) :
  settled d tr -> settled d (tr ++ more).
Proof. intros [ok Hok]. exists ok. apply in_or_app. by left. Qed.

Lemma started_snoc_inv (d : nat) (tr : list obs) (o : obs) :
  started d (tr ++ [o]) -> started d tr \/ exists e, o = Started d e.
Proof.
  intros [e He]. apply In_snoc_inv in He as [He| <-]; [left|right]; by exists e.
Qed.

Lemma settled_snoc_inv (d : nat) (tr : list obs) (o : obs) :
  settled d (tr ++ [o]) -> settled d tr \/ exists ok, o = Settled d ok.
Proof.
  intros [ok He]. apply In_snoc_inv in He as [He| <-]; [left|right]; by exists ok.
Qed.

Lemma serial_nil : serial [].
Proof. intros seen o rest H. by destruct seen. Qed.

Lemma serial_snoc (tr : list obs) (o : obs) :
  serial tr -> in_order tr o -> serial (tr ++ [o]).
Proof.
  intros Htr Ho seen o' rest Heq.
  destruct rest as [|o'' rest'] using rev_ind.
  - apply app_inj_tail in Heq as [-> ->]. exact Ho.
  - clear IHrest'. rewrite app_comm_cons, app_assoc in Heq.
    apply app_inj_tail in Heq as [-> _]. by eapply Htr.
Qed.

Lemma created_snoc (tr : list obs) (o : obs) :
  created (tr ++ [o])
  = created tr ++ match o with
                  | Performed _ (QueueEnvelope e) => [Some e]
                  | Performed _ Connect => [None]
                  | _ => []
                  end.
Proof.
  unfold created. rewrite omap_app. f_equal.
  destruct o as [| |? []]; reflexivity.
Qed.

Lemma created_app (tr more : list obs) (d : nat) (x : option Envelope) :
  created tr !! d = Some x -> created (tr ++ more) !! d = Some x.
Proof.
  intros H. unfold created. rewrite omap_app. by apply lookup_app_l_Some.
Qed.

Lemma root_app (d : nat) (tr more : list obs) :
  root d tr -> root d (tr ++ more).
Proof. intros [->|H]; [by left|right]. by apply created_app. Qed.

Lemma starts_snoc (d : nat) (tr : list obs) (o : obs) :
  starts d (tr ++ [o])
  = starts d tr + match o with
                  | Started d' _ => if Nat.eqb d' d then 1 else 0
                  | _ => 0
                  end.
Proof.
  unfold starts. rewrite List.filter_app, length_app. f_equal.
  destruct o as [d' e| |]; cbn; [|done..]. by destruct (Nat.eqb d' d).
Qed.

Lemma starts_not_started (d : nat) (tr : list obs) :
  ~ started d tr -> starts d tr = 0.
Proof.
  induction tr as [|o tr IH]; intros Hns; [done|].
  unfold starts in *. cbn.
  assert (Htl : ~ started d tr).
  { intros [e He]. apply Hns. exists e. by right. }
  destruct o as [d' e| |]; cbn; try by apply IH.
  destruct (Nat.eqb_spec d' d) as [->|Hne]; [|by apply IH].
  destruct Hns. exists e. by left.
Qed.

Lemma extends_refl (s : receiver W) : extends s s.
Proof. exists []. by rewrite app_nil_r. Qed.

Lemma extends_trans (s1 s2 s3 : receiver W) :
  extends s1 s2 -> extends s2 s3 -> extends s1 s3.
Proof.
  intros [m1 H1] [m2 H2]. exists (m1 ++ m2). by rewrite H2, H1, app_assoc.
Qed.

Lemma extends_started (s s' : receiver W) (d : nat) :
  extends s s' -> started d (trace s) -> started d (trace s').
Proof. intros [m ->]. apply started_app. Qed.


End QueueFacts.

Section QueueInvariant.
Import Receiver.
Local Open Scope nat_scope.
Context {W : Type}.
Implicit Types (s : receiver W) (d : nat).

(** An effect that makes no promise is recorded. *)
Lemma Inv_log_effect s (o : origin) (eff : effect) :
  Inv s ->
  in_order (trace s) (Performed o eff) ->
  (forall e, eff <> QueueEnvelope e) ->
  eff <> Connect ->
  Inv (log (Performed o eff) s).
Proof.
  intros [H1 H2 H3 H4 H5 H6 H7 H8 H9 H10 H11 H12] Ho Hq Hc.
  assert (Hcr : created (trace s ++ [Performed o eff]) = created (trace s)).
  { rewrite created_snoc. destruct eff; try apply app_nil_r; [by destruct (Hq e)|done]. }
  constructor; unfold root in *; cbn [log trace promises pending jobs tasks];
    rewrite ?Hcr; try done.
  - intros d rs Hd. destruct (H3 d rs Hd) as (Hrs & Hns & Hnj).
    split; [done|]. split; [|done].
    intros Hst. apply started_snoc_inv in Hst as [Hst|[e [=]]]. done.
  - intros d Hd. destruct (H4 d Hd) as [Hr|Hs]; [by left|right].
    by apply settled_app.
  - intros j Hj. destruct (H5 j Hj) as (e & He & Hd & Hcre & Hns & Hpred).
    exists e. split; [done|]. split; [done|]. split; [done|]. split.
    + intros Hst. apply started_snoc_inv in Hst as [Hst|[e' [=]]]. done.
    + destruct Hpred as [Hr|Hs]; [by left|right]. by apply settled_app.
  - intros d e Hin. apply In_snoc_inv in Hin as [Hin|Hin]; [eauto|done].
  - intros d ok Hin. apply In_snoc_inv in Hin as [Hin|Hin]; [eauto|done].
  - intros d. rewrite starts_snoc. specialize (H9 d). lia.
  - intros d e Hd. destruct (H10 d e Hd) as [Hp|[Hj|Hst]]; [by left|right; by left|].
    right; right. apply in_or_app. by left.
  - intros t d Ht Hd. apply started_app. eauto.
  - by apply serial_snoc.
Qed.

(** [StoragePut] changes the store only. *)
Lemma Inv_set_storage s (v : gmap string (list string)) :
  Inv s -> Inv (set_storage v s).
Proof. intros []. by constructor. Qed.

Lemma Inv_set_world s (w : W) : Inv s -> Inv (set_world w s).
Proof. intros []. by constructor. Qed.

End QueueInvariant.

Section QueueEnvelopeInvariant.
Import Receiver.
Local Open Scope nat_scope.
Context {W : Type}.
Implicit Types (s : receiver W) (d : nat).

(** No handler has started, and no microtask is there, for a promise
    that is not made yet. *)
Lemma Inv_beyond s d :
  Inv s -> length (promises s) <= d ->
  ~ started d (trace s) /\ ~ In d (map job_derived (jobs s)).
Proof.
  intros HInv Hd. split.
  - intros [e He]. destruct (inv_started s HInv d e He) as [H1 Hc].
    apply lookup_lt_Some in Hc. rewrite (inv_created s HInv) in Hc. lia.
  - intros Hin. apply in_map_iff in Hin as (j & <- & Hj).
    destruct (inv_jobs s HInv j Hj) as (e & _ & H1 & Hc & _).
    apply lookup_lt_Some in Hc. rewrite (inv_created s HInv) in Hc. lia.
Qed.

(** [queueEnvelope] chains the handler to [this.pending]: a reaction
    of the pending promise, or a microtask when it is settled. *)
Lemma Inv_queueEnvelope s (o : origin) (e : Envelope) :
  Inv s ->
  in_order (trace s) (Performed o (QueueEnvelope e)) ->
  Inv (do_effect o (QueueEnvelope e) s).
Proof.
  intros HInv Ho.
  destruct (Inv_beyond s (length (promises s)) HInv (le_n _)) as [Hns_n Hnj_n].
  destruct (Inv_beyond s (S (length (promises s))) HInv (le_S _ _ (le_n _)))
    as [Hns_Sn Hnj_Sn].
  destruct HInv as [[H1 H2] H2' H3 H4 H5 H6 H7 H8 H9 H10 H11 H12].
  set (n := length (promises s)) in *.
  set (tr' := trace s ++ [Performed o (QueueEnvelope e)]).
  assert (Hcr : created tr' = created (trace s) ++ [Some e]) by apply created_snoc.
  assert (Hlast : created tr' !! (n - 1) = Some (Some e)).
  { rewrite Hcr, lookup_app_r by lia.
    by replace (n - 1 - length (created (trace s))) with 0 by lia. }
  assert (Hold : forall d x, created (trace s) !! d = Some x -> created tr' !! d = Some x).
  { intros d x Hd. by apply created_app. }
  assert (Hsame : forall d, d < n - 1 -> created tr' !! d = created (trace s) !! d).
  { intros d Hd. rewrite Hcr. apply lookup_app_l. lia. }
  assert (Hnone : forall d, n <= d -> created tr' !! d = None).
  { intros d Hd. apply lookup_ge_None. rewrite Hcr, length_app. cbn. lia. }
  assert (Hback : forall d x, created tr' !! d = Some x -> d <> n - 1 ->
                    created (trace s) !! d = Some x).
  { intros d x Hd Hne. rewrite <- Hsame; [done|].
    apply lookup_lt_Some in Hd. rewrite Hcr, length_app in Hd. cbn in Hd. lia. }
  assert (Hst : forall d, started d tr' -> started d (trace s)).
  { intros d Hd. apply started_snoc_inv in Hd as [Hd|[x [=]]]. done. }
  assert (Hroot : forall d, root d (trace s) -> root d tr') by (intros; by apply root_app).
  assert (Hpred : forall d, root d (trace s) \/ settled d (trace s) ->
                    root d tr' \/ settled d tr').
  { intros d [Hr|Hs]; [left; by apply Hroot|right; by apply settled_app]. }
  assert (Hstarted : forall d x, In (Started d x) tr' ->
                       1 <= d /\ created tr' !! (d - 1) = Some (Some x)).
  { intros d x Hin. apply In_snoc_inv in Hin as [Hin|Hin]; [|done].
    destruct (H7 d x Hin). eauto. }
  assert (Honce : forall d, starts d tr' <= 1).
  { intros d. unfold tr'. rewrite starts_snoc. specialize (H9 d). lia. }
  assert (Htasks : forall t d, In t (tasks s) -> task_origin t = FromEnvelope d ->
                     started d tr').
  { intros t d Ht Hd. apply started_app. eauto. }
  assert (Hserial : serial tr') by (by apply serial_snoc).
  assert (Hjobs : forall j, In j (jobs s) ->
            exists x, job_handler j = Some x /\ 1 <= job_derived j
                      /\ created tr' !! (job_derived j - 1) = Some (Some x)
                      /\ ~ started (job_derived j) tr'
                      /\ (root (job_derived j - 1) tr' \/ settled (job_derived j - 1) tr')).
  { intros j Hj. destruct (H5 j Hj) as (x & Hx & Hd & Hc & Hns & Hp).
    exists x. repeat split; auto. }
  unfold do_effect, queueEnvelope, then_.
  replace (promises (log (Performed o (QueueEnvelope e)) s)) with (promises s) by done.
  replace (pending (log (Performed o (QueueEnvelope e)) s)) with (pending s) by done.
  fold n. rewrite H2.
  destruct (promises s !! (n - 1)) as [[rs| |]|] eqn:Hp; cycle 3.
  { apply lookup_ge_None in Hp. fold n in Hp. lia. }
  - (* [this.pending] is pending: the handler becomes its reaction *)
    destruct (H3 _ _ Hp) as (Hrs & _ & _).
    rewrite (lookup_ge_None_2 (created (trace s)) (n - 1)) in Hrs by lia.
    subst rs.
    constructor; unfold set_pending, set_jobs, set_promises, log;
      cbn [trace promises pending jobs tasks]; fold tr';
      rewrite ?length_insert, ?length_app; cbn [length]; fold n.
    + lia.
    + rewrite Hcr, length_app. cbn. lia.
    + intros d rs Hd. destruct (decide (d = n - 1)) as [->|Hne].
      * rewrite list_lookup_insert_eq in Hd by (rewrite length_app; cbn; fold n; lia).
        injection Hd as <-. rewrite Hlast. replace (S (n - 1)) with n by lia.
        split; [done|]. split; [|done]. intros Hd. by apply Hns_n, Hst.
      * rewrite list_lookup_insert_ne in Hd by done.
        destruct (decide (d = n)) as [->|Hne'].
        -- rewrite lookup_app_r in Hd by (fold n; lia).
           fold n in Hd. rewrite Nat.sub_diag in Hd. injection Hd as <-.
           rewrite Hnone by lia. split; [done|]. split; [|done].
           intros Hd. by apply Hns_Sn, Hst.
        -- assert (d < n).
           { apply lookup_lt_Some in Hd. rewrite length_app in Hd. cbn in Hd.
             fold n in Hd. lia. }
           rewrite lookup_app_l in Hd by (fold n; lia).
           destruct (H3 d rs Hd) as (Hrs & Hns & Hnj).
           rewrite Hsame by lia. split; [done|]. split; [|done].
           intros Hd'. by apply Hns, Hst.
    + intros d Hd. apply Hpred, H4.
      destruct (decide (d = n - 1)) as [->|Hne].
      { rewrite list_lookup_insert_eq in Hd by (rewrite length_app; cbn; fold n; lia).
        by destruct Hd. }
      rewrite list_lookup_insert_ne in Hd by done.
      destruct (decide (d < n)) as [Hlt|Hge].
      * by rewrite lookup_app_l in Hd by (fold n; lia).
      * destruct (decide (d = n)) as [->|Hne'].
        -- rewrite lookup_app_r in Hd by (fold n; lia).
           fold n in Hd. rewrite Nat.sub_diag in Hd. by destruct Hd.
        -- rewrite lookup_ge_None_2 in Hd by (rewrite length_app; cbn; fold n; lia).
           by destruct Hd.
    + exact Hjobs.
    + done.
    + exact Hstarted.
    + intros d ok Hin. apply In_snoc_inv in Hin as [Hin|Hin]; [|done].
      pose proof (H8 d ok Hin) as Hs.
      assert (d <> n - 1) by (intros ->; rewrite Hp in Hs; by destruct Hs).
      rewrite list_lookup_insert_ne by done.
      destruct Hs as [Hs|Hs]; [left|right];
        by apply lookup_app_l_Some.
    + exact Honce.
    + intros d x Hd. destruct (decide (d = n - 1)) as [->|Hne].
      * left. eexists.
        apply list_lookup_insert_eq. rewrite length_app. cbn. fold n. lia.
      * destruct (H10 d x (Hback d (Some x) Hd Hne)) as [[rs Hrs]|[Hj|Hs]].
        -- left. exists rs. rewrite list_lookup_insert_ne by done.
           by apply lookup_app_l_Some.
        -- right. by left.
        -- right. right. apply in_or_app. by left.
    + exact Htasks.
    + exact Hserial.
  - (* [this.pending] is fulfilled: the handler becomes a microtask *)
    assert (Hres : root (n - 1) tr' \/ settled (n - 1) tr').
    { apply Hpred, H4. rewrite Hp. by left. }
    constructor; unfold set_pending, set_jobs, set_promises, log;
      cbn [trace promises pending jobs tasks]; fold tr';
      rewrite ?length_app; cbn [length]; fold n.
    + lia.
    + rewrite Hcr, length_app. cbn. lia.
    + intros d rs Hd. destruct (decide (d = n)) as [->|Hne'].
      * rewrite lookup_app_r in Hd by (fold n; lia).
        fold n in Hd. rewrite Nat.sub_diag in Hd. injection Hd as <-.
        rewrite Hnone by lia. split; [done|]. split.
        -- intros Hd. by apply Hns_Sn, Hst.
        -- rewrite map_app, in_app_iff. cbn. intros [Hd|[Hd|[]]]; [done|lia].
      * assert (d < n).
        { apply lookup_lt_Some in Hd. rewrite length_app in Hd. cbn in Hd.
          fold n in Hd. lia. }
        rewrite lookup_app_l in Hd by (fold n; lia).
        assert (d <> n - 1) by (intros ->; congruence).
        destruct (H3 d rs Hd) as (Hrs & Hns & Hnj).
        rewrite Hsame by lia. split; [done|]. split.
        -- intros Hd'. by apply Hns, Hst.
        -- rewrite map_app, in_app_iff. cbn. intros [Hd'|[Hd'|[]]]; [done|lia].
    + intros d Hd. apply Hpred, H4.
      destruct (decide (d < n)) as [Hlt|Hge].
      * by rewrite lookup_app_l in Hd by (fold n; lia).
      * destruct (decide (d = n)) as [->|Hne'].
        -- rewrite lookup_app_r in Hd by (fold n; lia).
           fold n in Hd. rewrite Nat.sub_diag in Hd. by destruct Hd.
        -- rewrite lookup_ge_None_2 in Hd by (rewrite length_app; cbn; fold n; lia).
           by destruct Hd.
    + intros j Hj. apply in_app_or in Hj as [Hj|[<-|[]]]; [by apply Hjobs|].
      exists e. cbn. split; [done|]. split; [lia|]. split; [done|].
      split; [|done]. intros Hd. by apply Hns_n, Hst.
    + rewrite map_app. apply NoDup_app. split; [done|]. split.
      * intros d Hd Hd'. apply list_elem_of_In in Hd'. cbn in Hd'.
        destruct Hd' as [<-|[]]. by apply Hnj_n, list_elem_of_In.
      * cbn. apply NoDup_singleton.
    + exact Hstarted.
    + intros d ok Hin. apply In_snoc_inv in Hin as [Hin|Hin]; [|done].
      destruct (H8 d ok Hin) as [Hs|Hs]; [left|right]; by apply lookup_app_l_Some.
    + exact Honce.
    + intros d x Hd. destruct (decide (d = n - 1)) as [->|Hne].
      * right. left. exists true. apply in_or_app. right. left.
        rewrite Hlast in Hd. injection Hd as ->. f_equal. lia.
      * destruct (H10 d x (Hback d (Some x) Hd Hne)) as [[rs Hrs]|[[ok Hj]|Hs]].
        -- left. exists rs. by apply lookup_app_l_Some.
        -- right. left. exists ok. apply in_or_app. by left.
        -- right. right. apply in_or_app. by left.
    + exact Htasks.
    + exact Hserial.
  - (* [this.pending] is rejected: the handler becomes a microtask *)
    assert (Hres : root (n - 1) tr' \/ settled (n - 1) tr').
    { apply Hpred, H4. rewrite Hp. by right. }
    constructor; unfold set_pending, set_jobs, set_promises, log;
      cbn [trace promises pending jobs tasks]; fold tr';
      rewrite ?length_app; cbn [length]; fold n.
    + lia.
    + rewrite Hcr, length_app. cbn. lia.
    + intros d rs Hd. destruct (decide (d = n)) as [->|Hne'].
      * rewrite lookup_app_r in Hd by (fold n; lia).
        fold n in Hd. rewrite Nat.sub_diag in Hd. injection Hd as <-.
        rewrite Hnone by lia. split; [done|]. split.
        -- intros Hd. by apply Hns_Sn, Hst.
        -- rewrite map_app, in_app_iff. cbn. intros [Hd|[Hd|[]]]; [done|lia].
      * assert (d < n).
        { apply lookup_lt_Some in Hd. rewrite length_app in Hd. cbn in Hd.
          fold n in Hd. lia. }
        rewrite lookup_app_l in Hd by (fold n; lia).
        assert (d <> n - 1) by (intros ->; congruence).
        destruct (H3 d rs Hd) as (Hrs & Hns & Hnj).
        rewrite Hsame by lia. split; [done|]. split.
        -- intros Hd'. by apply Hns, Hst.
        -- rewrite map_app, in_app_iff. cbn. intros [Hd'|[Hd'|[]]]; [done|lia].
    + intros d Hd. apply Hpred, H4.
      destruct (decide (d < n)) as [Hlt|Hge].
      * by rewrite lookup_app_l in Hd by (fold n; lia).
      * destruct (decide (d = n)) as [->|Hne'].
        -- rewrite lookup_app_r in Hd by (fold n; lia).
           fold n in Hd. rewrite Nat.sub_diag in Hd. by destruct Hd.
        -- rewrite lookup_ge_None_2 in Hd by (rewrite length_app; cbn; fold n; lia).
           by destruct Hd.
    + intros j Hj. apply in_app_or in Hj as [Hj|[<-|[]]]; [by apply Hjobs|].
      exists e. cbn. split; [done|]. split; [lia|]. split; [done|].
      split; [|done]. intros Hd. by apply Hns_n, Hst.
    + rewrite map_app. apply NoDup_app. split; [done|]. split.
      * intros d Hd Hd'. apply list_elem_of_In in Hd'. cbn in Hd'.
        destruct Hd' as [<-|[]]. by apply Hnj_n, list_elem_of_In.
      * cbn. apply NoDup_singleton.
    + exact Hstarted.
    + intros d ok Hin. apply In_snoc_inv in Hin as [Hin|Hin]; [|done].
      destruct (H8 d ok Hin) as [Hs|Hs]; [left|right]; by apply lookup_app_l_Some.
    + exact Honce.
    + intros d x Hd. destruct (decide (d = n - 1)) as [->|Hne].
      * right. left. exists false. apply in_or_app. right. left.
        rewrite Hlast in Hd. injection Hd as ->. f_equal. lia.
      * destruct (H10 d x (Hback d (Some x) Hd Hne)) as [[rs Hrs]|[[ok Hj]|Hs]].
        -- left. exists rs. by apply lookup_app_l_Some.
        -- right. left. exists ok. apply in_or_app. by left.
        -- right. right. apply in_or_app. by left.
    + exact Htasks.
    + exact Hserial.
Qed.

End QueueEnvelopeInvariant.

Section SettleInvariant.
Import Receiver.
Local Open Scope nat_scope.
Context {W : Type}.
Implicit Types (s : receiver W) (d : nat).

(** [connect] makes a promise that is fulfilled and sets
    [this.pending] to it. *)
Lemma Inv_connect s (o : origin) :
  Inv s ->
  in_order (trace s) (Performed o Connect) ->
  Inv (do_effect o Connect s).
Proof.
  intros HInv Ho.
  destruct (Inv_beyond s (length (promises s)) HInv (le_n _)) as [Hns_n Hnj_n].
  destruct HInv as [[H1 H2] H2' H3 H4 H5 H6 H7 H8 H9 H10 H11 H12].
  set (n := length (promises s)) in *.
  set (tr' := trace s ++ [Performed o Connect]).
  assert (Hcr : created tr' = created (trace s) ++ [None]) by apply created_snoc.
  assert (Hlast : created tr' !! (n - 1) = Some None).
  { rewrite Hcr, lookup_app_r by lia.
    by replace (n - 1 - length (created (trace s))) with 0 by lia. }
  assert (Hsame : forall d, d < n - 1 -> created tr' !! d = created (trace s) !! d).
  { intros d Hd. rewrite Hcr. apply lookup_app_l. lia. }
  assert (Hback : forall d x, created tr' !! d = Some (Some x) ->
                    created (trace s) !! d = Some (Some x)).
  { intros d x Hd. rewrite <- Hsame; [done|].
    destruct (decide (d = n - 1)) as [->|Hne]; [congruence|].
    apply lookup_lt_Some in Hd. rewrite Hcr, length_app in Hd. cbn in Hd. lia. }
  assert (Hst : forall d, started d tr' -> started d (trace s)).
  { intros d Hd. apply started_snoc_inv in Hd as [Hd|[x [=]]]. done. }
  assert (Hpred : forall d, root d (trace s) \/ settled d (trace s) ->
                    root d tr' \/ settled d tr').
  { intros d [Hr|Hs]; [left; by apply root_app|right; by apply settled_app]. }
  unfold do_effect.
  constructor; unfold set_pending, set_jobs, set_promises, log;
    cbn [trace promises pending jobs tasks]; fold tr';
    rewrite ?length_app; cbn [length]; fold n.
  - lia.
  - rewrite Hcr, length_app. cbn. lia.
  - intros d rs Hd.
    assert (d < n).
    { destruct (decide (d < n)) as [|Hge]; [done|].
      destruct (decide (d = n)) as [->|Hne'].
      - rewrite lookup_app_r in Hd by (fold n; lia).
        fold n in Hd. by rewrite Nat.sub_diag in Hd.
      - by rewrite lookup_ge_None_2 in Hd by (rewrite length_app; cbn; fold n; lia). }
    rewrite lookup_app_l in Hd by (fold n; lia).
    destruct (H3 d rs Hd) as (Hrs & Hns & Hnj).
    split; [|split; [|done]].
    + destruct (decide (d = n - 1)) as [->|Hne].
      * rewrite Hlast.
        by rewrite (lookup_ge_None_2 (created (trace s)) (n - 1)) in Hrs by lia.
      * rewrite Hsame by lia. done.
    + intros Hd'. by apply Hns, Hst.
  - intros d Hd. destruct (decide (d < n)) as [Hlt|Hge].
    + rewrite lookup_app_l in Hd by (fold n; lia). by apply Hpred, H4.
    + destruct (decide (d = n)) as [->|Hne'].
      * left. right. done.
      * rewrite lookup_ge_None_2 in Hd by (rewrite length_app; cbn; fold n; lia).
        by destruct Hd.
  - intros j Hj. destruct (H5 j Hj) as (x & Hx & Hd & Hc & Hns & Hp).
    exists x. split; [done|]. split; [done|]. split; [by apply created_app|].
    split; [|by apply Hpred]. intros Hd'. by apply Hns, Hst.
  - done.
  - intros d x Hin. apply In_snoc_inv in Hin as [Hin|Hin]; [|done].
    destruct (H7 d x Hin). split; [done|]. by apply created_app.
  - intros d ok Hin. apply In_snoc_inv in Hin as [Hin|Hin]; [|done].
    destruct (H8 d ok Hin) as [Hs|Hs]; [left|right]; by apply lookup_app_l_Some.
  - intros d. unfold tr'. rewrite starts_snoc. specialize (H9 d). lia.
  - intros d x Hd.
    destruct (H10 d x (Hback d x Hd)) as [[rs Hrs]|[[ok Hj]|Hs]].
    + left. exists rs. by apply lookup_app_l_Some.
    + right. left. by exists ok.
    + right. right. apply in_or_app. by left.
  - intros t d Ht Hd. apply started_app. eauto.
  - by apply serial_snoc.
Qed.

(** A promise settles: its reaction, if it has one, becomes a
    microtask. *)
Lemma Inv_settle s d (ok : bool) : Inv s -> Inv (settle d ok s).
Proof.
  intros HInv. unfold settle.
  destruct (promises s !! d) as [[rs| |]|] eqn:Hp; try done.
  destruct HInv as [[H1 H2] H2' H3 H4 H5 H6 H7 H8 H9 H10 H11 H12].
  set (n := length (promises s)) in *.
  set (tr' := trace s ++ [Settled d ok]).
  destruct (H3 d rs Hp) as (Hrs & Hns_d & Hnj_d).
  assert (Hdn : d < n) by (by apply lookup_lt_Some in Hp).
  assert (Hcr : created tr' = created (trace s)).
  { unfold tr'. rewrite created_snoc. apply app_nil_r. }
  assert (Hst : forall d', started d' tr' -> started d' (trace s)).
  { intros d' Hd. apply started_snoc_inv in Hd as [Hd|[x [=]]]. done. }
  assert (Hpred : forall d', root d' (trace s) \/ settled d' (trace s) ->
                    root d' tr' \/ settled d' tr').
  { intros d' [Hr|Hs]; [left; by apply root_app|right; by apply settled_app]. }
  assert (Hnow : settled d tr').
  { exists ok. apply in_or_app. right. by left. }
  assert (Hnew : forall j,
            In j (map (fun r => mkJob (if ok then onFulfilled r else onRejected r)
                                      ok (derived r)) rs) ->
            exists e, created (trace s) !! d = Some (Some e)
                      /\ j = mkJob (Some e) ok (S d)).
  { intros j Hj. destruct (created (trace s) !! d) as [[e|]|]; subst rs;
      cbn in Hj; try done.
    destruct Hj as [<-|[]]. exists e. split; [done|]. by destruct ok. }
  constructor; unfold set_jobs, set_promises, log;
    cbn [trace promises pending jobs tasks]; fold tr';
    rewrite ?length_insert, ?Hcr; fold n.
  - done.
  - done.
  - intros d' rs' Hd'.
    assert (d' <> d).
    { intros ->. rewrite list_lookup_insert_eq in Hd' by done. by destruct ok. }
    rewrite list_lookup_insert_ne in Hd' by done.
    destruct (H3 d' rs' Hd') as (Hrs' & Hns & Hnj).
    split; [done|]. split; [intros Hd''; by apply Hns, Hst|].
    rewrite map_app, in_app_iff. intros [Hin|Hin]; [done|].
    apply in_map_iff in Hin as (j & Hj & Hin).
    destruct (Hnew j Hin) as (e & _ & ->). cbn in Hj. lia.
  - intros d' Hd'. destruct (decide (d' = d)) as [->|Hne]; [by right|].
    rewrite list_lookup_insert_ne in Hd' by done. by apply Hpred, H4.
  - intros j Hj. apply in_app_or in Hj as [Hj|Hj].
    + destruct (H5 j Hj) as (x & Hx & Hd & Hc & Hns & Hp').
      exists x. split; [done|]. split; [done|]. split; [done|].
      split; [|by apply Hpred]. intros Hd'. by apply Hns, Hst.
    + destruct (Hnew j Hj) as (e & He & ->). exists e. cbn.
      split; [done|]. split; [lia|]. rewrite Nat.sub_0_r.
      split; [done|]. split; [|by right]. intros Hd'. by apply Hns_d, Hst.
  - rewrite map_app. apply NoDup_app. split; [done|]. split.
    + intros d' Hd' Hd''. apply list_elem_of_In, in_map_iff in Hd'' as (j & Hj & Hin).
      apply in_map_iff in Hin as (r & <- & Hr). cbn in Hj. subst d'.
      destruct (created (trace s) !! d) as [[e|]|]; subst rs; cbn in Hr; try done.
      destruct Hr as [<-|[]]. cbn in Hd'. by apply Hnj_d, list_elem_of_In.
    + destruct (created (trace s) !! d) as [[e|]|]; subst rs; cbn;
        [apply NoDup_singleton|apply NoDup_nil_2..].
  - intros d' x Hin. apply In_snoc_inv in Hin as [Hin|Hin]; [eauto|done].
  - intros d' ok' Hin. apply In_snoc_inv in Hin as [Hin|Hin].
    + pose proof (H8 d' ok' Hin) as Hs.
      assert (d' <> d) by (intros ->; rewrite Hp in Hs; by destruct Hs).
      by rewrite list_lookup_insert_ne.
    + injection Hin as -> ->. rewrite list_lookup_insert_eq by done.
      destruct ok; [by left|by right].
  - intros d'. unfold tr'. rewrite starts_snoc. specialize (H9 d'). lia.
  - intros d' x Hd'. destruct (H10 d' x Hd') as [[rs' Hrs']|[[ok' Hj]|Hs]].
    + destruct (decide (d' = d)) as [->|Hne].
      * right. left. exists ok. apply in_or_app. right.
        rewrite Hd' in Hrs. subst rs. cbn. left. by destruct ok.
      * left. exists rs'. by rewrite list_lookup_insert_ne.
    + right. left. exists ok'. apply in_or_app. by left.
    + right. right. apply in_or_app. by left.
  - intros t d' Ht Hd'. apply started_app. eauto.
  - by apply serial_snoc.
Qed.

Lemma Inv_add_task s (t : task) :
  Inv s ->
  (forall d, task_origin t = FromEnvelope d -> started d (trace s)) ->
  Inv (set_tasks (tasks s ++ [t]) s).
Proof.
  intros [H1 H2 H3 H4 H5 H6 H7 H8 H9 H10 H11 H12] Ho.
  constructor; try done. unfold set_tasks. cbn [tasks trace].
  intros t' d Hin Hd. apply In_snoc_inv in Hin as [Hin| ->]; eauto.
Qed.

Lemma In_delete (ts : list task) (i : nat) (t : task) :
  In t (delete i ts) -> In t ts.
Proof.
  rewrite delete_take_drop. intros H. apply in_app_or in H as [H|H].
  - rewrite <- (take_drop i ts). apply in_or_app. by left.
  - rewrite <- (take_drop (S i) ts). apply in_or_app. by right.
Qed.

Lemma Inv_remove_task s (i : nat) (t : task) :
  Inv s ->
  tasks s !! i = Some t ->
  (forall d, task_origin t = FromEnvelope d -> started d (trace s))
  /\ Inv (set_tasks (delete i (tasks s)) s).
Proof.
  intros [H1 H2 H3 H4 H5 H6 H7 H8 H9 H10 H11 H12] Hi. split.
  - intros d Hd. eapply H11; [|exact Hd].
    apply list_elem_of_In. by eapply list_elem_of_lookup_2.
  - constructor; try done. unfold set_tasks. cbn [tasks trace].
    intros t' d Hin Hd. apply In_delete in Hin. eauto.
Qed.

(** The next microtask starts its handler. *)
Lemma Inv_start_job s (j : job) (rest : list job) (e : Envelope) :
  Inv s ->
  jobs s = j :: rest ->
  job_handler j = Some e ->
  Inv (log (Started (job_derived j) e) (set_jobs rest s)).
Proof.
  intros [[H1 H2] H2' H3 H4 H5 H6 H7 H8 H9 H10 H11 H12] Hjobs He.
  set (d := job_derived j).
  set (tr' := trace s ++ [Started d e]).
  destruct (H5 j) as (e' & He' & H1d & Hc & Hns & Hpred).
  { rewrite Hjobs. by left. }
  assert (e' = e) as -> by congruence.
  rewrite Hjobs in H6. cbn in H6. apply NoDup_cons in H6 as [Hnd H6].
  assert (Hcr : created tr' = created (trace s)).
  { unfold tr'. rewrite created_snoc. apply app_nil_r. }
  assert (Hst : forall d', d' <> d -> started d' tr' -> started d' (trace s)).
  { intros d' Hne Hd. apply started_snoc_inv in Hd as [Hd|[x [=]]]; [done|].
    congruence. }
  assert (Hmono : forall d', root d' (trace s) \/ settled d' (trace s) ->
                    root d' tr' \/ settled d' tr').
  { intros d' [Hr|Hs]; [left; by apply root_app|right; by apply settled_app]. }
  constructor; unfold set_jobs, log;
    cbn [trace promises pending jobs tasks]; fold d; fold tr'; rewrite ?Hcr.
  - done.
  - done.
  - intros d' rs Hd'. destruct (H3 d' rs Hd') as (Hrs & Hns' & Hnj).
    rewrite Hjobs in Hnj. cbn in Hnj.
    split; [done|]. split.
    + intros Hd''. apply Hns', Hst; [|done]. intros Heq. apply Hnj. by left.
    + intros Hin. apply Hnj. by right.
  - intros d' Hd'. by apply Hmono, H4.
  - intros j' Hj'. destruct (H5 j') as (x & Hx & H1' & Hc' & Hns' & Hp').
    { rewrite Hjobs. by right. }
    exists x. split; [done|]. split; [done|]. split; [done|].
    split; [|by apply Hmono]. intros Hd'. apply Hns', Hst; [|done].
    intros Heq. apply Hnd. apply list_elem_of_In, in_map_iff. by exists j'.
  - done.
  - intros d' x Hin. apply In_snoc_inv in Hin as [Hin|Hin]; [eauto|].
    by injection Hin as -> ->.
  - intros d' ok Hin. apply In_snoc_inv in Hin as [Hin|Hin]; [eauto|done].
  - intros d'. unfold tr'. rewrite starts_snoc.
    destruct (Nat.eqb_spec d d') as [<-|Hne].
    + rewrite (starts_not_started d (trace s) Hns). lia.
    + specialize (H9 d'). lia.
  - intros d' x Hd'. destruct (H10 d' x Hd') as [Hp|[[ok Hj]|Hs]].
    + by left.
    + rewrite Hjobs in Hj. destruct Hj as [Hj|Hj].
      * right. right. apply in_or_app. right. left.
        subst j. cbn in He. unfold d. cbn. congruence.
      * right. left. by exists ok.
    + right. right. apply in_or_app. by left.
  - intros t d' Ht Hd'. apply started_app. eauto.
  - by apply serial_snoc.
Qed.

End SettleInvariant.

Section RunInvariant.
Import Receiver.
Local Open Scope nat_scope.
Context {W : Type}.
Variable throws : effect -> W -> option error.
Implicit Types (s : receiver W) (d : nat).

Lemma extends_log s (o : obs) : extends s (log o s).
Proof. by exists [o]. Qed.

Lemma settle_extends s d (ok : bool) : extends s (settle d ok s).
Proof.
  unfold settle. destruct (promises s !! d) as [[rs| |]|];
    try apply extends_refl.
  by exists [Settled d ok].
Qed.

Lemma trace_do_effect s (o : origin) (eff : effect) :
  trace (do_effect o eff s) = trace s ++ [Performed o eff].
Proof.
  unfold do_effect. destruct eff; try reflexivity.
  unfold queueEnvelope, then_.
  destruct (promises (log (Performed o (QueueEnvelope e)) s) !! _) as [[rs| |]|];
    reflexivity.
Qed.

Lemma tasks_do_effect s (o : origin) (eff : effect) :
  tasks (do_effect o eff s) = tasks s.
Proof.
  unfold do_effect. destruct eff; try reflexivity.
  unfold queueEnvelope, then_.
  destruct (promises (log (Performed o (QueueEnvelope e)) s) !! _) as [[rs| |]|];
    reflexivity.
Qed.

Lemma do_effect_extends s (o : origin) (eff : effect) :
  extends s (do_effect o eff s).
Proof. exists [Performed o eff]. apply trace_do_effect. Qed.

Lemma run_proc_extends (p : proc unit) :
  forall (o : origin) (settles : option nat) s,
    extends s (run_proc throws o settles p s).
Proof.
  induction p as [[]|e|eff k IH|eff k IH|X c k IH|child k IHchild IHk]
    using proc_unit_ind;
    intros o settles s; cbn [run_proc].
  - destruct settles; [apply settle_extends|apply extends_refl].
  - destruct settles; [apply settle_extends|apply extends_refl].
  - eapply extends_trans; [apply do_effect_extends|apply IH].
  - destruct (throws eff (world s)); [apply IH|].
    eapply extends_trans; [apply do_effect_extends|apply IH].
  - exists []. cbn. by rewrite app_nil_r.
  - eapply extends_trans; [apply IHchild|apply IHk].
Qed.




(** An effect keeps the shape of the queue. *)
Lemma Inv_do_effect s (o : origin) (eff : effect) :
  Inv s ->
  (forall d, o = FromEnvelope d -> started d (trace s)) ->
  Inv (do_effect o eff s).
Proof.
  intros HInv Ho.
  assert (Hord : in_order (trace s) (Performed o eff)).
  { destruct o as [i|d|]; cbn; [done| |done]. by apply Ho. }
  destruct eff as [i st m|ev|e|key v|].
  - by apply Inv_log_effect.
  - by apply Inv_log_effect.
  - by apply Inv_queueEnvelope.
  - unfold do_effect. apply Inv_set_storage. by apply Inv_log_effect.
  - by apply Inv_connect.
Qed.

(** Work that runs keeps the shape of the queue, whatever it does and
    whichever promise it settles. *)
Lemma run_proc_Inv (p : proc unit) :
  forall (o : origin) (settles : option nat) s,
    Inv s ->
    (forall d, o = FromEnvelope d -> started d (trace s)) ->
    Inv (run_proc throws o settles p s).
Proof.
  induction p as [[]|e|eff k IH|eff k IH|X c k IH|child k IHchild IHk]
    using proc_unit_ind;
    intros o settles s HInv Ho; cbn [run_proc].
  - destruct settles; [by apply Inv_settle|done].
  - destruct settles; [by apply Inv_settle|done].
  - apply IH; [by apply Inv_do_effect|].
    intros d Hd. eapply extends_started; [apply do_effect_extends|by apply Ho].
  - destruct (throws eff (world s)); [by apply IH|].
    apply IH; [by apply Inv_do_effect|].
    intros d Hd. eapply extends_started; [apply do_effect_extends|by apply Ho].
  - apply Inv_add_task; [done|]. intros d Hd. by apply Ho.
  - apply IHk; [by apply IHchild|].
    intros d Hd. eapply extends_started; [apply run_proc_extends|by apply Ho].
Qed.

Lemma connected_Inv (w : W) : Inv (connected w).
Proof.
  constructor; cbn; try done.
  - intros [|d] rs Hd; done.
  - intros [|d] Hd; [left; by left|].
    destruct Hd as [Hd|Hd]; by destruct d.
  - apply NoDup_nil_2.
  - intros d. lia.
  - apply serial_nil.
Qed.

(** Every step of the event loop keeps the shape of the queue. *)
Lemma exec_Inv
    (handleRequest : Request -> proc unit)
    (handleEnvelope : Envelope -> proc unit)
    (onclose : Z -> proc unit)
    (connect : proc unit)
    (answer : forall X, call X -> W -> (error + X) * W)
    s (a : action) :
  Inv s ->
  Inv
    (match a with
     | Inbound request =>
         run_proc throws (FromRequest (request_id request)) None
                  (handleRequest request) s
     | RunJob =>
         match jobs s with
         | [] => s
         | j :: rest =>
             match job_handler j with
             | Some envelope =>
                 run_proc throws (FromEnvelope (job_derived j)) (Some (job_derived j))
                          (handleEnvelope envelope)
                          (log (Started (job_derived j) envelope) (set_jobs rest s))
             | None => settle (job_derived j) (job_outcome j) (set_jobs rest s)
             end
         end
     | Resume i =>
         match tasks s !! i with
         | Some t =>
             match task_body t with
             | Async.Call c k =>
                 let (r, w) := answer _ c (world s) in
                 run_proc throws (task_origin t) (task_settles t) (k r)
                          (set_world w (set_tasks (delete i (tasks s)) s))
             | _ => s
             end
         | None => s
         end
     | CallConnect => run_proc throws FromConnection None connect s
     | SocketCloses code => run_proc throws FromConnection None (onclose code) s
     end).
Proof.
  intros HInv.
  destruct a as [request| |i| |code]; try (by apply run_proc_Inv).
  - destruct (jobs s) as [|j rest] eqn:Hjobs; [done|].
    destruct (job_handler j) as [e|] eqn:He.
    + apply run_proc_Inv; [by eapply Inv_start_job|].
      intros d [= <-]. exists e. cbn. apply in_or_app. right. by left.
    + destruct (inv_jobs s HInv j) as (e & He' & _); [rewrite Hjobs; by left|].
      congruence.
  - destruct (tasks s !! i) as [t|] eqn:Hi; [|done].
    destruct (task_body t) as [| | | |X c k|] eqn:Hbody; try done.
    destruct (answer X c (world s)) as [r w].
    destruct (Inv_remove_task s i t HInv Hi) as (Ho & HInv').
    apply run_proc_Inv; [by apply Inv_set_world|done].
Qed.

End RunInvariant.

Section EnvelopeQueue.
Import Receiver.
Local Open Scope nat_scope.

Variable signalingKey : list byte.
Variable number : string.
Variable deviceId : Z.
Variables END_SESSION EXPIRATION_TIMER_UPDATE : Z.
Variable Envelope_decode : list byte -> error + Envelope.
Variable Content_decode : option (list byte) -> error + Content.
Variable DataMessage_decode : option (list byte) -> error + DataMessage.
Variable Address_toString : Address -> string.
Variables handleContacts handleGroups : AttachmentPointer -> proc unit.
Context {W : Type}.
Variable answer : forall X, call X -> W -> (error + X) * W.
Variable throws : effect -> W -> option error.

Abbreviation exec :=
  (Receiver.exec signalingKey number deviceId END_SESSION EXPIRATION_TIMER_UPDATE
                 Envelope_decode Content_decode DataMessage_decode
                 Address_toString handleContacts handleGroups answer throws).
Abbreviation run :=
  (Receiver.run signalingKey number deviceId END_SESSION EXPIRATION_TIMER_UPDATE
                Envelope_decode Content_decode DataMessage_decode
                Address_toString handleContacts handleGroups answer throws).

Lemma exec_keeps_Inv (s : receiver W) (a : action) : Inv s -> Inv (exec s a).
Proof. apply exec_Inv. Qed.

Lemma run_keeps_Inv (actions : list action) (s : receiver W) :
  Inv s -> Inv (run actions s).
Proof.
  revert s. induction actions as [|a actions IH]; intros s Hs; [done|].
  cbn. apply IH. by apply exec_keeps_Inv.
Qed.











End EnvelopeQueue.


Section HandleRequest.
Import Receiver.
Local Open Scope nat_scope.

Variable signalingKey : list byte.
Variable number : string.
Variable deviceId : Z.
Variables END_SESSION EXPIRATION_TIMER_UPDATE : Z.
Variable Envelope_decode : list byte -> error + Envelope.
Variable Content_decode : option (list byte) -> error + Content.
Variable DataMessage_decode : option (list byte) -> error + DataMessage.
Variable Address_toString : Address -> string.
Variables handleContacts handleGroups : AttachmentPointer -> proc unit.
Context {W : Type}.
Variable answer : forall X, call X -> W -> (error + X) * W.
Variable throws : effect -> W -> option error.

Abbreviation exec :=
  (Receiver.exec signalingKey number deviceId END_SESSION EXPIRATION_TIMER_UPDATE
                 Envelope_decode Content_decode DataMessage_decode
                 Address_toString handleContacts handleGroups answer throws).

Lemma world_do_effect (s : receiver W) (o : origin) (eff : effect) :
  world (do_effect o eff s) = world s.
Proof.
  unfold do_effect. destruct eff; try reflexivity.
  unfold queueEnvelope, then_.
  destruct (promises (log (Performed o (QueueEnvelope e)) s) !! _) as [[rs| |]|];
    reflexivity.
Qed.

(** The request waits for the signaling key decryption: nothing is
    answered yet. What follows the decryption, by its outcome and by
    what [respond] does on the socket at that time. *)
Lemma inbound_waits (s : receiver W) (request : Request) :
  exists k,
    exec s (Inbound request)
    = set_tasks
        (tasks s
         ++ [mkTask (FromRequest (request_id request)) None
               (Async.Call
                  (DecryptWebsocketMessage (request_body request) signalingKey) k)])
        s
    /\ forall s' : receiver W,
         (forall plaintext envelope,
            Envelope_decode plaintext = inr envelope ->
            throws (Respond (request_id request) 200 "OK") (world s') = None ->
            run_proc throws (FromRequest (request_id request)) None
                     (k (inr plaintext)) s'
            = do_effect (FromRequest (request_id request)) (QueueEnvelope envelope)
                (do_effect (FromRequest (request_id request))
                           (Respond (request_id request) 200 "OK") s'))
         /\ (forall r e,
               match r with
               | inl e' => e' = e
               | inr plaintext =>
                   Envelope_decode plaintext = inl e
                   \/ exists envelope,
                        Envelope_decode plaintext = inr envelope
                        /\ throws (Respond (request_id request) 200 "OK") (world s')
                           = Some e
               end ->
               run_proc throws (FromRequest (request_id request)) None (k r) s'
               = match throws (Respond (request_id request) 500
                                       "Bad encrypted websocket message") (world s') with
                 | Some _ => s'
                 | None =>
                     do_effect (FromRequest (request_id request))
                       (DispatchEvent (EvError e None))
                       (do_effect (FromRequest (request_id request))
                          (Respond (request_id request) 500
                                   "Bad encrypted websocket message") s')
                 end).
Proof.
  eexists. split; [reflexivity|]. intros s'. split.
  - intros plaintext envelope Hdec H200. cbn. rewrite Hdec. cbn. by rewrite H200.
  - intros [e'|plaintext] e Hr; cbn.
    + subst e'. by destruct (throws _ (world s')).
    + destruct Hr as [Hdec|(envelope & Hdec & H200)]; rewrite Hdec; cbn.
      * by destruct (throws _ (world s')).
      * rewrite H200. cbn. by destruct (throws _ (world s')).
Qed.

Lemma resume_last (s : receiver W) (o : origin) (X : Type) (c : call X)
    (k : error + X -> proc unit) :
  resume answer throws (length (tasks s))
         (set_tasks (tasks s ++ [mkTask o None (Async.Call c k)]) s)
  = run_proc throws o None (k (answer X c (world s)).1)
             (set_world (answer X c (world s)).2 s).
Proof.
  unfold resume. cbn [tasks set_tasks world].
  rewrite lookup_app_r by lia. rewrite Nat.sub_diag. cbn.
  destruct (answer X c (world s)) as [r w]. cbn.
  rewrite delete_take_drop.
  rewrite take_app_length.
  rewrite drop_ge by (rewrite length_app; cbn; lia).
  rewrite app_nil_r. by destruct s.
Qed.

Lemma queueEnvelope_new_promise (s : receiver W) (o : origin) (e : Envelope) :
  pending (do_effect o (QueueEnvelope e) s) = length (promises s)
  /\ length (promises (do_effect o (QueueEnvelope e) s)) = S (length (promises s)).
Proof.
  unfold do_effect, queueEnvelope, then_.
  destruct (promises (log (Performed o (QueueEnvelope e)) s) !! _) as [[rs| |]|];
    cbn; rewrite ?length_insert, length_app; cbn; split; lia.
Qed.

(** C1 (as amended): an inbound request gets no answer while the
    signaling key decryption is pending. When it has settled and the
    socket of the request is open, so that [respond] does not throw,
    the request gets exactly one answer: 200 "OK", before the envelope
    is queued, when the decryption succeeded and the plaintext decodes
    as an envelope; 500 "Bad encrypted websocket message" together
    with an [error] event when the decryption failed or the plaintext
    does not decode. When the socket is not open by then, [respond]
    throws, in the [catch] as well: the request gets no answer at all,
    no [error] event is dispatched and no envelope is queued. (Were
    the first [respond] to throw and the second not, the one answer
    would be 500 with the exception of the first as the error.) In
    every case nothing of the request is left waiting after that, so
    no second answer can follow. *)
Theorem handleRequest_responds_once (s : receiver W) (request : Request) :
  trace (exec s (Inbound request)) = trace s
  /\ (forall plaintext w envelope,
        answer _ (DecryptWebsocketMessage (request_body request) signalingKey)
               (world s) = (inr plaintext, w) ->
        Envelope_decode plaintext = inr envelope ->
        throws (Respond (request_id request) 200 "OK") w = None ->
        trace (exec (exec s (Inbound request)) (Resume (length (tasks s))))
        = trace s
          ++ [Performed (FromRequest (request_id request))
                        (Respond (request_id request) 200 "OK");
              Performed (FromRequest (request_id request))
                        (QueueEnvelope envelope)])
  /\ (forall plaintext w e,
        answer _ (DecryptWebsocketMessage (request_body request) signalingKey)
               (world s) = (inr plaintext, w) ->
        Envelope_decode plaintext = inl e ->
        throws (Respond (request_id request) 500
                        "Bad encrypted websocket message") w = None ->
        trace (exec (exec s (Inbound request)) (Resume (length (tasks s))))
        = trace s
          ++ [Performed (FromRequest (request_id request))
                        (Respond (request_id request) 500
                                 "Bad encrypted websocket message");
              Performed (FromRequest (request_id request))
                        (DispatchEvent (EvError e None))])
  /\ (forall e w,
        answer _ (DecryptWebsocketMessage (request_body request) signalingKey)
               (world s) = (inl e, w) ->
        throws (Respond (request_id request) 500
                        "Bad encrypted websocket message") w = None ->
        trace (exec (exec s (Inbound request)) (Resume (length (tasks s))))
        = trace s
          ++ [Performed (FromRequest (request_id request))
                        (Respond (request_id request) 500
                                 "Bad encrypted websocket message");
              Performed (FromRequest (request_id request))
                        (DispatchEvent (EvError e None))])
  /\ (forall r w e200 e500,
        answer _ (DecryptWebsocketMessage (request_body request) signalingKey)
               (world s) = (r, w) ->
        throws (Respond (request_id request) 200 "OK") w = Some e200 ->
        throws (Respond (request_id request) 500
                        "Bad encrypted websocket message") w = Some e500 ->
        trace (exec (exec s (Inbound request)) (Resume (length (tasks s))))
        = trace s
        /\ promises (exec (exec s (Inbound request)) (Resume (length (tasks s))))
           = promises s
        /\ pending (exec (exec s (Inbound request)) (Resume (length (tasks s))))
           = pending s)
  /\ (forall plaintext w envelope e200,
        answer _ (DecryptWebsocketMessage (request_body request) signalingKey)
               (world s) = (inr plaintext, w) ->
        Envelope_decode plaintext = inr envelope ->
        throws (Respond (request_id request) 200 "OK") w = Some e200 ->
        throws (Respond (request_id request) 500
                        "Bad encrypted websocket message") w = None ->
        trace (exec (exec s (Inbound request)) (Resume (length (tasks s))))
        = trace s
          ++ [Performed (FromRequest (request_id request))
                        (Respond (request_id request) 500
                                 "Bad encrypted websocket message");
              Performed (FromRequest (request_id request))
                        (DispatchEvent (EvError e200 None))])
  /\ tasks (exec (exec s (Inbound request)) (Resume (length (tasks s))))
     = tasks s.
Proof.
  destruct (inbound_waits s request) as (k & Hin & Hk).
  rewrite Hin. split; [reflexivity|].
  cbn [Receiver.exec]. rewrite resume_last.
  destruct (answer _ (DecryptWebsocketMessage (request_body request) signalingKey)
                   (world s)) as [r w] eqn:Hans.
  cbn [fst snd].
  destruct (Hk (set_world w s)) as [Hok Hbad]. cbn [world set_world] in Hok, Hbad.
  split; [|split; [|split; [|split; [|split]]]].
  - intros plaintext w' envelope [= -> ->] Hdec H200.
    rewrite (Hok _ _ Hdec H200). rewrite !trace_do_effect. cbn.
    by rewrite <- app_assoc.
  - intros plaintext w' e [= -> ->] Hdec H500.
    rewrite (Hbad (inr plaintext) e) by (by left). rewrite H500.
    rewrite !trace_do_effect. cbn. by rewrite <- app_assoc.
  - intros e w' [= -> ->] H500.
    rewrite (Hbad (inl e) e) by done. rewrite H500.
    rewrite !trace_do_effect. cbn. by rewrite <- app_assoc.
  - intros r' w' e200 e500 [= -> ->] H200 H500.
    assert (Hsame : run_proc throws (FromRequest (request_id request)) None (k r')
                             (set_world w' s) = set_world w' s).
    { destruct r' as [e|plaintext].
      - rewrite (Hbad (inl e) e) by done. by rewrite H500.
      - destruct (Envelope_decode plaintext) as [e|envelope] eqn:Hdec.
        + rewrite (Hbad (inr plaintext) e) by (by left). by rewrite H500.
        + rewrite (Hbad (inr plaintext) e200) by (right; by exists envelope).
          by rewrite H500. }
    by rewrite Hsame.
  - intros plaintext w' envelope e200 [= -> ->] Hdec H200 H500.
    rewrite (Hbad (inr plaintext) e200) by (right; by exists envelope).
    rewrite H500. rewrite !trace_do_effect. cbn. by rewrite <- app_assoc.
  - destruct (throws (Respond (request_id request) 500
                              "Bad encrypted websocket message") w) as [e500|] eqn:H500;
      destruct r as [e|plaintext].
    + rewrite (Hbad (inl e) e) by done. by rewrite ?H500.
    + destruct (Envelope_decode plaintext) as [e|envelope] eqn:Hdec.
      * rewrite (Hbad (inr plaintext) e) by (by left). by rewrite ?H500.
      * destruct (throws (Respond (request_id request) 200 "OK") w) as [e200|] eqn:H200.
        -- rewrite (Hbad (inr plaintext) e200) by (right; by exists envelope).
           by rewrite ?H500.
        -- rewrite (Hok _ _ Hdec eq_refl). by rewrite !tasks_do_effect.
    + rewrite (Hbad (inl e) e) by done. rewrite ?H500. by rewrite !tasks_do_effect.
    + destruct (Envelope_decode plaintext) as [e|envelope] eqn:Hdec.
      * rewrite (Hbad (inr plaintext) e) by (by left). rewrite ?H500.
        by rewrite !tasks_do_effect.
      * destruct (throws (Respond (request_id request) 200 "OK") w) as [e200|] eqn:H200.
        -- rewrite (Hbad (inr plaintext) e200) by (right; by exists envelope).
           rewrite ?H500. by rewrite !tasks_do_effect.
        -- rewrite (Hok _ _ Hdec eq_refl). by rewrite !tasks_do_effect.
Qed.

(** C8: an envelope whose source is in the stored list of blocked
    numbers is answered with 200 (on a socket that is open, as the
    claim supposes) and then given to [queueEnvelope] like any other:
    a new promise joins the queue for its handler. *)
Theorem blocked_sender_is_queued (s : receiver W) (request : Request)
    (plaintext : list byte) (w : W) (envelope : Envelope)
    (numbers : list string) :
  storage s !! "blocked"%string = Some numbers ->
  In (source envelope) numbers ->
  answer _ (DecryptWebsocketMessage (request_body request) signalingKey)
         (world s) = (inr plaintext, w) ->
  Envelope_decode plaintext = inr envelope ->
  throws (Respond (request_id request) 200 "OK") w = None ->
  trace (exec (exec s (Inbound request)) (Resume (length (tasks s))))
  = trace s
    ++ [Performed (FromRequest (request_id request))
                  (Respond (request_id request) 200 "OK");
        Performed (FromRequest (request_id request)) (QueueEnvelope envelope)]
  /\ pending (exec (exec s (Inbound request)) (Resume (length (tasks s))))
     = length (promises s)
  /\ length (promises (exec (exec s (Inbound request))
                            (Resume (length (tasks s)))))
     = S (length (promises s)).
Proof.
  intros _ _ Hans Hdec H200.
  destruct (inbound_waits s request) as (k & Hin & Hk).
  rewrite Hin. cbn [Receiver.exec]. rewrite resume_last.
  rewrite Hans. cbn [fst snd].
  destruct (Hk (set_world w s)) as [Hok _]. rewrite (Hok _ _ Hdec H200).
  split; [rewrite !trace_do_effect; cbn; by rewrite <- app_assoc|].
  apply (queueEnvelope_new_promise
           (do_effect (FromRequest (request_id request))
                      (Respond (request_id request) 200 "OK") (set_world w s))).
Qed.

End HandleRequest.


Lemma handleRequest_responds_once_witness :
  Receiver.trace
    (Scenario.exec
       (Scenario.exec (Receiver.connected tt) (Receiver.Inbound Scenario.hello_request))
       (Receiver.Resume 0))
  = [Receiver.Performed (Receiver.FromRequest 11) (Receiver.Respond 11 200 "OK");
     Receiver.Performed (Receiver.FromRequest 11)
                        (Receiver.QueueEnvelope Scenario.hello_envelope)].
Proof.
  destruct (handleRequest_responds_once [] Scenario.alice 2 1 2
              Scenario.Envelope_decode Scenario.Content_decode
              Scenario.DataMessage_decode Scenario.Address_toString
              Scenario.no_blob Scenario.no_blob Scenario.answer
              Scenario.open_socket
              (Receiver.connected tt) Scenario.hello_request)
    as (_ & H & _).
  exact (H (x01 :: Scenario.hello_padded) tt Scenario.hello_envelope
           eq_refl eq_refl eq_refl).
Defined.

(** C1 (counterexample): the signaling key decryption of the body
    succeeds, but the plaintext is not an envelope; the one answer is 500
    and an [error] event is dispatched, not 200. *)
Lemma undecodable_envelope_gets_500 :
  Scenario.answer _ (Receiver.DecryptWebsocketMessage (Some [x09]) []) tt
  = (inr [x09], tt)
  /\ Receiver.trace
       (Scenario.run
          [Receiver.Inbound (Receiver.mkRequest 11 (Some [x09])); Receiver.Resume 0]
          (Receiver.connected tt))
     = [Receiver.Performed (Receiver.FromRequest 11)
          (Receiver.Respond 11 500 "Bad encrypted websocket message");
        Receiver.Performed (Receiver.FromRequest 11)
          (Receiver.DispatchEvent
             (Receiver.EvError (Receiver.Error "illegal buffer" None) None))].
Proof. split; reflexivity. Qed.

(** The socket is closed when the signaling key decryption has
    settled: [respond] throws, in the [catch] as well; the request
    gets no answer, no event is dispatched and the envelope, which
    decodes, is not queued. *)
Example closed_socket_gets_no_response :
  Scenario.Envelope_decode (x01 :: Scenario.hello_padded)
  = inr Scenario.hello_envelope
  /\ Receiver.trace
       (Receiver.run [] Scenario.alice 2 1 2
          Scenario.Envelope_decode Scenario.Content_decode
          Scenario.DataMessage_decode Scenario.Address_toString
          Scenario.no_blob Scenario.no_blob Scenario.answer Scenario.closed_socket
          [Receiver.Inbound Scenario.hello_request; Receiver.Resume 0]
          (Receiver.connected tt))
     = []
  /\ Receiver.promises
       (Receiver.run [] Scenario.alice 2 1 2
          Scenario.Envelope_decode Scenario.Content_decode
          Scenario.DataMessage_decode Scenario.Address_toString
          Scenario.no_blob Scenario.no_blob Scenario.answer Scenario.closed_socket
          [Receiver.Inbound Scenario.hello_request; Receiver.Resume 0]
          (Receiver.connected tt))
     = [Receiver.Fulfilled].
Proof. repeat split. Qed.

Lemma blocked_sender_is_queued_witness :
  Receiver.trace
    (Scenario.exec
       (Scenario.exec Scenario.blocked_receiver (Receiver.Inbound Scenario.hello_request))
       (Receiver.Resume 0))
  = [Receiver.Performed (Receiver.FromRequest 11) (Receiver.Respond 11 200 "OK");
     Receiver.Performed (Receiver.FromRequest 11)
                        (Receiver.QueueEnvelope Scenario.hello_envelope)]
  /\ Receiver.pending
       (Scenario.exec
          (Scenario.exec Scenario.blocked_receiver
                         (Receiver.Inbound Scenario.hello_request))
          (Receiver.Resume 0)) = 1%nat
  /\ length
       (Receiver.promises
          (Scenario.exec
             (Scenario.exec Scenario.blocked_receiver
                            (Receiver.Inbound Scenario.hello_request))
             (Receiver.Resume 0))) = 2%nat.
Proof.
  apply (blocked_sender_is_queued [] Scenario.alice 2 1 2
           Scenario.Envelope_decode Scenario.Content_decode
           Scenario.DataMessage_decode Scenario.Address_toString
           Scenario.no_blob Scenario.no_blob Scenario.answer Scenario.open_socket
           Scenario.blocked_receiver Scenario.hello_request
           (x01 :: Scenario.hello_padded) tt Scenario.hello_envelope
           [Scenario.alice]).
  - reflexivity.
  - left. reflexivity.
  - reflexivity.
  - reflexivity.
  - reflexivity.
Defined.

(** The envelope of the blocked sender goes all the way: its handler
    runs and the [message] event is dispatched. *)
Example blocked_sender_message_dispatched :
  In (Receiver.Performed (Receiver.FromEnvelope 1)
        (Receiver.DispatchEvent
           (Receiver.EvMessage Scenario.alice 1000
              (Receiver.mkDataMessage (Some "hello"%string) [] None (Some 0%Z)
                                      (Some 0%Z)))))
     (Receiver.trace
        (Scenario.run
           [Receiver.Inbound Scenario.hello_request; Receiver.Resume 0;
            Receiver.RunJob; Receiver.Resume 0]
           Scenario.blocked_receiver)).
Proof. vm_compute. do 3 right. by left. Qed.


(** The queue does not order the envelopes of two connections: the
    handler of the first envelope waits for the session cipher when
    the socket closes and the receiver connects again; the receipt
    that arrives on the new connection is handled, from start to end,
    before the handler of the first envelope goes on. *)
Example reconnect_restarts_queue :
  List.filter
    (fun o => match o with
              | Receiver.Started _ _ | Receiver.Settled _ _ => true
              | _ => false
              end)
    (Receiver.trace
       (Scenario.run Scenario.reconnect_in_between (Receiver.connected tt)))
  = [Receiver.Started 1 Scenario.hello_envelope;
     Receiver.Started 3 Scenario.receipt_envelope;
     Receiver.Settled 3 true;
     Receiver.Settled 1 true].
Proof. reflexivity. Qed.

Section Silent.
Import Receiver.










Section WithParameters.
Variable number : string.
Variables END_SESSION EXPIRATION_TIMER_UPDATE : Z.
Variable DataMessage_decode : option (list byte) -> error + DataMessage.
Variable Address_fromString : string -> error + Address.
Variable Address_toString : Address -> string.
Variable sync_not_null : DataMessage -> bool.





End WithParameters.


End Silent.

Section TryMessageAgain.
Import Receiver.

Variable number : string.
Variables END_SESSION EXPIRATION_TIMER_UPDATE : Z.
Variable DataMessage_decode : option (list byte) -> error + DataMessage.
Variable Address_fromString : string -> error + Address.
Variable Address_toString : Address -> string.
Variable sync_not_null : DataMessage -> bool.
Context {W : Type}.
Variable answer : forall X, call X -> W -> (error + X) * W.
Variable throws : effect -> W -> option error.

Abbreviation tryAgain :=
  (tryMessageAgain number END_SESSION EXPIRATION_TIMER_UPDATE DataMessage_decode
                   Address_fromString Address_toString sync_not_null).


End TryMessageAgain.



Section PaddingShape.
Import Padding.

(** Every buffer is zeros only, or ends in a non-zero byte followed by
    zeros. *)
Lemma trailing_zeros (p : list byte) :
  (exists k, p = replicate k x00)
  \/ (exists q b k, p = q ++ b :: replicate k x00 /\ b <> x00).
Proof.
  induction p as [|b p IH] using rev_ind.
  - left. by exists 0%nat.
  - destruct (Byte.byte_eq_dec b x00) as [-> |Hb].
    + destruct IH as [[k ->]|(q & b' & k & -> & Hb')].
      * left. exists (S k). by rewrite replicate_S_end.
      * right. exists q, b', (S k). split; [|done].
        by rewrite <- app_assoc, <- app_comm_cons, replicate_S_end.
    + right. by exists p, b, 0%nat.
Qed.

Lemma unpad_zeros (k : nat) : unpad (replicate k x00) = Returned None.
Proof.
  unfold unpad. rewrite length_replicate.
  assert (H : forall j, (j <= k)%nat ->
              unpad_from (replicate k x00) j = Returned None).
  { induction j as [|j IH]; intros Hj; [done|].
    cbn [unpad_from]. rewrite lookup_replicate_2 by lia.
    cbn. apply IH. lia. }
  by apply H.
Qed.

Lemma unpad_padded (q : list byte) (k : nat) :
  unpad (q ++ x80 :: replicate k x00) = Returned (Some q).
Proof.
  unfold unpad.
  rewrite length_app. cbn [length]. rewrite length_replicate.
  replace (length q + S k)%nat with (length q + 1 + k)%nat by lia.
  rewrite unpad_from_skip_zeros by lia.
  by rewrite unpad_from_sentinel.
Qed.

(** X1: what [unpad] does on every buffer. A buffer of zeros only (the
    empty one included) gives [undefined]; a buffer that ends in 0x80
    followed by zeros gives the bytes before the 0x80; every other
    buffer, one whose last non-zero byte is not 0x80, throws "Invalid
    padding". *)
Theorem unpad_cases (p : list byte) :
  (exists k, p = replicate k x00 /\ unpad p = Returned None)
  \/ (exists q k, p = pad q k /\ unpad p = Returned (Some q))
  \/ (exists q b k,
        p = q ++ b :: replicate k x00 /\ b <> x80 /\ b <> x00
        /\ unpad p = Thrown "Invalid padding").
Proof.
  destruct (trailing_zeros p) as [[k ->]|(q & b & k & -> & Hb)].
  - left. exists k. split; [done|apply unpad_zeros].
  - right. destruct (Byte.byte_eq_dec b x80) as [-> |Hb'].
    + left. exists q, k. split; [done|apply unpad_padded].
    + right. exists q, b, k. repeat split; try done.
      by apply unpad_bad_sentinel.
Qed.

(** X2: [unpad] returns bytes only for a padded buffer: when it returns
    [q] for [p], then [p] is [q], the byte 0x80 and zeros, so padding
    what [unpad] returned with the same number of zeros gives [p]
    back. *)
Theorem unpad_returns_only_from_padded (p q : list byte) :
  unpad p = Returned (Some q) ->
  p = pad q (length p - length q - 1).
Proof.
  intros Hq.
  destruct (trailing_zeros p) as [[k ->]|(q' & b & k & -> & Hb)].
  - by rewrite unpad_zeros in Hq.
  - destruct (Byte.byte_eq_dec b x80) as [-> |Hb'].
    + rewrite unpad_padded in Hq. injection Hq as ->.
      unfold pad. rewrite length_app. cbn [length]. rewrite length_replicate.
      by replace (length q + S k - length q - 1)%nat with k by lia.
    + by rewrite unpad_bad_sentinel in Hq.
Qed.

End PaddingShape.

Lemma unpad_returns_only_from_padded_witness :
  [x68; x69; x80; x00] = Padding.pad [x68; x69] (4 - 2 - 1).
Proof.
  apply (unpad_returns_only_from_padded [x68; x69; x80; x00] [x68; x69]).
  reflexivity.
Defined.

Section CorrelationFacts.
Import Transport Correlation.
Local Open Scope wsr_scope.

Variable handleRequest : option (Request -> list (Z * string)).

(** The request [new_Request] builds from the options in a state. *)
Lemma new_Request_fields (o : options) (s : wsr) :
  exists r s',
    new_Request o s = (Returned r, s')
    /\ verb r = or_string (opt_verb o) (opt_type o)
    /\ path r = or_string (opt_path o) (opt_url o)
    /\ body r = or_object (opt_body o) (opt_data o)
    /\ success r = opt_success o
    /\ error r = opt_error o
    /\ (forall i, opt_id o = Some i -> id r = i /\ s' = s)
    /\ socket s' = socket s
    /\ outgoingRequests s' = outgoingRequests s
    /\ out s' = out s
    /\ keepAliveTimer s' = keepAliveTimer s
    /\ disconnectTimer s' = disconnectTimer s
    /\ now s' = now s.
Proof.
  unfold new_Request, bind, randomBytes, ret.
  destruct (opt_id o) as [i|]; do 2 eexists; (split; [reflexivity|]);
    cbn; repeat split; try done.
  all: congruence.
Qed.

(** [sendRequest] on an open socket. *)
Lemma sendRequest_open (o : options) (s : wsr) :
  socket s = Some OPEN ->
  exists r s1,
    sendRequest o s = (Returned r, s1)
    /\ success r = opt_success o
    /\ error r = opt_error o
    /\ (forall i, opt_id o = Some i -> id r = i)
    /\ socket s1 = Some OPEN
    /\ outgoingRequests s1 = <[Ids.toNumber (id r) := r]> (outgoingRequests s)
    /\ out s1 = out s ++ [Sent (REQUEST (verb r) (path r) (body r) (id r))]
    /\ keepAliveTimer s1 = keepAliveTimer s
    /\ disconnectTimer s1 = disconnectTimer s.
Proof.
  intros Hs.
  destruct (new_Request_fields o s)
    as (r & s' & Hnew & _ & _ & _ & Hsu & Her & Hid & Hso & Hta & Hou & Hk & Hd & _).
  unfold sendRequest, bind. rewrite Hnew.
  unfold modify, send, socket_send, bind, gets, emit, modify, ret. cbn.
  rewrite Hso, Hs. cbn.
  do 2 eexists. split; [reflexivity|]. cbn.
  rewrite Hta, Hou, Hk, Hd. repeat split; try done.
  - intros i Hi. by destruct (Hid i Hi).
  - congruence.
Qed.

(** [onMessage] on a response whose key is in the table. *)
Lemma onMessage_matched (s : wsr) (r : Request) (i status : Z)
    (msg : option string) :
  outgoingRequests s !! Ids.toNumber i = Some r ->
  exists s2,
    onMessage handleRequest (RESPONSE i status msg) s = (Returned tt, s2)
    /\ outgoingRequests s2 = delete (Ids.toNumber i) (outgoingRequests s)
    /\ socket s2 = socket s
    /\ out s2 = out s ++ invocation (chosen r status) msg status (id r).
Proof.
  intros Hr. unfold onMessage, async, bind, gets. cbn. rewrite Hr.
  unfold modify. cbn. unfold chosen, is_2xx.
  destruct ((200 <=? status) && (status <? 300));
    [destruct (success r) as [[|tag]|]|destruct (error r) as [[|tag]|]];
    cbn; eexists; (split; [reflexivity|]); cbn; rewrite ?app_nil_r; done.
Qed.

(** [onMessage] on a response whose key is not in the table. *)
Lemma onMessage_unmatched (s : wsr) (i status : Z) (msg : option string) :
  outgoingRequests s !! Ids.toNumber i = None ->
  onMessage handleRequest (RESPONSE i status msg) s
  = (Returned tt,
     set_out (out s ++ [Rejected "ReferenceError: Unmatched WebSocket Response"]) s).
Proof.
  intros Hr. unfold onMessage, async, bind, gets. cbn. by rewrite Hr.
Qed.

Lemma filter_Invoked_invocation (cb : option callback) (msg : option string)
    (status i : Z) :
  List.filter is_Invoked (invocation cb msg status i) = invocation cb msg status i.
Proof. by destruct cb as [[|tag]|]. Qed.

(** X3: a request sent on an open socket is in the table under its id
    until its response arrives; the response takes it out of the table
    and calls the function the request has for the status, [success]
    for a status in [200,300) and [error] for any other, with the
    message, the status and the request, if the request has that
    function, and never the other one: of the consumer's functions at
    most one is called, and none when the request has no function for
    the status (it leaves the table all the same). *)
Theorem response_calls_one_callback (o : options) (s : wsr) :
  socket s = Some OPEN ->
  exists r s1,
    sendRequest o s = (Returned r, s1)
    /\ outgoingRequests s1 !! Ids.toNumber (id r) = Some r
    /\ List.filter is_Invoked (out s1) = List.filter is_Invoked (out s)
    /\ forall status msg,
         exists s2,
           onMessage handleRequest (RESPONSE (id r) status msg) s1
           = (Returned tt, s2)
           /\ outgoingRequests s2 !! Ids.toNumber (id r) = None
           /\ List.filter is_Invoked (out s2)
              = List.filter is_Invoked (out s)
                ++ invocation (if is_2xx status then opt_success o else opt_error o)
                              msg status (id r).
Proof.
  intros Hs.
  destruct (sendRequest_open o s Hs)
    as (r & s1 & Hsend & Hsu & Her & _ & Hso & Hta & Hou & _).
  exists r, s1. split; [done|].
  assert (Hin : outgoingRequests s1 !! Ids.toNumber (id r) = Some r)
    by (rewrite Hta; apply lookup_insert_eq).
  assert (Hf : List.filter is_Invoked (out s1) = List.filter is_Invoked (out s)).
  { rewrite Hou, List.filter_app. cbn. apply app_nil_r. }
  split; [done|]. split; [done|].
  intros status msg.
  destruct (onMessage_matched s1 r (id r) status msg Hin)
    as (s2 & Hon & Hta2 & _ & Hou2).
  exists s2. split; [done|]. split.
  - rewrite Hta2. apply lookup_delete_eq.
  - rewrite Hou2, List.filter_app, Hf, filter_Invoked_invocation.
    unfold chosen. by rewrite Hsu, Her.
Qed.

(** X4: a response is used once. When the response to a request has
    been handled, a second response with the same id matches nothing:
    the promise of [onMessage] rejects with the unmatched response
    error, no function is called, the table is as it was and the
    socket stays open. *)
Theorem second_response_is_unmatched (o : options) (s : wsr)
    (status status' : Z) (msg msg' : option string) :
  socket s = Some OPEN ->
  exists r s1 s2,
    sendRequest o s = (Returned r, s1)
    /\ onMessage handleRequest (RESPONSE (id r) status msg) s1 = (Returned tt, s2)
    /\ onMessage handleRequest (RESPONSE (id r) status' msg') s2
       = (Returned tt,
          set_out (out s2 ++ [Rejected "ReferenceError: Unmatched WebSocket Response"])
                  s2)
    /\ socket s2 = Some OPEN.
Proof.
  intros Hs.
  destruct (sendRequest_open o s Hs)
    as (r & s1 & Hsend & _ & _ & _ & Hso & Hta & _).
  assert (Hin : outgoingRequests s1 !! Ids.toNumber (id r) = Some r)
    by (rewrite Hta; apply lookup_insert_eq).
  destruct (onMessage_matched s1 r (id r) status msg Hin)
    as (s2 & Hon & Hta2 & Hso2 & _).
  exists r, s1, s2. split; [done|]. split; [done|]. split.
  - apply onMessage_unmatched. rewrite Hta2. apply lookup_delete_eq.
  - congruence.
Qed.

(** X5: responses are matched by the double [toNumber] makes of the id,
    not by the 64-bit id. A response whose id differs from the id of a
    pending request but rounds to the same double is taken as the answer
    to that request: the request leaves the table and its function is
    called. *)
Theorem response_matched_by_double (o : options) (s : wsr) (i j status : Z)
    (msg : option string) :
  socket s = Some OPEN ->
  opt_id o = Some i ->
  i <> j ->
  Ids.toNumber i = Ids.toNumber j ->
  exists r s1 s2,
    sendRequest o s = (Returned r, s1)
    /\ id r = i
    /\ onMessage handleRequest (RESPONSE j status msg) s1 = (Returned tt, s2)
    /\ outgoingRequests s2 !! Ids.toNumber i = None
    /\ out s2
       = out s1
         ++ invocation (if is_2xx status then opt_success o else opt_error o)
                       msg status i.
Proof.
  intros Hs Ho _ Hij.
  destruct (sendRequest_open o s Hs)
    as (r & s1 & Hsend & Hsu & Her & Hid & Hso & Hta & _).
  specialize (Hid i Ho).
  assert (Hin : outgoingRequests s1 !! Ids.toNumber j = Some r).
  { rewrite Hta, Hid, Hij. apply lookup_insert_eq. }
  destruct (onMessage_matched s1 r j status msg Hin)
    as (s2 & Hon & Hta2 & _ & Hou2).
  exists r, s1, s2. repeat split; try done.
  - rewrite Hta2, Hij. apply lookup_delete_eq.
  - rewrite Hou2. unfold chosen. by rewrite Hsu, Her, Hid.
Qed.

(** X6: a request sent with the id of a request that is still pending
    takes its place in the table. The response goes to the later
    request only, and the earlier request is never answered: after
    that response the table has no entry for the id. *)
Theorem later_request_replaces_pending (o1 o2 : options) (s : wsr) (i status : Z)
    (msg : option string) :
  socket s = Some OPEN ->
  opt_id o1 = Some i ->
  opt_id o2 = Some i ->
  exists r1 s1 r2 s2 s3,
    sendRequest o1 s = (Returned r1, s1)
    /\ sendRequest o2 s1 = (Returned r2, s2)
    /\ outgoingRequests s2 !! Ids.toNumber i = Some r2
    /\ onMessage handleRequest (RESPONSE i status msg) s2 = (Returned tt, s3)
    /\ outgoingRequests s3 = delete (Ids.toNumber i) (outgoingRequests s)
    /\ List.filter is_Invoked (out s3)
       = List.filter is_Invoked (out s)
         ++ invocation (if is_2xx status then opt_success o2 else opt_error o2)
                       msg status i.
Proof.
  intros Hs H1 H2.
  destruct (sendRequest_open o1 s Hs)
    as (r1 & s1 & Hsend1 & _ & _ & Hid1 & Hso1 & Hta1 & Hou1 & _).
  destruct (sendRequest_open o2 s1 Hso1)
    as (r2 & s2 & Hsend2 & Hsu & Her & Hid2 & Hso2 & Hta2 & Hou2 & _).
  specialize (Hid1 i H1). specialize (Hid2 i H2).
  assert (Hin : outgoingRequests s2 !! Ids.toNumber i = Some r2).
  { rewrite Hta2, Hid2. apply lookup_insert_eq. }
  destruct (onMessage_matched s2 r2 i status msg Hin)
    as (s3 & Hon & Hta3 & _ & Hou3).
  exists r1, s1, r2, s2, s3. repeat split; try done.
  - rewrite Hta3, Hta2, Hta1, Hid1, Hid2.
    by rewrite delete_insert_eq, delete_insert_eq.
  - rewrite Hou3, Hou2, Hou1, !List.filter_app, filter_Invoked_invocation.
    cbn. rewrite !app_nil_r. unfold chosen. by rewrite Hsu, Her, Hid2.
Qed.

(** X7: [sendRequest] puts the request into the table before it sends.
    On a socket that is not open (it is [null], connecting or closing)
    the call throws, nothing is sent, and the request stays in the
    table all the same. *)
Theorem sendRequest_not_open_leaves_entry (o : options) (s : wsr) :
  socket s <> Some OPEN ->
  exists e s' r,
    sendRequest o s = (Thrown e, s')
    /\ outgoingRequests s' = <[Ids.toNumber (id r) := r]> (outgoingRequests s)
    /\ success r = opt_success o
    /\ error r = opt_error o
    /\ out s' = out s.
Proof.
  intros Hs.
  destruct (new_Request_fields o s)
    as (r & s' & Hnew & _ & _ & _ & Hsu & Her & _ & Hso & Hta & Hou & _).
  unfold sendRequest, bind. rewrite Hnew.
  unfold modify, send, socket_send, bind, gets, emit, modify, ret, throw. cbn.
  rewrite Hso.
  destruct (socket s) as [[]|] eqn:Hsock; try done;
    do 3 eexists; (split; [reflexivity|]); cbn; rewrite Hta, Hou; done.
Qed.

End CorrelationFacts.

Lemma response_calls_one_callback_witness :
  exists r s1,
    Transport.sendRequest Transport.example_options Transport.example_resource
    = (Returned r, s1)
    /\ Transport.outgoingRequests s1 !! Ids.toNumber (Transport.id r) = Some r
    /\ List.filter Transport.is_Invoked (Transport.out s1)
       = List.filter Transport.is_Invoked (Transport.out Transport.example_resource)
    /\ forall status msg,
         exists s2,
           Transport.onMessage None
             (Transport.RESPONSE (Transport.id r) status msg) s1
           = (Returned tt, s2)
           /\ Transport.outgoingRequests s2 !! Ids.toNumber (Transport.id r) = None
           /\ List.filter Transport.is_Invoked (Transport.out s2)
              = List.filter Transport.is_Invoked
                  (Transport.out Transport.example_resource)
                ++ Correlation.invocation
                     (if Correlation.is_2xx status
                      then Transport.opt_success Transport.example_options
                      else Transport.opt_error Transport.example_options)
                     msg status (Transport.id r).
Proof.
  apply (response_calls_one_callback None Transport.example_options
           Transport.example_resource).
  reflexivity.
Defined.

Lemma second_response_is_unmatched_witness :
  exists r s1 s2,
    Transport.sendRequest Transport.example_options Transport.example_resource
    = (Returned r, s1)
    /\ Transport.onMessage None (Transport.RESPONSE (Transport.id r) 200 None) s1
       = (Returned tt, s2)
    /\ Transport.onMessage None (Transport.RESPONSE (Transport.id r) 500 None) s2
       = (Returned tt,
          Transport.set_out
            (Transport.out s2
             ++ [Transport.Rejected "ReferenceError: Unmatched WebSocket Response"])
            s2)
    /\ Transport.socket s2 = Some Transport.OPEN.
Proof.
  apply (second_response_is_unmatched None Transport.example_options
           Transport.example_resource 200 500 None None).
  reflexivity.
Defined.

Lemma response_matched_by_double_witness :
  exists r s1 s2,
    Transport.sendRequest Correlation.large_id_options Transport.example_resource
    = (Returned r, s1)
    /\ Transport.id r = 2^53
    /\ Transport.onMessage None (Transport.RESPONSE (2^53 + 1) 200 None) s1
       = (Returned tt, s2)
    /\ Transport.outgoingRequests s2 !! Ids.toNumber (2^53) = None
    /\ Transport.out s2
       = Transport.out s1
         ++ Correlation.invocation
              (if Correlation.is_2xx 200
               then Transport.opt_success Correlation.large_id_options
               else Transport.opt_error Correlation.large_id_options)
              None 200 (2^53).
Proof.
  apply (response_matched_by_double None Correlation.large_id_options
           Transport.example_resource (2^53) (2^53 + 1) 200 None).
  - reflexivity.
  - reflexivity.
  - lia.
  - reflexivity.
Defined.

Lemma later_request_replaces_pending_witness :
  exists r1 s1 r2 s2 s3,
    Transport.sendRequest Transport.example_options Transport.example_resource
    = (Returned r1, s1)
    /\ Transport.sendRequest Correlation.second_options s1 = (Returned r2, s2)
    /\ Transport.outgoingRequests s2 !! Ids.toNumber 42 = Some r2
    /\ Transport.onMessage None (Transport.RESPONSE 42 200 None) s2
       = (Returned tt, s3)
    /\ Transport.outgoingRequests s3
       = delete (Ids.toNumber 42)
                (Transport.outgoingRequests Transport.example_resource)
    /\ List.filter Transport.is_Invoked (Transport.out s3)
       = List.filter Transport.is_Invoked (Transport.out Transport.example_resource)
         ++ Correlation.invocation
              (if Correlation.is_2xx 200
               then Transport.opt_success Correlation.second_options
               else Transport.opt_error Correlation.second_options)
              None 200 42.
Proof.
  apply (later_request_replaces_pending None Transport.example_options
           Correlation.second_options Transport.example_resource 42 200 None);
    reflexivity.
Defined.

Lemma sendRequest_not_open_leaves_entry_witness :
  exists e s' r,
    Transport.sendRequest Transport.example_options
      (Transport.set_socket None Transport.example_resource)
    = (Thrown e, s')
    /\ Transport.outgoingRequests s'
       = <[Ids.toNumber (Transport.id r) := r]>
           (Transport.outgoingRequests
              (Transport.set_socket None Transport.example_resource))
    /\ Transport.success r = Transport.opt_success Transport.example_options
    /\ Transport.error r = Transport.opt_error Transport.example_options
    /\ Transport.out s'
       = Transport.out (Transport.set_socket None Transport.example_resource).
Proof.
  apply (sendRequest_not_open_leaves_entry Transport.example_options
           (Transport.set_socket None Transport.example_resource)).
  discriminate.
Defined.

Section HandlerAndClose.
Import Transport Correlation.
Local Open Scope wsr_scope.

Variable handleRequest : option (Request -> list (Z * string)).

Lemma respond_all_open (r : Request) (answers : list (Z * string)) (s : wsr) :
  socket s = Some OPEN ->
  fold_right (fun a k => respond r a.1 a.2 ;; k) (ret tt) answers s
  = (Returned tt,
     set_out (out s ++ map (fun a : Z * string =>
                              Sent (RESPONSE (id r) a.1 (Some a.2))) answers) s).
Proof.
  revert s. induction answers as [|a answers IH]; intros s Hs; cbn.
  - unfold ret. rewrite app_nil_r. by destruct s.
  - unfold bind at 1, respond, socket_send, bind, gets, emit, modify. cbn.
    rewrite Hs. cbn. rewrite IH by done. cbn.
    rewrite <- app_assoc. reflexivity.
Qed.

(** X8: an inbound request on an open socket is given to the handler as
    a request with the frame's id, and everything the handler answers is
    sent as a response with that id, in the handler's order; without a
    handler of the consumer the one answer is 404 "Not found". An empty
    verb or path reaches the handler as [undefined]. Nothing else
    changes: no random bytes are drawn and the table is as it was. *)
Theorem inbound_request_answered (s : wsr) (v p : option string)
    (b : option (list byte)) (i : Z) :
  socket s = Some OPEN ->
  onMessage handleRequest (REQUEST v p b i) s
  = (Returned tt,
     set_out
       (out s
        ++ responses handleRequest
             (mkRequest (or_string v None) (or_string p None) b None None i))
       s).
Proof.
  intros Hs. unfold onMessage, async, bind at 1, new_Request, bind, ret. cbn.
  replace (or_object b None) with b by (by destruct b).
  unfold handle, responses. destruct handleRequest as [h|].
  - by rewrite respond_all_open.
  - unfold respond, socket_send, bind, gets, emit, modify. cbn. by rewrite Hs.
Qed.

(** X9: [close] always leaves the resource without socket, sends at most
    one close to the socket, never with code 0 (a missing code and the
    code 0 become 3000), and none when there is no socket or the socket
    is closed already; a second [close] changes nothing. *)
Theorem close_once (s : wsr) (code : option Z) (reason : option string) :
  exists s1,
    close code reason s = (Returned tt, s1)
    /\ socket s1 = None
    /\ (out s1 = out s
        \/ exists c,
             out s1 = out s ++ [SocketClose c reason] /\ c <> 0
             /\ (code = None \/ code = Some 0 -> c = 3000)
             /\ (forall c', code = Some c' -> c' <> 0 -> c = c'))
    /\ (socket s = None \/ socket s = Some CLOSED -> out s1 = out s)
    /\ forall code' reason', close code' reason' s1 = (Returned tt, s1).
Proof.
  unfold close, bind, gets, modify, emit, ret.
  destruct s as [so og ls k kt dt n en cu ou]. cbn.
  assert (Hcode : forall cd : option Z,
            match cd with
            | Some c => if c =? 0 then 3000 else c
            | None => 3000
            end <> 0
            /\ (cd = None \/ cd = Some 0 ->
                match cd with
                | Some c => if c =? 0 then 3000 else c
                | None => 3000
                end = 3000)
            /\ (forall c', cd = Some c' -> c' <> 0 ->
                match cd with
                | Some c => if c =? 0 then 3000 else c
                | None => 3000
                end = c')).
  { intros [c|]; [destruct (Z.eqb_spec c 0)|]; repeat split; try done;
      try lia; try (intros [|]; congruence); try congruence. }
  destruct so as [[]|]; cbn; eexists; (split; [reflexivity|]); cbn;
    (split; [done|]); (split; [|split; [|done]]);
    try (by left); try (intros [|]; congruence);
    right; eexists; (split; [reflexivity|]); apply Hcode.
Qed.

End HandlerAndClose.

Lemma inbound_request_answered_witness :
  Transport.onMessage None
    (Transport.REQUEST (Some "PUT"%string) (Some "/api/v1/message"%string) None 5)
    Transport.example_resource
  = (Returned tt,
     Transport.set_out
       (Transport.out Transport.example_resource
        ++ Correlation.responses None
             (Transport.mkRequest
                (Transport.or_string (Some "PUT"%string) None)
                (Transport.or_string (Some "/api/v1/message"%string) None)
                None None None 5))
       Transport.example_resource).
Proof.
  apply (inbound_request_answered None Transport.example_resource).
  reflexivity.
Defined.

Section KeepAliveFacts.
Import Transport Correlation.
Local Open Scope wsr_scope.

Variable handleRequest : option (Request -> list (Z * string)).

(** One period of silence with a keep-alive that does not disconnect:
    the ping goes out and the ping timer is armed again at once. *)
Lemma patient_period (s : wsr) (ka : KeepAlive) :
  ka_disconnect ka = false ->
  just_reset ka s ->
  exists s',
    run handleRequest [Wait 50000; TimerFires] s = Some s'
    /\ just_reset ka s'
    /\ now s' = now s + 50000
    /\ out s' = out s ++ [Sent (ping_frame ka (ping_id s))].
Proof.
  intros Hd (Hk & Hs & Ht & Hdt).
  destruct s as [so og ls k kt dt n en cu ou]. cbn in *. subst.
  unfold not_before. rewrite Z.leb_refl. cbn. rewrite Z.max_id.
  unfold toplevel, keepAliveTimer_fires, sendRequest, bind, new_Request,
    randomBytes, modify, send, socket_send, gets, ret, emit, reset, bind, modify.
  cbn. rewrite Hd. cbn.
  eexists. split; [reflexivity|]. by cbn.
Qed.

Lemma run_app' (l1 l2 : list input) (s : wsr) :
  run handleRequest (l1 ++ l2) s
  = match run handleRequest l1 s with
    | Some s' => run handleRequest l2 s'
    | None => None
    end.
Proof.
  revert s. induction l1 as [|i l1 IH]; intros s; cbn; [done|].
  destruct (step handleRequest i s); [apply IH|done].
Qed.

(** X10: with [disconnect] false the keep-alive never closes the
    socket. Through any number [n] of periods of fifty seconds without
    inbound frame it sends one request per period, [n] in all and
    nothing else, never arms the disconnect timer, and is armed for the
    next ping fifty seconds later. *)
Theorem patient_keepalive_never_closes (n : nat) (s : wsr) (ka : KeepAlive) :
  ka_disconnect ka = false ->
  just_reset ka s ->
  exists s' pings,
    run handleRequest (silence n) s = Some s'
    /\ just_reset ka s'
    /\ now s' = now s + 50000 * Z.of_nat n
    /\ out s' = out s ++ pings
    /\ length pings = n
    /\ forallb is_Sent_request pings = true.
Proof.
  intros Hd. revert s. induction n as [|n IH]; intros s Hs.
  - exists s, []. cbn. rewrite app_nil_r.
    split; [done|]. split; [done|]. split; [lia|]. done.
  - destruct (patient_period s ka Hd Hs) as (s1 & Hrun1 & Hs1 & Hnow1 & Hout1).
    destruct (IH s1 Hs1) as (s' & pings & Hrun & Hs' & Hnow & Hout & Hlen & Hall).
    exists s', (Sent (ping_frame ka (ping_id s)) :: pings).
    unfold silence. cbn [replicate concat]. rewrite run_app', Hrun1.
    split; [exact Hrun|]. split; [done|]. split; [lia|].
    split; [by rewrite Hout, Hout1, <- app_assoc|].
    cbn. by rewrite Hlen, Hall.
Qed.

(** X11: [close] does not stop the keep-alive, only the socket's close
    event does. When the consumer closes an open resource whose ping
    timer is armed and the timer fires before the close event, the ping
    is put into the table, [send] throws on the [null] socket out of
    the timer's function, nothing is sent and no disconnect timer is
    armed. When the close event comes first, both timers are cleared
    and no timer fires any more. *)
Theorem close_leaves_ping_timer (s : wsr) (ka : KeepAlive) (k : Z)
    (code : option Z) (reason : option string) :
  keepalive s = Some ka ->
  socket s = Some OPEN ->
  listeners s = standard_listeners ->
  keepAliveTimer s = Some k ->
  disconnectTimer s = None ->
  now s <= k ->
  (exists s1 s2,
     run handleRequest [CallClose code reason; Wait (k - now s)] s = Some s1
     /\ keepAliveTimer s1 = Some k
     /\ step handleRequest TimerFires s1 = Some s2
     /\ out s2
        = out s1 ++ [Uncaught "TypeError: Cannot read property 'send' of null"]
     /\ outgoingRequests s2
        = <[Ids.toNumber (ping_id s) := ping_request ka (ping_id s)]>
            (outgoingRequests s)
     /\ keepAliveTimer s2 = None /\ disconnectTimer s2 = None)
  /\ (exists s3,
        run handleRequest [CallClose code reason; SocketCloses] s = Some s3
        /\ keepAliveTimer s3 = None /\ disconnectTimer s3 = None
        /\ step handleRequest TimerFires s3 = None).
Proof.
  intros Hk Hs Hl Ht Hdt Hnow.
  destruct s as [so og ls ka' kt dt n en cu ou]. cbn in *. subst.
  split.
  - unfold toplevel, close, bind, gets, modify, emit, ret. cbn.
    unfold not_before.
    destruct (Z.leb_spec 0 (k - n)); [|lia]. cbn.
    destruct (Z.leb_spec (n + (k - n)) k); [|lia]. cbn.
    do 2 eexists. split; [reflexivity|]. cbn. split; [done|].
    split; [reflexivity|]. cbn. done.
  - unfold toplevel, close, dispatch, bind, gets, modify, emit, ret, stop. cbn.
    eexists. split; [reflexivity|]. cbn. done.
Qed.

End KeepAliveFacts.

Lemma patient_keepalive_never_closes_witness :
  exists s' pings,
    Transport.run None (Correlation.silence 3) Correlation.patient_resource = Some s'
    /\ Correlation.just_reset (Transport.mkKeepAlive "/v1/keepalive" false) s'
    /\ Transport.now s'
       = Transport.now Correlation.patient_resource + 50000 * Z.of_nat 3
    /\ Transport.out s' = Transport.out Correlation.patient_resource ++ pings
    /\ length pings = 3%nat
    /\ forallb Correlation.is_Sent_request pings = true.
Proof.
  apply (patient_keepalive_never_closes None 3 Correlation.patient_resource
           (Transport.mkKeepAlive "/v1/keepalive" false)).
  - reflexivity.
  - repeat split.
Defined.

Lemma close_leaves_ping_timer_witness :
  exists s3,
    Transport.run None
      [Transport.CallClose (Some 3000) (Some "called close"%string);
       Transport.SocketCloses] Transport.example_resource = Some s3
    /\ Transport.keepAliveTimer s3 = None /\ Transport.disconnectTimer s3 = None
    /\ Transport.step None Transport.TimerFires s3 = None.
Proof.
  destruct (close_leaves_ping_timer None Transport.example_resource
              (Transport.mkKeepAlive "/v1/keepalive" true) 50000
              (Some 3000) (Some "called close"%string)
              eq_refl eq_refl eq_refl eq_refl eq_refl ltac:(cbn; lia))
    as [_ H].
  exact H.
Defined.

Section TimerFacts.
Import Transport Correlation.
Local Open Scope wsr_scope.

Variable handleRequest : option (Request -> list (Z * string)).

Lemma same_timers_refl (s : wsr) : same_timers s s.
Proof. by split. Qed.

Lemma same_timers_trans (s1 s2 s3 : wsr) :
  same_timers s1 s2 -> same_timers s2 s3 -> same_timers s1 s3.
Proof. intros [? ?] [? ?]. split; congruence. Qed.

Lemma undisturbed_trans (s1 s2 s3 : wsr) :
  undisturbed s1 s2 -> undisturbed s2 s3 -> undisturbed s1 s3.
Proof.
  intros [H12|H12] [[Hk Hd]|H23]; try (by right).
  - left. by eapply same_timers_trans.
  - right. congruence.
Qed.

Lemma undisturbed_timers_ok (s s' : wsr) :
  undisturbed s s' -> timers_ok s -> timers_ok s'.
Proof.
  intros [[Hk Hd]|Hd] Hok; [|by right].
  unfold timers_ok. rewrite Hk, Hd. exact Hok.
Qed.

Lemma untouched_calm {A : Type} (m : M A) : untouched m -> calm m.
Proof. intros H s. left. apply H. Qed.

Lemma untouched_bind {A B : Type} (m : M A) (f : A -> M B) :
  untouched m -> (forall a, untouched (f a)) -> untouched (bind m f).
Proof.
  intros Hm Hf s. unfold bind. specialize (Hm s).
  destruct (m s) as [[a|e] s1]; cbn in *; [|done].
  eapply same_timers_trans; [exact Hm|apply Hf].
Qed.

Lemma calm_bind {A B : Type} (m : M A) (f : A -> M B) :
  calm m -> (forall a, calm (f a)) -> calm (bind m f).
Proof.
  intros Hm Hf s. unfold bind. specialize (Hm s).
  destruct (m s) as [[a|e] s1]; cbn in *; [|done].
  eapply undisturbed_trans; [exact Hm|apply Hf].
Qed.

Lemma untouched_ret {A : Type} (a : A) : untouched (ret a).
Proof. intros s. apply same_timers_refl. Qed.

Lemma untouched_throw {A : Type} (e : string) : untouched (throw (A := A) e).
Proof. intros s. apply same_timers_refl. Qed.

Lemma untouched_gets {A : Type} (f : wsr -> A) : untouched (gets f).
Proof. intros s. apply same_timers_refl. Qed.

Lemma untouched_emit (o : output) : untouched (emit o).
Proof. intros s. by split. Qed.

Lemma untouched_randomBytes (n : nat) : untouched (randomBytes n).
Proof. intros s. by split. Qed.

Lemma untouched_socket_send (f : frame) : untouched (socket_send f).
Proof.
  apply untouched_bind; [apply untouched_gets|].
  intros [[]|]; try apply untouched_throw; apply untouched_emit.
Qed.

Lemma untouched_new_Request (o : options) : untouched (new_Request o).
Proof.
  apply untouched_bind; [|intros i; apply untouched_ret].
  destruct (opt_id o); [apply untouched_ret|].
  apply untouched_bind; [apply untouched_randomBytes|intros r; apply untouched_ret].
Qed.

Lemma untouched_sendRequest (o : options) : untouched (sendRequest o).
Proof.
  apply untouched_bind; [apply untouched_new_Request|]. intros r.
  apply untouched_bind; [by intros s|]. intros _.
  apply untouched_bind; [apply untouched_socket_send|]. intros _.
  apply untouched_ret.
Qed.

Lemma untouched_close (code : option Z) (reason : option string) :
  untouched (close code reason).
Proof.
  apply untouched_bind; [apply untouched_gets|]. intros so.
  apply untouched_bind; [|by intros _ s].
  destruct so as [[]|]; try apply untouched_ret; apply untouched_emit.
Qed.

Lemma untouched_handle (r : Request) : untouched (handle handleRequest r).
Proof.
  unfold handle. destruct handleRequest as [h|]; [|apply untouched_socket_send].
  induction (h r) as [|a l IH]; cbn; [apply untouched_ret|].
  apply untouched_bind; [apply untouched_socket_send|by intros _].
Qed.

Lemma calm_reset : calm reset.
Proof. intros s. by right. Qed.

Lemma calm_stop : calm stop.
Proof. intros s. by right. Qed.

Lemma calm_async (m : M unit) : calm m -> calm (async m).
Proof.
  intros Hm s. unfold async. specialize (Hm s).
  destruct (m s) as [[[]|e] s1]; cbn in *; [done|].
  destruct Hm as [[? ?]|?]; [by left|by right].
Qed.

Lemma calm_onMessage (f : frame) : calm (onMessage handleRequest f).
Proof.
  apply calm_async. destruct f as [v p b i|i status msg|t].
  - apply untouched_calm. apply untouched_bind; [apply untouched_new_Request|].
    intros r. apply untouched_handle.
  - apply calm_bind; [apply untouched_calm, untouched_gets|]. intros table.
    destruct (table !! Ids.toNumber i) as [r|];
      [|apply untouched_calm, untouched_throw].
    apply calm_bind; [apply untouched_calm; by intros s|]. intros _.
    destruct (if (200 <=? status) && (status <? 300) then success r else error r)
      as [[|tag]|].
    + apply calm_reset.
    + apply untouched_calm, untouched_emit.
    + apply untouched_calm, untouched_ret.
  - apply untouched_calm, untouched_throw.
Qed.

Lemma calm_run_listener (l : listener) (ev : event_name) (f : option frame) :
  calm (run_listener handleRequest l ev f).
Proof.
  destruct l; cbn.
  - destruct f; [apply calm_onMessage|apply untouched_calm, untouched_ret].
  - apply calm_reset.
  - apply calm_stop.
  - apply untouched_calm, untouched_emit.
Qed.

Lemma calm_dispatch (ev : event_name) (f : option frame) :
  calm (dispatch handleRequest ev f).
Proof.
  apply calm_bind; [apply untouched_calm, untouched_gets|]. intros ls.
  induction ls as [|[e l] ls IH]; cbn; [apply untouched_calm, untouched_ret|].
  apply calm_bind; [|by intros _].
  destruct (event_name_eqb e ev);
    [apply calm_run_listener|apply untouched_calm, untouched_ret].
Qed.

Lemma undisturbed_toplevel (m : M unit) (s : wsr) :
  calm m -> undisturbed s (toplevel m s).
Proof.
  intros Hm. unfold toplevel. specialize (Hm s).
  destruct (m s) as [[[]|e] s1]; cbn in *; [done|].
  destruct Hm as [[? ?]|?]; [by left|by right].
Qed.

(** One step of the event loop keeps the timers apart. *)
Lemma step_timers_ok (i : input) (s s' : wsr) :
  timers_ok s -> step handleRequest i s = Some s' -> timers_ok s'.
Proof.
  intros Hok Hstep. destruct i; cbn in Hstep.
  - destruct (_ && _); [|done]. injection Hstep as <-. exact Hok.
  - assert (Hkeep : forall ka s0,
              keepAliveTimer s0 = None ->
              timers_ok (toplevel (keepAliveTimer_fires ka) s0)).
    { intros ka s0 H0. unfold toplevel, keepAliveTimer_fires, bind at 1.
      pose proof (untouched_sendRequest
                    (mkOptions (Some "GET"%string) None (Some (ka_path ka)) None None
                               None (Some KeepAliveReset) None None) s0) as [Hk _].
      destruct (sendRequest _ s0) as [[r|e] s1]; cbn in *.
      - destruct (ka_disconnect ka); unfold modify, reset, bind, modify; cbn.
        + left. cbn. congruence.
        + by right.
      - left. cbn. congruence. }
    assert (Hdisc : forall s0, timers_ok (toplevel disconnectTimer_fires s0)).
    { intros s0. unfold toplevel, disconnectTimer_fires, bind at 1, modify.
      pose proof (untouched_close (Some 3001)
                    (Some "No response to keepalive request"%string)
                    (set_keepAliveTimer None s0)) as [Hk _].
      destruct (close _ _ _) as [[[]|e] s1]; cbn in *; left; cbn; congruence. }
    destruct (keepAliveTimer s) as [k|], (disconnectTimer s) as [d|],
      (keepalive s) as [ka|]; try done.
    + destruct (not_before k (Some d)); injection Hstep as <-;
        [by apply Hkeep|apply Hdisc].
    + cbn in Hstep. injection Hstep as <-. by apply Hkeep.
    + injection Hstep as <-. apply Hdisc.
  - injection Hstep as <-.
    eapply undisturbed_timers_ok;
      [apply undisturbed_toplevel, calm_dispatch|exact Hok].
  - injection Hstep as <-.
    eapply undisturbed_timers_ok;
      [apply undisturbed_toplevel, calm_dispatch|exact Hok].
  - injection Hstep as <-.
    eapply undisturbed_timers_ok;
      [apply undisturbed_toplevel, calm_dispatch|exact Hok].
  - injection Hstep as <-.
    eapply undisturbed_timers_ok; [apply undisturbed_toplevel|exact Hok].
    apply untouched_calm, untouched_bind; [apply untouched_close|by intros _ s0].
  - injection Hstep as <-.
    eapply undisturbed_timers_ok; [apply undisturbed_toplevel|exact Hok].
    apply untouched_calm, untouched_bind;
      [apply untouched_sendRequest|intros r; apply untouched_ret].
  - injection Hstep as <-.
    eapply undisturbed_timers_ok; [apply undisturbed_toplevel|exact Hok].
    apply untouched_calm, untouched_close.
Qed.

(** X12: the ping timer and the disconnect timer are never armed
    together. From a resource in which at most one of the two is armed
    (a resource just made by the constructor has neither), whatever
    happens (time passing, timers firing, socket events with any
    frames, calls of [connect], [sendRequest] and [close], with any
    listeners registered), at most one of the two timers is armed
    afterwards; so no ping is sent while the answer to the last one is
    awaited. *)
Theorem timers_never_armed_together (inputs : list input) (s s' : wsr) :
  timers_ok s ->
  run handleRequest inputs s = Some s' ->
  timers_ok s'.
Proof.
  revert s. induction inputs as [|i inputs IH]; intros s Hok Hrun; cbn in Hrun.
  - by injection Hrun as <-.
  - destruct (step handleRequest i s) as [s1|] eqn:Hstep; [|done].
    eapply IH; [|exact Hrun]. by eapply step_timers_ok.
Qed.

End TimerFacts.

Lemma timers_never_armed_together_witness :
  Correlation.timers_ok
    (Transport.after_ping Transport.example_resource
       (Transport.mkKeepAlive "/v1/keepalive" true)).
Proof.
  apply (timers_never_armed_together None
           [Transport.Wait 50000; Transport.TimerFires]
           Transport.example_resource).
  - right. reflexivity.
  - reflexivity.
Defined.

Section OutcomeFacts.
Import Receiver Outcomes.

Context {W : Type}.
Variable answer : forall X : Type, call X -> W -> (error + X) * W.
Variable throws : effect -> W -> option error.

(** Running [p.then(f, g)] alone is running [p] and then the
    continuation on its outcome. *)
Lemma alone_attempt :
  forall A (p : proc A) B (f : error + A -> proc B) (w : W),
    Async.alone answer throws (Async.attempt p f) w
    = let '(r, effs, w1) := Async.alone answer throws p w in
      let '(r2, effs2, w2) := Async.alone answer throws (f r) w1 in
      (r2, effs ++ effs2, w2).
Proof.
  apply (Async.proc_ind
           (fun A (p : proc A) =>
              forall B (f : error + A -> proc B) (w : W),
                Async.alone answer throws (Async.attempt p f) w
                = let '(r, effs, w1) := Async.alone answer throws p w in
                  let '(r2, effs2, w2) := Async.alone answer throws (f r) w1 in
                  (r2, effs ++ effs2, w2))).
  - intros A a B f w. cbn. by destruct (Async.alone answer throws (f (inr a)) w) as [[? ?] ?].
  - intros A e B f w. cbn. by destruct (Async.alone answer throws (f (inl e)) w) as [[? ?] ?].
  - intros A eff k IH B f w. simpl. rewrite (IH B f w).
    destruct (Async.alone answer throws k w) as [[r effs] w1].
    by destruct (Async.alone answer throws (f r) w1) as [[? ?] ?].
  - intros A eff k IH B f w. simpl.
    destruct (throws eff w) as [e|]; [apply IH|].
    rewrite (IH (inr tt) B f w).
    destruct (Async.alone answer throws (k (inr tt)) w) as [[r effs] w1].
    by destruct (Async.alone answer throws (f r) w1) as [[? ?] ?].
  - intros A X c k IH B f w. simpl.
    destruct (answer X c w) as [x w1]. apply IH.
  - intros A child _ k IH B f w. simpl.
    destruct (Async.alone answer throws child w) as [[r0 effs0] w0].
    rewrite (IH B f w0).
    destruct (Async.alone answer throws k w0) as [[r effs] w1].
    destruct (Async.alone answer throws (f r) w1) as [[? ?] ?].
    by rewrite app_assoc.
Qed.

Lemma alone_bind {A B : Type} (p : proc A) (f : A -> proc B) (w : W) :
  Async.alone answer throws (Async.bind p f) w
  = let '(r, effs, w1) := Async.alone answer throws p w in
    match r with
    | inl e => (inl e, effs, w1)
    | inr a =>
        let '(r2, effs2, w2) := Async.alone answer throws (f a) w1 in
        (r2, effs ++ effs2, w2)
    end.
Proof.
  unfold Async.bind. rewrite alone_attempt.
  destruct (Async.alone answer throws p w) as [[[e|a] effs] w1]; cbn; [|done].
  by rewrite app_nil_r.
Qed.

Lemma effect_free_attempt :
  forall A (p : proc A) B (f : error + A -> proc B),
    effect_free p -> (forall r, effect_free (f r)) ->
    effect_free (Async.attempt p f).
Proof.
  apply (Async.proc_ind
           (fun A (p : proc A) =>
              forall B (f : error + A -> proc B),
                effect_free p -> (forall r, effect_free (f r)) ->
                effect_free (Async.attempt p f))).
  - intros A a B f _ Hf. apply Hf.
  - intros A e B f _ Hf. apply Hf.
  - intros A eff k IH B f [].
  - intros A eff k IH B f [].
  - intros A X c k IH B f Hk Hf r. apply IH; [apply Hk|done].
  - intros A child _ k IH B f [].
Qed.

Lemma effect_free_bind {A B : Type} (p : proc A) (f : A -> proc B) :
  effect_free p -> (forall a, effect_free (f a)) -> effect_free (Async.bind p f).
Proof.
  intros Hp Hf. apply effect_free_attempt; [done|]. intros [e|a]; [done|apply Hf].
Qed.

Lemma effect_free_await {X : Type} (c : call X) : effect_free (Async.await c).
Proof. intros [e|x]; done. Qed.

Lemma effect_free_unpad (padded : list byte) : effect_free (unpad padded).
Proof. unfold unpad. by destruct (Padding.unpad padded). Qed.

Lemma effect_free_alone :
  forall A (p : proc A) (w : W),
    effect_free p -> (Async.alone answer throws p w).1.2 = [].
Proof.
  apply (Async.proc_ind
           (fun A (p : proc A) =>
              forall w : W, effect_free p -> (Async.alone answer throws p w).1.2 = [])).
  - done.
  - done.
  - intros A eff k IH w [].
  - intros A eff k IH w [].
  - intros A X c k IH w Hk. cbn. destruct (answer X c w) as [x w1]. apply IH, Hk.
  - intros A child _ k IH w [].
Qed.

Lemma fulfils_attempt :
  forall A (p : proc A) (Q : A -> Prop) B (P : B -> Prop) (f : error + A -> proc B),
    fulfils Q p ->
    (forall a, Q a -> fulfils P (f (inr a))) ->
    (forall e, fulfils P (f (inl e))) ->
    fulfils P (Async.attempt p f).
Proof.
  intros A p Q. revert A p Q.
  apply (Async.proc_ind
           (fun A (p : proc A) =>
              forall (Q : A -> Prop) B (P : B -> Prop) (f : error + A -> proc B),
                fulfils Q p ->
                (forall a, Q a -> fulfils P (f (inr a))) ->
                (forall e, fulfils P (f (inl e))) ->
                fulfils P (Async.attempt p f))).
  - intros A a Q B P f Ha Hf _. by apply Hf.
  - intros A e Q B P f _ _ Hf. apply Hf.
  - intros A eff k IH Q B P f Hk Hf He. cbn. by eapply IH.
  - intros A eff k IH Q B P f Hk Hf He r. eapply IH; [apply Hk|done..].
  - intros A X c k IH Q B P f Hk Hf He r. eapply IH; [apply Hk|done..].
  - intros A child _ k IH Q B P f Hk Hf He. cbn. by eapply IH.
Qed.

Lemma fulfils_bind {A B : Type} (p : proc A) (Q : A -> Prop) (P : B -> Prop)
    (f : A -> proc B) :
  fulfils Q p -> (forall a, Q a -> fulfils P (f a)) -> fulfils P (Async.bind p f).
Proof.
  intros Hp Hf. eapply fulfils_attempt; [exact Hp|exact Hf|done].
Qed.

Lemma fulfils_True :
  forall A (p : proc A), fulfils (fun _ => True) p.
Proof.
  apply (Async.proc_ind (fun A (p : proc A) => fulfils (fun _ => True) p)); cbn; auto.
Qed.

Lemma fulfils_alone :
  forall A (p : proc A) (P : A -> Prop) (w : W) (a : A) effs w',
    fulfils P p -> Async.alone answer throws p w = (inr a, effs, w') -> P a.
Proof.
  apply (Async.proc_ind
           (fun A (p : proc A) =>
              forall (P : A -> Prop) (w : W) (a : A) effs w',
                fulfils P p -> Async.alone answer throws p w = (inr a, effs, w') -> P a)).
  - intros A a P w a' effs w' Ha [= <- _ _]. exact Ha.
  - intros A e P w a effs w' _ [=].
  - intros A eff k IH P w a effs w' Hk Heq. cbn in Heq.
    destruct (Async.alone answer throws k w) as [[r effs1] w1] eqn:Hal.
    injection Heq as -> _ _. by eapply IH.
  - intros A eff k IH P w a effs w' Hk Heq. cbn in Heq.
    destruct (throws eff w) as [e|]; [eapply IH; [apply Hk|exact Heq]|].
    destruct (Async.alone answer throws (k (inr tt)) w) as [[r effs1] w1] eqn:Hal.
    injection Heq as -> _ _. eapply IH; [apply Hk|exact Hal].
  - intros A X c k IH P w a effs w' Hk Heq. cbn in Heq.
    destruct (answer X c w) as [x w1]. eapply IH; [apply Hk|exact Heq].
  - intros A child _ k IH P w a effs w' Hk Heq. cbn in Heq.
    destruct (Async.alone answer throws child w) as [[r0 effs0] w0].
    destruct (Async.alone answer throws k w0) as [[r effs1] w1] eqn:Hal.
    injection Heq as -> _ _. by eapply IH.
Qed.

Lemma never_attempt :
  forall A (p : proc A) (bad : effect -> Prop) B (f : error + A -> proc B),
    never bad p -> (forall r, never bad (f r)) -> never bad (Async.attempt p f).
Proof.
  intros A p bad. revert A p.
  apply (Async.proc_ind
           (fun A (p : proc A) =>
              forall B (f : error + A -> proc B),
                never bad p -> (forall r, never bad (f r)) ->
                never bad (Async.attempt p f))).
  - intros A a B f _ Hf. apply Hf.
  - intros A e B f _ Hf. apply Hf.
  - intros A eff k IH B f [Heff Hk] Hf. split; [done|by apply IH].
  - intros A eff k IH B f [Heff Hk] Hf. split; [done|].
    intros r. apply IH; [apply Hk|done].
  - intros A X c k IH B f Hk Hf r. apply IH; [apply Hk|done].
  - intros A child _ k IH B f [Hc Hk] Hf. split; [done|by apply IH].
Qed.

Lemma never_bind {A B : Type} (bad : effect -> Prop) (p : proc A) (f : A -> proc B) :
  never bad p -> (forall a, never bad (f a)) -> never bad (Async.bind p f).
Proof.
  intros Hp Hf. apply never_attempt; [done|]. intros [e|a]; [done|apply Hf].
Qed.

Lemma effect_free_never :
  forall A (p : proc A) (bad : effect -> Prop), effect_free p -> never bad p.
Proof.
  apply (Async.proc_ind
           (fun A (p : proc A) =>
              forall bad : effect -> Prop, effect_free p -> never bad p)); cbn.
  - done.
  - done.
  - intros A eff k IH bad [].
  - intros A eff k IH bad [].
  - intros A X c k IH bad Hk r. apply IH, Hk.
  - intros A child _ k IH bad [].
Qed.

Lemma never_alone :
  forall A (p : proc A) (bad : effect -> Prop) (w : W) (eff : effect),
    never bad p -> In eff (Async.alone answer throws p w).1.2 -> ~ bad eff.
Proof.
  apply (Async.proc_ind
           (fun A (p : proc A) =>
              forall (bad : effect -> Prop) (w : W) (eff : effect),
                never bad p -> In eff (Async.alone answer throws p w).1.2 -> ~ bad eff)).
  - intros A a bad w eff _ [].
  - intros A e bad w eff _ [].
  - intros A eff0 k IH bad w eff [Hno Hk] Hin. cbn in Hin.
    specialize (IH bad w eff Hk).
    destruct (Async.alone answer throws k w) as [[r effs] w1]. cbn in *.
    destruct Hin as [<-|Hin]; [done|by apply IH].
  - intros A eff0 k IH bad w eff [Hno Hk] Hin. cbn in Hin.
    destruct (throws eff0 w) as [e|]; [eapply IH; [apply Hk|exact Hin]|].
    specialize (IH (inr tt) bad w eff (Hk _)).
    destruct (Async.alone answer throws (k (inr tt)) w) as [[r effs] w1]. cbn in *.
    destruct Hin as [<-|Hin]; [done|by apply IH].
  - intros A X c k IH bad w eff Hk Hin. cbn in Hin.
    destruct (answer X c w) as [x w1]. eapply IH; [apply Hk|exact Hin].
  - intros A child IHc k IHk bad w eff [Hc Hk] Hin. cbn in Hin.
    specialize (IHc bad w eff Hc).
    destruct (Async.alone answer throws child w) as [[r0 effs0] w0].
    specialize (IHk bad w0 eff Hk).
    destruct (Async.alone answer throws k w0) as [[r effs] w1]. cbn in *.
    apply in_app_or in Hin as [Hin|Hin]; eauto.
Qed.

End OutcomeFacts.

Section HandlerFacts.
Import Receiver Outcomes.

Variable number : string.
Variable deviceId : Z.
Variables END_SESSION EXPIRATION_TIMER_UPDATE : Z.
Variable Content_decode : option (list byte) -> error + Content.
Variable DataMessage_decode : option (list byte) -> error + DataMessage.
Variable Address_toString : Address -> string.
Variables handleContacts handleGroups : AttachmentPointer -> proc unit.
Context {W : Type}.
Variable answer : forall X : Type, call X -> W -> (error + X) * W.
Variable throws : effect -> W -> option error.

Abbreviation decrypt' := (decrypt Address_toString).
Abbreviation processDecrypted' :=
  (processDecrypted number END_SESSION EXPIRATION_TIMER_UPDATE).
Abbreviation handleDataMessage' :=
  (handleDataMessage number END_SESSION EXPIRATION_TIMER_UPDATE).
Abbreviation handleEnvelope' :=
  (handleEnvelope number deviceId END_SESSION EXPIRATION_TIMER_UPDATE
                  Content_decode DataMessage_decode Address_toString
                  handleContacts handleGroups).

Lemma effect_free_catch {A : Type} (p : proc A) (h : error -> proc A) :
  effect_free p -> (forall e, effect_free (h e)) -> effect_free (Async.catch p h).
Proof.
  intros Hp Hh. apply effect_free_attempt; [done|]. intros [e|a]; [apply Hh|done].
Qed.

Lemma effect_free_Promise_all {S : Type} (promises : list (S -> proc S)) :
  (forall p, In p promises -> forall s, effect_free (p s)) ->
  forall (shared : S) (rejected : option error),
    effect_free (Promise_all promises shared rejected).
Proof.
  induction promises as [|p rest IH]; intros Hall shared rejected; cbn.
  - by destruct rejected.
  - apply effect_free_attempt; [apply Hall; by left|].
    intros [e|s']; apply IH; intros q Hq; apply Hall; by right.
Qed.

Lemma effect_free_handleAttachment (a : AttachmentPointer) :
  effect_free (handleAttachment a).
Proof.
  unfold handleAttachment.
  apply effect_free_bind; [apply effect_free_await|]. intros encrypted.
  apply effect_free_bind; [apply effect_free_await|done].
Qed.

Lemma effect_free_handleEndSession (n : string) : effect_free (handleEndSession n).
Proof.
  unfold handleEndSession.
  apply effect_free_bind; [apply effect_free_await|]. intros ids.
  apply effect_free_Promise_all. intros p Hp s.
  apply in_map_iff in Hp as (d & <- & _). apply effect_free_await.
Qed.

Lemma effect_free_group_promise (from : option string) (d : DataMessage) :
  effect_free (group_promise number from d).
Proof.
  unfold group_promise. destruct (group d) as [g|]; [|done].
  apply effect_free_bind; [apply effect_free_await|]. intros [existing|].
  - destruct (group_type g).
    + apply effect_free_bind; [apply effect_free_await|]. intros added.
      cbn. destruct (group_avatar g), added, (group_name g); done.
    + done.
    + apply effect_free_bind; [|done].
      destruct (decide (from = Some number)); apply effect_free_await.
    + done.
  - apply effect_free_bind; [apply effect_free_await|]. done.
Qed.

Lemma effect_free_processDecrypted (d : DataMessage) (from : option string) :
  effect_free (processDecrypted' d from).
Proof.
  unfold processDecrypted.
  destruct (negb (js_and _ END_SESSION =? 0)%Z); [done|].
  apply effect_free_bind.
  - destruct (negb (js_and _ EXPIRATION_TIMER_UPDATE =? 0)%Z); [done|].
    by destruct (negb _).
  - intros d'. apply effect_free_Promise_all. intros p Hp s.
    apply in_app_or in Hp as [Hp|Hp].
    + destruct (group d') as [g|]; [|done].
      apply in_app_or in Hp as [Hp|[<-|[]]].
      * destruct (is_UPDATE (group_type g)); [|done].
        destruct (group_avatar g) as [avatar|]; [|done].
        destruct Hp as [<-|[]]. unfold avatar_promise.
        apply effect_free_bind; [apply effect_free_handleAttachment|done].
      * apply effect_free_group_promise.
    + apply list_elem_of_In, elem_of_lookup_imap in Hp as (i & a & -> & _).
      unfold attachment_promise.
      apply effect_free_bind; [apply effect_free_handleAttachment|done].
Qed.

Lemma effect_free_decryptPreKeyWhisperMessage (ct : list byte) (a : Address) :
  effect_free (decryptPreKeyWhisperMessage Address_toString ct a).
Proof.
  unfold decryptPreKeyWhisperMessage. apply effect_free_catch.
  - apply effect_free_bind; [apply effect_free_await|apply effect_free_unpad].
  - intros [m key|? ? ?]; [|done]. by destruct (String.eqb m _).
Qed.

Lemma alone_effect_free {A : Type} (p : proc A) (w : W) :
  effect_free p ->
  exists r w', Async.alone answer throws p w = (r, [], w').
Proof.
  intros Hp. pose proof (effect_free_alone answer throws A p w Hp) as Heffs.
  destruct (Async.alone answer throws p w) as [[r effs] w']. cbn in Heffs. subst effs.
  by exists r, w'.
Qed.

(** X13: [decrypt] reports a failure exactly once.  Whatever the
    envelope, the ciphertext and the answers of the session cipher:
    either the promise is fulfilled and nothing was dispatched, or it
    is rejected with an error and exactly one event was dispatched
    before, the [error] event that carries this error and the
    envelope. *)
Theorem decrypt_reports_once (envelope : Envelope) (ciphertext : list byte) (w : W) :
  (exists plaintext w',
      Async.alone answer throws (decrypt' envelope ciphertext) w
      = (inr plaintext, [], w'))
  \/ (exists e w',
         Async.alone answer throws (decrypt' envelope ciphertext) w
         = (inl e, [DispatchEvent (EvError e (Some envelope))], w')).
Proof.
  unfold decrypt. cbv zeta.
  match goal with
  | |- context [Async.catch ?p _] => assert (Hp : effect_free p)
  end.
  { destruct (env_type envelope); try done.
    - apply effect_free_bind; [apply effect_free_await|apply effect_free_unpad].
    - apply effect_free_decryptPreKeyWhisperMessage. }
  unfold Async.catch. rewrite alone_attempt.
  destruct (alone_effect_free _ w Hp) as ([e|plaintext] & w' & ->).
  - right. by exists e, w'.
  - left. by exists plaintext, w'.
Qed.

(** X14: an unknown identity key reaches the listeners as an
    [IncomingIdentityKeyError].  When the envelope is a prekey bundle
    and the session cipher rejects the ciphertext with the message
    "Unknown identity key", the one [error] event [decrypt] dispatches,
    and the rejection of its promise, carry an
    [IncomingIdentityKeyError] with the sender's address as text, the
    ciphertext and the identity key of the cipher's error. *)
Theorem unknown_identity_key_reported (envelope : Envelope)
    (ciphertext : list byte) (identityKey : option (list byte)) (w w' : W) :
  env_type envelope = PREKEY_BUNDLE ->
  answer _ (DecryptPreKeyWhisperMessage
              (mkAddress (source envelope) (sourceDevice envelope)) ciphertext) w
  = (inl (Error "Unknown identity key" identityKey), w') ->
  Async.alone answer throws (decrypt' envelope ciphertext) w
  = (inl (IncomingIdentityKeyError
            (Address_toString (mkAddress (source envelope) (sourceDevice envelope)))
            ciphertext identityKey),
     [DispatchEvent
        (EvError
           (IncomingIdentityKeyError
              (Address_toString (mkAddress (source envelope) (sourceDevice envelope)))
              ciphertext identityKey)
           (Some envelope))],
     w').
Proof.
  intros Htype Hans. unfold decrypt. rewrite Htype.
  unfold decryptPreKeyWhisperMessage. cbn. by rewrite Hans.
Qed.


(** X16: a data message with flags the code does not know is dropped
    without a trace.  When the flags are not zero and hold neither the
    END_SESSION nor the EXPIRATION_TIMER_UPDATE bit, the promise of
    [handleDataMessage] is rejected with "Unknown flags in message", no
    event is dispatched (neither [message] nor [error]) and no
    collaborator is asked. *)
Theorem unknown_flags_rejected_silently (envelope : Envelope)
    (message : DataMessage) (w : W) :
  END_SESSION <> 0 ->
  js_and (flags message) END_SESSION = 0 ->
  js_and (flags message) EXPIRATION_TIMER_UPDATE = 0 ->
  default 0 (flags message) <> 0 ->
  Async.alone answer throws (handleDataMessage' envelope message) w
  = (inl (Error "Unknown flags in message" None), [], w).
Proof.
  intros Hend Hf1 Hf2 Hnz.
  destruct message as [b atts g [fl|] timer];
    cbn [flags default from_option id] in Hf1, Hf2, Hnz; [|done].
  unfold handleDataMessage, processDecrypted.
  cbn [flags default from_option id].
  rewrite Hf1, Hf2.
  destruct (Z.eqb_spec 0 END_SESSION) as [Heq|_]; [congruence|].
  destruct (Z.eqb_spec fl 0) as [Heq|_]; [congruence|].
  reflexivity.
Qed.

End HandlerFacts.

Lemma unknown_identity_key_reported_witness :
  Async.alone Examples.untrusting Scenario.open_socket
    (Receiver.decrypt Scenario.Address_toString Examples.prekey_envelope
                      Scenario.hello_padded) tt
  = (inl (Receiver.IncomingIdentityKeyError
            (Scenario.Address_toString (Receiver.mkAddress Scenario.alice 1))
            Scenario.hello_padded (Some [x05; x2a])),
     [Receiver.DispatchEvent
        (Receiver.EvError
           (Receiver.IncomingIdentityKeyError
              (Scenario.Address_toString (Receiver.mkAddress Scenario.alice 1))
              Scenario.hello_padded (Some [x05; x2a]))
           (Some Examples.prekey_envelope))],
     tt).
Proof.
  apply (unknown_identity_key_reported Scenario.Address_toString Examples.untrusting
         Scenario.open_socket
           Examples.prekey_envelope Scenario.hello_padded (Some [x05; x2a]) tt tt);
    reflexivity.
Defined.

Lemma unknown_flags_rejected_silently_witness :
  Async.alone Scenario.answer Scenario.open_socket
    (Receiver.handleDataMessage Scenario.alice 1 2 Scenario.hello_envelope
                                Examples.strange_flags) tt
  = (inl (Receiver.Error "Unknown flags in message" None), [], tt).
Proof.
  apply (unknown_flags_rejected_silently Scenario.alice 1 2 Scenario.answer
         Scenario.open_socket
           Scenario.hello_envelope Examples.strange_flags tt);
    [lia|reflexivity|reflexivity|cbn; lia].
Defined.

Section ProcessDecryptedFacts.
Import Receiver Outcomes.

Variable number : string.
Variable deviceId : Z.
Variables END_SESSION EXPIRATION_TIMER_UPDATE : Z.
Variable Content_decode : option (list byte) -> error + Content.
Variable DataMessage_decode : option (list byte) -> error + DataMessage.
Variable Address_toString : Address -> string.
Variables handleContacts handleGroups : AttachmentPointer -> proc unit.
Context {W : Type}.
Variable answer : forall X : Type, call X -> W -> (error + X) * W.
Variable throws : effect -> W -> option error.

Abbreviation processDecrypted' :=
  (processDecrypted number END_SESSION EXPIRATION_TIMER_UPDATE).
Abbreviation handleEnvelope' :=
  (handleEnvelope number deviceId END_SESSION EXPIRATION_TIMER_UPDATE
                  Content_decode DataMessage_decode Address_toString
                  handleContacts handleGroups).

Lemma fulfils_mono :
  forall A (p : proc A) (P Q : A -> Prop),
    (forall a, P a -> Q a) -> fulfils P p -> fulfils Q p.
Proof.
  apply (Async.proc_ind
           (fun A (p : proc A) =>
              forall P Q : A -> Prop,
                (forall a, P a -> Q a) -> fulfils P p -> fulfils Q p)); cbn.
  - intros A a P Q HPQ. apply HPQ.
  - done.
  - intros A eff k IH P Q HPQ. by apply IH.
  - intros A eff k IH P Q HPQ Hk r. eapply IH; [exact HPQ|apply Hk].
  - intros A X c k IH P Q HPQ Hk r. eapply IH; [exact HPQ|apply Hk].
  - intros A child _ k IH P Q HPQ. by apply IH.
Qed.

Lemma fulfils_Promise_all {S : Type} (Q : S -> Prop)
    (promises : list (S -> proc S)) :
  (forall p, In p promises -> forall s, Q s -> fulfils Q (p s)) ->
  forall (shared : S) (rejected : option error),
    Q shared -> fulfils Q (Promise_all promises shared rejected).
Proof.
  induction promises as [|p rest IH]; intros Hall shared rejected HQ; cbn.
  - by destruct rejected.
  - eapply fulfils_attempt.
    + apply Hall; [by left|exact HQ].
    + intros s' Hs'. apply IH; [|done]. intros q Hq. apply Hall. by right.
    + intros e. apply IH; [|done]. intros q Hq. apply Hall. by right.
Qed.

Lemma fulfils_Promise_all_rejected {S : Type} (Q : S -> Prop)
    (promises : list (S -> proc S)) :
  forall (shared : S) (e : error),
    fulfils Q (Promise_all promises shared (Some e)).
Proof.
  induction promises as [|p rest IH]; intros shared e; cbn; [done|].
  eapply fulfils_attempt; [apply fulfils_True|..].
  - intros s' _. apply IH.
  - intros e'. apply IH.
Qed.

Lemma fulfils_handleAttachment (a : AttachmentPointer) :
  fulfils (fun a' => att_id a' = att_id a /\ att_key a' = att_key a
                     /\ att_data a' <> None)
          (handleAttachment a).
Proof.
  unfold handleAttachment.
  eapply fulfils_bind; [apply fulfils_True|]. intros encrypted _.
  eapply fulfils_bind; [apply fulfils_True|]. intros data _. done.
Qed.

(** What the promises of [processDecrypted] keep: a property of the
    message that survives the three ways in which they change it. *)
Section Stable.
Variable Q : DataMessage -> Prop.
Hypothesis Q_set_group : forall g d, Q d -> Q (set_group g d).
Hypothesis Q_clear : forall d, Q d -> Q (set_body_attachments None [] d).
Hypothesis Q_attachment : forall i a d,
  Q d -> Q (set_body_attachments (body d) (<[i := a]> (attachments d)) d).

Lemma fulfils_avatar_promise (avatar : AttachmentPointer) (d : DataMessage) :
  Q d -> fulfils Q (avatar_promise avatar d).
Proof.
  intros HQ. unfold avatar_promise.
  eapply fulfils_bind; [apply fulfils_True|]. intros avatar' _. cbn.
  destruct (group d) as [g|]; [|done].
  destruct (group_avatar g); [|done]. by apply Q_set_group.
Qed.

Lemma fulfils_attachment_promise (i : nat) (a : AttachmentPointer)
    (d : DataMessage) :
  Q d -> fulfils Q (attachment_promise i a d).
Proof.
  intros HQ. unfold attachment_promise.
  eapply fulfils_bind; [apply fulfils_True|]. intros a' _. cbn.
  by apply Q_attachment.
Qed.

Lemma fulfils_group_promise (from : option string) (d : DataMessage) :
  Q d -> fulfils Q (group_promise number from d).
Proof.
  intros HQ. unfold group_promise. destruct (group d) as [g|]; [|done].
  eapply fulfils_bind; [apply fulfils_True|]. intros [existing|] _.
  - destruct (group_type g).
    + eapply fulfils_bind; [apply fulfils_True|]. intros added _.
      cbn. destruct (group_avatar g), added, (group_name g); cbn;
        auto using Q_set_group, Q_clear.
    + cbn. by apply Q_set_group.
    + eapply fulfils_bind; [apply fulfils_True|]. intros _ _. cbn.
      by apply Q_clear.
    + done.
  - eapply fulfils_bind; [apply fulfils_True|]. intros _ _. cbn.
    by apply Q_set_group.
Qed.

Lemma fulfils_promises (from : option string) (d : DataMessage) :
  Q d ->
  fulfils Q
    (Promise_all
       (match group d with
        | Some g =>
            (if is_UPDATE (group_type g)
             then match group_avatar g with
                  | Some avatar => [avatar_promise avatar]
                  | None => []
                  end
             else [])
            ++ [group_promise number from]
        | None => []
        end ++ imap attachment_promise (attachments d))
       d None).
Proof.
  intros HQ. apply fulfils_Promise_all; [|done]. intros p Hp s Hs.
  apply in_app_or in Hp as [Hp|Hp].
  - destruct (group d) as [g|]; [|done].
    apply in_app_or in Hp as [Hp|[<-|[]]].
    + destruct (is_UPDATE (group_type g)); [|done].
      destruct (group_avatar g) as [avatar|]; [|done].
      destruct Hp as [<-|[]]. by apply fulfils_avatar_promise.
    + by apply fulfils_group_promise.
  - apply list_elem_of_In, elem_of_lookup_imap in Hp as (i & a & -> & _).
    by apply fulfils_attachment_promise.
Qed.

Lemma fulfils_processDecrypted (d : DataMessage) (from : option string) :
  Q (mkDataMessage (body d) (attachments d) (group d)
                   (Some (default 0 (flags d)))
                   (Some (default 0 (expireTimer d)))) ->
  fulfils Q (processDecrypted' d from).
Proof.
  intros HQ. unfold processDecrypted.
  destruct (negb (js_and _ END_SESSION =? 0)%Z).
  { cbn. by apply Q_set_group, Q_clear. }
  eapply fulfils_bind with (Q := Q).
  - destruct (negb (js_and _ EXPIRATION_TIMER_UPDATE =? 0)%Z).
    { cbn. by apply Q_clear. }
    by destruct (negb _).
  - intros d' Hd'. by apply fulfils_promises.
Qed.

End Stable.

(** X17: the message [processDecrypted] hands on has its [flags] and
    its [expireTimer] set: whenever its promise is fulfilled, the two
    fields of the result are those of the given message, with 0 in the
    place of [null]. *)
Theorem processDecrypted_sets_defaults (decrypted : DataMessage)
    (from : option string) (w w' : W) (result : DataMessage)
    (effs : list effect) :
  Async.alone answer throws (processDecrypted' decrypted from) w
  = (inr result, effs, w') ->
  flags result = Some (default 0 (flags decrypted))
  /\ expireTimer result = Some (default 0 (expireTimer decrypted)).
Proof.
  apply (fulfils_alone answer throws _ (processDecrypted' decrypted from)
           (fun r => flags r = Some (default 0 (flags decrypted))
                     /\ expireTimer r = Some (default 0 (expireTimer decrypted)))).
  by apply fulfils_processDecrypted.
Qed.

(** X18: a message that ends the session or updates the expiration
    timer carries no content.  When the flags hold the END_SESSION or
    the EXPIRATION_TIMER_UPDATE bit and the promise of
    [processDecrypted] is fulfilled, the result has no body and no
    attachments, whatever the group handling did in between. *)
Theorem flagged_message_is_emptied (decrypted : DataMessage)
    (from : option string) (w w' : W) (result : DataMessage)
    (effs : list effect) :
  js_and (flags decrypted) END_SESSION <> 0
  \/ js_and (flags decrypted) EXPIRATION_TIMER_UPDATE <> 0 ->
  Async.alone answer throws (processDecrypted' decrypted from) w
  = (inr result, effs, w') ->
  body result = None /\ attachments result = [].
Proof.
  intros Hflag.
  apply (fulfils_alone answer throws _ (processDecrypted' decrypted from)
           (fun r => body r = None /\ attachments r = [])).
  assert (Hsame : forall m, js_and (Some (default 0 (flags decrypted))) m
                            = js_and (flags decrypted) m).
  { intros m. by destruct (flags decrypted). }
  unfold processDecrypted. cbn [flags]. rewrite !Hsame.
  destruct (Z.eqb_spec (js_and (flags decrypted) END_SESSION) 0) as [Hend|Hend];
    cbn [negb]; [|done].
  destruct (Z.eqb_spec (js_and (flags decrypted) EXPIRATION_TIMER_UPDATE) 0)
    as [Hexp|Hexp]; cbn [negb]; [by destruct Hflag|].
  cbn [Async.bind Async.attempt].
  apply fulfils_promises; try done.
  - by intros i a d [-> ->].
Qed.

Lemma fulfils_attachments (suffix : list AttachmentPointer) :
  forall (k : nat) (before before' : list AttachmentPointer)
         (shared : DataMessage) (rejected : option error),
    attachments shared = before' ++ suffix ->
    length before' = k ->
    Forall2 (fun a a' => att_id a' = att_id a /\ att_key a' = att_key a
                         /\ att_data a' <> None) before before' ->
    fulfils
      (fun r => Forall2 (fun a a' => att_id a' = att_id a /\ att_key a' = att_key a
                                     /\ att_data a' <> None)
                        (before ++ suffix) (attachments r)
                /\ body r = body shared)
      (Promise_all (imap (fun i => attachment_promise (k + i)) suffix)
                   shared rejected).
Proof.
  induction suffix as [|a suffix IH];
    intros k before before' shared rejected Hatts Hlen Hdone;
    cbn [imap Promise_all].
  - destruct rejected; [done|]. cbn. by rewrite Hatts, !app_nil_r.
  - eapply fulfils_attempt
      with (Q := fun s' => exists a', (att_id a' = att_id a /\ att_key a' = att_key a
                                       /\ att_data a' <> None)
                                      /\ attachments s' = (before' ++ [a']) ++ suffix
                                      /\ body s' = body shared).
    + unfold attachment_promise.
      eapply fulfils_bind; [apply fulfils_handleAttachment|].
      intros a' Ha'. cbn. exists a'. split; [done|]. split; [|done].
      rewrite Hatts, <- app_assoc. cbn.
      rewrite insert_app_r_alt by lia.
      by replace (k + 0 - length before')%nat with 0%nat by lia.
    + intros s' (a' & Ha' & Hatts' & Hbody').
      eapply fulfils_mono; cycle 1.
      * rewrite (imap_ext _ (fun i => attachment_promise (S k + i)) suffix).
        -- apply (IH (S k) (before ++ [a]) (before' ++ [a']) s' rejected Hatts').
           ++ rewrite length_app. cbn. lia.
           ++ apply Forall2_app; [done|]. by constructor.
        -- intros i x _. cbn. f_equal. lia.
      * cbn. intros r [Hr Hb]. rewrite <- app_assoc in Hr. cbn in Hr.
        split; [done|congruence].
    + intros e. destruct rejected; apply fulfils_Promise_all_rejected.
Qed.

(** X19: the attachments of a plain message are all fetched.  For a
    message without group and with flags 0, when the promise of
    [processDecrypted] is fulfilled the result has the same body and
    the same attachments in the same order, with the same ids and
    keys, and every one of them has its data. *)
Theorem attachments_all_fetched (decrypted : DataMessage)
    (from : option string) (w w' : W) (result : DataMessage)
    (effs : list effect) :
  group decrypted = None ->
  default 0 (flags decrypted) = 0 ->
  Async.alone answer throws (processDecrypted' decrypted from) w
  = (inr result, effs, w') ->
  Forall2 (fun a a' => att_id a' = att_id a /\ att_key a' = att_key a
                       /\ att_data a' <> None)
          (attachments decrypted) (attachments result)
  /\ body result = body decrypted.
Proof.
  intros Hgroup Hflags.
  apply (fulfils_alone answer throws _ (processDecrypted' decrypted from)
           (fun r => Forall2 (fun a a' => att_id a' = att_id a
                                          /\ att_key a' = att_key a
                                          /\ att_data a' <> None)
                             (attachments decrypted) (attachments r)
                     /\ body r = body decrypted)).
  unfold processDecrypted. cbn [flags]. rewrite Hflags.
  assert (Hzero : forall m, js_and (Some 0) m = 0).
  { intros m. unfold js_and. cbn [default from_option id].
    replace (to_int32 0) with 0 by reflexivity. by rewrite Z.land_0_l. }
  rewrite !Hzero. cbn [Z.eqb negb Async.bind Async.attempt group attachments].
  rewrite Hgroup. cbn [app].
  refine (fulfils_attachments (attachments decrypted) 0 [] []
            (mkDataMessage (body decrypted) (attachments decrypted) None (Some 0)
                           (Some (default 0 (expireTimer decrypted))))
            None _ _ _); done.
Qed.

Lemma never_catch {A : Type} (bad : effect -> Prop) (p : proc A)
    (h : error -> proc A) :
  never bad p -> (forall e, never bad (h e)) -> never bad (Async.catch p h).
Proof.
  intros Hp Hh. apply never_attempt; [done|]. intros [e|a]; [apply Hh|done].
Qed.

Lemma never_lift {A : Type} (bad : effect -> Prop) (r : error + A) :
  never bad (Async.lift r).
Proof. by destruct r. Qed.

Lemma never_put_decrypt (envelope : Envelope) (ct : list byte) :
  never is_StoragePut (decrypt Address_toString envelope ct).
Proof.
  unfold decrypt. apply never_catch.
  - apply effect_free_never. destruct (env_type envelope); try done.
    + apply effect_free_bind; [apply effect_free_await|apply effect_free_unpad].
    + apply effect_free_decryptPreKeyWhisperMessage.
  - intros e. cbn. tauto.
Qed.

Lemma never_put_handleDataMessage (envelope : Envelope) (m : DataMessage) :
  never is_StoragePut
    (handleDataMessage number END_SESSION EXPIRATION_TIMER_UPDATE envelope m).
Proof.
  unfold handleDataMessage. apply never_bind.
  - apply effect_free_never.
    destruct (_ =? _)%Z; [apply effect_free_handleEndSession|done].
  - intros _. apply never_bind.
    + apply effect_free_never, effect_free_processDecrypted.
    + intros m'. cbn. tauto.
Qed.

(** X20: only the user's other devices can change the list of blocked
    numbers.  The handler of an envelope that comes from another number
    than the receiver's own, or from the receiver's own device, never
    calls [storage.put] (which [handleBlocked] uses to store the list),
    whatever the envelope decrypts to. *)
Theorem foreign_envelope_never_puts (envelope : Envelope) (w : W)
    (key : string) (value : list string) :
  source envelope <> number \/ sourceDevice envelope = deviceId ->
  ~ In (StoragePut key value)
       (Async.alone answer throws (handleEnvelope' envelope) w).1.2.
Proof.
  intros Hguard Hin.
  refine (never_alone answer throws _ (handleEnvelope' envelope) is_StoragePut w _ _ Hin I).
  assert (Hsync : forall sync,
            never is_StoragePut
              (handleSyncMessage number deviceId END_SESSION EXPIRATION_TIMER_UPDATE
                                 handleContacts handleGroups envelope sync)).
  { intros sync. unfold handleSyncMessage.
    destruct (String.eqb_spec (source envelope) number) as [Heq|Hne]; cbn [negb];
      [|done].
    destruct (Z.eqb_spec (sourceDevice envelope) deviceId) as [Hdev|Hdev]; [done|].
    by destruct Hguard. }
  assert (Hcontent : forall ct,
            never is_StoragePut
              (handleContentMessage number deviceId END_SESSION
                 EXPIRATION_TIMER_UPDATE Content_decode Address_toString
                 handleContacts handleGroups envelope ct)).
  { intros ct. unfold handleContentMessage.
    apply never_bind; [apply never_put_decrypt|]. intros plaintext.
    apply never_bind; [apply never_lift|]. intros c.
    destruct (syncMessage c) as [sync|]; [apply Hsync|].
    destruct (dataMessage c) as [data|]; [|done].
    apply never_put_handleDataMessage. }
  assert (Hlegacy : forall ct,
            never is_StoragePut
              (handleLegacyMessage number END_SESSION EXPIRATION_TIMER_UPDATE
                 DataMessage_decode Address_toString envelope ct)).
  { intros ct. unfold handleLegacyMessage.
    apply never_bind; [apply never_put_decrypt|]. intros plaintext.
    apply never_bind; [apply never_lift|]. intros m.
    apply never_put_handleDataMessage. }
  unfold handleEnvelope.
  destruct (env_type envelope);
    try (destruct (content envelope) as [ct|]; [apply Hcontent|];
         destruct (legacyMessage envelope) as [ct|]; [apply Hlegacy|done]).
  cbn. tauto.
Qed.

(** X21: [handleRead] dispatches one [read] event for every entry,
    in the order of the entries, each with the timestamp of the
    envelope and the entry's own timestamp and sender; it does nothing
    else and never fails. *)
Theorem handleRead_one_event_per_entry (read : list ReadEntry) (timestamp : Z)
    (w : W) :
  Async.alone answer throws (handleRead read timestamp) w
  = (inr tt, map (read_event timestamp) read, w).
Proof.
  induction read as [|r read IH]; [done|].
  change (handleRead (r :: read) timestamp)
    with (Async.Do (read_event timestamp r) (handleRead read timestamp)).
  cbn [Async.alone map]. by rewrite IH.
Qed.

(** X22: a message the user sent from another device is announced
    once.  For an envelope from the receiver's own number and another
    device whose sync message holds a sent message: either the promise
    of [handleSyncMessage] is fulfilled and the one thing done was to
    dispatch one [sent] event with the destination, the timestamp, the
    expiration start and a message that [processDecrypted] made of the
    sent one with the receiver's own number as source; or the promise
    is rejected and nothing was dispatched. *)
Theorem own_sent_message_one_event (envelope : Envelope) (sync : SyncMessage)
    (sent : SentMessage) (w : W) :
  source envelope = number ->
  sourceDevice envelope <> deviceId ->
  sync_sent sync = Some sent ->
  (exists message' w0 w',
      Async.alone answer throws
        (handleSyncMessage number deviceId END_SESSION EXPIRATION_TIMER_UPDATE
                           handleContacts handleGroups envelope sync) w
      = (inr tt,
         [DispatchEvent
            (EvSent (sent_destination sent) (Ids.toNumber (sent_timestamp sent))
                    message'
                    (Ids.toNumber <$> sent_expirationStartTimestamp sent))],
         w')
      /\ Async.alone answer throws
           (processDecrypted' (sent_message sent) (Some number)) w0
         = (inr message', [], w'))
  \/ (exists e w',
         Async.alone answer throws
           (handleSyncMessage number deviceId END_SESSION EXPIRATION_TIMER_UPDATE
                              handleContacts handleGroups envelope sync) w
         = (inl e, [], w')).
Proof.
  intros Hsource Hdevice Hsent. unfold handleSyncMessage.
  rewrite Hsource, String.eqb_refl. cbn [negb].
  destruct (Z.eqb_spec (sourceDevice envelope) deviceId) as [Heq|_]; [done|].
  rewrite Hsent. unfold handleSentMessage. rewrite alone_bind.
  match goal with
  | |- context [Async.alone answer throws ?p w] => assert (Hfirst : effect_free p)
  end.
  { destruct (_ =? _)%Z; [apply effect_free_handleEndSession|done]. }
  destruct (alone_effect_free answer throws _ w Hfirst) as ([e|[]] & w0 & ->).
  { right. by exists e, w0. }
  rewrite alone_bind.
  destruct (alone_effect_free answer throws _ w0
              (effect_free_processDecrypted number END_SESSION
                 EXPIRATION_TIMER_UPDATE (sent_message sent) (Some number)))
    as ([e|message'] & w' & Hpd); rewrite Hpd.
  - right. by exists e, w'.
  - left. by exists message', w0, w'.
Qed.

End ProcessDecryptedFacts.

Lemma processDecrypted_sets_defaults_witness :
  Receiver.flags
    (Receiver.mkDataMessage (Some "hello"%string) [] None (Some 0) (Some 0))
  = Some (default 0 (Receiver.flags Examples.hello))
  /\ Receiver.expireTimer
       (Receiver.mkDataMessage (Some "hello"%string) [] None (Some 0) (Some 0))
     = Some (default 0 (Receiver.expireTimer Examples.hello)).
Proof.
  apply (processDecrypted_sets_defaults Scenario.alice 1 2 Scenario.answer
         Scenario.open_socket
           Examples.hello None tt tt
           (Receiver.mkDataMessage (Some "hello"%string) [] None (Some 0) (Some 0))
           []).
  reflexivity.
Defined.

Lemma flagged_message_is_emptied_witness :
  Receiver.body (Receiver.mkDataMessage None [] None (Some 2) (Some 60)) = None
  /\ Receiver.attachments (Receiver.mkDataMessage None [] None (Some 2) (Some 60))
     = [].
Proof.
  apply (flagged_message_is_emptied Scenario.alice 1 2 Scenario.answer
         Scenario.open_socket
           Examples.timer_update None tt tt
           (Receiver.mkDataMessage None [] None (Some 2) (Some 60)) []).
  - right. vm_compute. discriminate.
  - reflexivity.
Defined.

Lemma attachments_all_fetched_witness :
  Forall2 (fun a a' => Receiver.att_id a' = Receiver.att_id a
                       /\ Receiver.att_key a' = Receiver.att_key a
                       /\ Receiver.att_data a' <> None)
          (Receiver.attachments Examples.two_attachments)
          (Receiver.attachments
             (Receiver.mkDataMessage (Some "see"%string)
                [Receiver.mkAttachment 7 [x01] (Some []);
                 Receiver.mkAttachment 8 [x02] (Some [])]
                None (Some 0) (Some 0)))
  /\ Receiver.body
       (Receiver.mkDataMessage (Some "see"%string)
          [Receiver.mkAttachment 7 [x01] (Some []);
           Receiver.mkAttachment 8 [x02] (Some [])]
          None (Some 0) (Some 0))
     = Receiver.body Examples.two_attachments.
Proof.
  apply (attachments_all_fetched Scenario.alice 1 2 Scenario.answer Scenario.open_socket
           Examples.two_attachments None tt tt
           (Receiver.mkDataMessage (Some "see"%string)
              [Receiver.mkAttachment 7 [x01] (Some []);
               Receiver.mkAttachment 8 [x02] (Some [])]
              None (Some 0) (Some 0))
           []);
    reflexivity.
Defined.

Lemma foreign_envelope_never_puts_witness :
  ~ In (Receiver.StoragePut "blocked" [Scenario.alice])
       (Async.alone Scenario.answer Scenario.open_socket
          (Receiver.handleEnvelope "+15550000000" 2 1 2
             Examples.Content_decode_blocked Scenario.DataMessage_decode
             Scenario.Address_toString Scenario.no_blob Scenario.no_blob
             Scenario.hello_envelope)
          tt).1.2.
Proof.
  apply (foreign_envelope_never_puts "+15550000000" 2 1 2
           Examples.Content_decode_blocked Scenario.DataMessage_decode
           Scenario.Address_toString Scenario.no_blob Scenario.no_blob
           Scenario.answer
           Scenario.open_socket Scenario.hello_envelope tt "blocked"%string
           [Scenario.alice]).
  left. discriminate.
Defined.

Lemma own_sent_message_one_event_witness :
  (exists message' w0 w',
      Async.alone Scenario.answer Scenario.open_socket
        (Receiver.handleSyncMessage Scenario.alice 2 1 2 Scenario.no_blob
           Scenario.no_blob Scenario.hello_envelope Examples.sent_hello) tt
      = (inr tt,
         [Receiver.DispatchEvent
            (Receiver.EvSent
               (Receiver.sent_destination Examples.sent_to_bob)
               (Ids.toNumber (Receiver.sent_timestamp Examples.sent_to_bob))
               message'
               (Ids.toNumber
                  <$> Receiver.sent_expirationStartTimestamp Examples.sent_to_bob))],
         w')
      /\ Async.alone Scenario.answer Scenario.open_socket
           (Receiver.processDecrypted Scenario.alice 1 2
              (Receiver.sent_message Examples.sent_to_bob) (Some Scenario.alice)) w0
         = (inr message', [], w'))
  \/ (exists e w',
         Async.alone Scenario.answer Scenario.open_socket
           (Receiver.handleSyncMessage Scenario.alice 2 1 2 Scenario.no_blob
              Scenario.no_blob Scenario.hello_envelope Examples.sent_hello) tt
         = (inl e, [], w')).
Proof.
  apply (own_sent_message_one_event Scenario.alice 2 1 2 Scenario.no_blob
           Scenario.no_blob Scenario.answer Scenario.open_socket Scenario.hello_envelope
           Examples.sent_hello Examples.sent_to_bob tt).
  - reflexivity.
  - cbn. lia.
  - reflexivity.
Defined.

Section QueueCounts.
Import Receiver.
Local Open Scope nat_scope.

Variable signalingKey : list byte.
Variable number : string.
Variable deviceId : Z.
Variables END_SESSION EXPIRATION_TIMER_UPDATE : Z.
Variable Envelope_decode : list byte -> error + Envelope.
Variable Content_decode : option (list byte) -> error + Content.
Variable DataMessage_decode : option (list byte) -> error + DataMessage.
Variable Address_toString : Address -> string.
Variables handleContacts handleGroups : AttachmentPointer -> proc unit.
Context {W : Type}.
Variable answer : forall X, call X -> W -> (error + X) * W.
Variable throws : effect -> W -> option error.

Abbreviation run' :=
  (Receiver.run signalingKey number deviceId END_SESSION EXPIRATION_TIMER_UPDATE
                Envelope_decode Content_decode DataMessage_decode
                Address_toString handleContacts handleGroups answer throws).

(** X24: no envelope is handled twice.  After any sequence of inbound
    requests, microtasks, answers of collaborators, calls of [connect]
    and close events of the socket, in any order, the handler of each
    promise of the queue has been started at most once. *)
Theorem handler_started_at_most_once (actions : list action) (w : W) (d : nat) :
  starts d (trace (run' actions (connected w))) <= 1.
Proof.
  apply inv_once.
  apply (run_keeps_Inv signalingKey number deviceId END_SESSION
           EXPIRATION_TIMER_UPDATE Envelope_decode Content_decode
           DataMessage_decode Address_toString handleContacts handleGroups
           answer throws actions (connected w)).
  apply connected_Inv.
Qed.

End QueueCounts.
